(** * Ticket to Ride rules engine ([internal/types.py]): a shallow embedding

    The Python classes [Deck], [Route], [Destination], [Action], [Agent] and
    [Game] are embedded as records and functions.  Python integers are [Z],
    Python strings are [string], Python lists and deques are [list]s written
    left to right.  A method that mutates its receiver is a function from the
    receiver's state to an outcome (returned value or raised exception) and
    the receiver's state afterwards: an exception does not roll back the
    mutations made before it was raised. *)

From Stdlib Require Import ZArith List String Lia Permutation Bool.
From stdpp Require Import base list.
Import ListNotations.

Local Open Scope string_scope.
Local Open Scope list_scope.
Local Open Scope Z_scope.

(** ** Python outcomes and methods *)

Inductive PyError : Type :=
| AssertionError (msg : string)
| IndexError (msg : string)
| TypeError (msg : string)
| SystemExit (msg : string)
| FileNotFoundError (msg : string)
| AttributeError (msg : string).

Inductive outcome (A : Type) : Type :=
| Returned (a : A)
| Raised (e : PyError).

Arguments Returned {A} a.
Arguments Raised {A} e.

(** A method of an object with state [S] that returns an [A]. *)
Definition Method (S A : Type) : Type := S -> outcome A * S.

Definition ret {S A} (a : A) : Method S A := fun s => (Returned a, s).

Definition raise {S A} (e : PyError) : Method S A := fun s => (Raised e, s).

Definition bind {S A B} (m : Method S A) (k : A -> Method S B) : Method S B :=
  fun s =>
    match m s with
    | (Returned a, s') => k a s'
    | (Raised e, s') => (Raised e, s')
    end.

Notation "'let*' x ':=' m 'in' k" := (bind m (fun x => k))
  (at level 10, x name, m at level 100, k at level 200).

(** [assert cond, msg] *)
Definition assert {S} (cond : bool) (msg : string) : Method S unit :=
  if cond then ret tt else raise (AssertionError msg).

Definition raises {A S} (r : outcome A * S) : Prop :=
  exists e, fst r = Raised e.

(** A Python value that is either [None] or a list: what [random.shuffle]
    returns and what the [deque] constructor is given. *)
Inductive PyIterable (A : Type) : Type :=
| PyNone
| PyList (items : list A).

Arguments PyNone {A}.
Arguments PyList {A} items.

(** ** class Deck *)

(** [self.cards] is a [collections.deque]; the list holds it left to right,
    so [pop] takes the last element and [appendleft] adds a first one. *)
Record Deck (A : Type) : Type := { cards : list A }.

Arguments Build_Deck {A} cards.
Arguments cards {A} d.

Section DeckMethods.
Context {A : Type}.

(** The permutation the random generator picks when [random.shuffle] runs. *)
Variable permute : list A -> list A.

(** [random.shuffle(x)] permutes the list [x] in place and returns [None]:
    the pair is (returned value, contents of [x] afterwards). *)
Definition random_shuffle (x : list A) : PyIterable A * list A :=
  (PyNone, permute x).

(** [deque(iterable)]: the constructor iterates over its argument. *)
Definition deque (iterable : PyIterable A) : outcome (list A) :=
  match iterable with
  | PyList items => Returned items
  | PyNone => Raised (TypeError "'NoneType' object is not iterable")
  end.

(** [deque.pop()] *)
Definition deque_pop : Method (Deck A) A := fun self =>
  match rev (cards self) with
  | [] => (Raised (IndexError "pop from an empty deque"), self)
  | x :: rest => (Returned x, {| cards := rev rest |})
  end.

(** [deque.appendleft(x)] *)
Definition deque_appendleft (x : A) : Method (Deck A) unit := fun self =>
  (Returned tt, {| cards := x :: cards self |}).

(** [Deck.__init__(items)]: [shuffle(items)] then [self.cards = deque(items)];
    the pair is (the new deck, contents of [items] afterwards). *)
Definition Deck_init (items : list A) : Deck A * list A :=
  let items' := snd (random_shuffle items) in
  ({| cards := items' |}, items').

(** [Deck.count] *)
Definition count (self : Deck A) : Z := Z.of_nat (length (cards self)).

(** [Deck.shuffle]: the result of [shuffle(list(self.cards))] is bound to
    [reShuffled] and handed to [deque]; the shuffled temporary list is
    dropped. *)
Definition shuffle : Method (Deck A) unit :=
  let* _ := (fun self => assert (0 <? Z.of_nat (length (cards self)))
                           "Can't shuffle an empty deck" self) in
  fun self =>
    let reShuffled := fst (random_shuffle (cards self)) in
    match deque reShuffled with
    | Returned q => (Returned tt, {| cards := q |})
    | Raised e => (Raised e, self)
    end.

(** The body of [for _ in range(number): cardsDrawn.append(self.cards.pop())],
    with [k] iterations left. *)
Fixpoint draw_loop (k : nat) (cardsDrawn : list A) : Method (Deck A) (list A) :=
  match k with
  | O => ret cardsDrawn
  | S k' => let* c := deque_pop in draw_loop k' (cardsDrawn ++ [c])
  end.

(** [Deck.draw(number)]; [range] of a negative number is empty. *)
Definition draw (number : Z) : Method (Deck A) (list A) :=
  let* _ := (fun self => assert (0 <? Z.of_nat (length (cards self)))
                           "Can't draw from an empty deck." self) in
  draw_loop (Z.to_nat number) [].

(** [Deck.insert(cards)]: [for card in cards: self.cards.appendleft(card)]. *)
Fixpoint insert (cs : list A) : Method (Deck A) unit :=
  match cs with
  | [] => ret tt
  | card :: cs' => let* _ := deque_appendleft card in insert cs'
  end.

End DeckMethods.

(** ** Routes, destinations, board edges, actions, agents *)

Module Destination.
Record t : Type := { city1 : string; city2 : string; points : Z; index : Z }.
End Destination.

Module Route.
Record t : Type :=
  { city1 : string; city2 : string; weight : Z; color : string; index : Z }.
End Route.

(** An edge of the [networkx.MultiGraph] board as [edges(data=True)] yields
    it: the two end points and the attribute dictionary with the keys
    ['weight'], ['color'], ['owner'] and ['index'].  The owner is [None] or a
    string.  The board of a game ([Game.board]) is the list of its edges in
    the order the graph yields them ([edgesView] below). *)
Module Edge.
Record t : Type :=
  { u : string; v : string;
    weight : Z; color : string; owner : option string; index : Z }.
End Edge.

(** [Action(action, route, colorsUsed, colorToDraw, askingForDeal, takeDests)]
    keeps only the attributes of its kind:
    0 - place route, 1 - draw face up, 2 - draw face down,
    3 - destination cards (asking for a deal, or taking dealt cards). *)
Inductive Action : Type :=
| PlaceRoute (route : Route.t) (colorsUsed : list string)
| DrawFaceUp (colorToDraw : string)
| DrawFaceDown
| AskForDeal
| TakeDestinations (takeDests : list Z).

(** [self.action] *)
Definition action (a : Action) : Z :=
  match a with
  | PlaceRoute _ _ => 0
  | DrawFaceUp _ => 1
  | DrawFaceDown => 2
  | AskForDeal | TakeDestinations _ => 3
  end.

Module Agent.
Record t : Type :=
  { points : Z;
    name : string;
    trainsLeft : Z;
    turnOrder : option Z;
    trainCards : list string;
    destinationCards : list Destination.t;
    colorCounts : list (list Z) }.
End Agent.

(** ** class Game *)

(** The attributes of a [Game].  [P] is what a player is held as: an
    [Agent.t] value where the players are only read, a heap location where
    the code shares and mutates the [Agent] objects. *)
Module Game.
Record t (P : Type) : Type :=
  { map : string;
    doLogs : bool;
    drawGame : bool;
    gameOver : bool;
    lastTurn : bool;
    endedGame : option Z;
    colorPicked : option string;
    turn : Z;
    wildPicked : bool;
    gameLogs : list string;
    trainCarDeck : Deck string;
    destinationDeal : option (list Destination.t);
    movePerforming : option Action;
    board : list Edge.t;
    faceUpCards : list string;
    destinationCards : list Destination.t;
    destinationsDeck : Deck Destination.t;
    players : list P;
    makingNextMove : P }.

Arguments Build_t {P}.
Arguments map {P}.
Arguments doLogs {P}.
Arguments drawGame {P}.
Arguments gameOver {P}.
Arguments lastTurn {P}.
Arguments endedGame {P}.
Arguments colorPicked {P}.
Arguments turn {P}.
Arguments wildPicked {P}.
Arguments gameLogs {P}.
Arguments trainCarDeck {P}.
Arguments destinationDeal {P}.
Arguments movePerforming {P}.
Arguments board {P}.
Arguments faceUpCards {P}.
Arguments destinationCards {P}.
Arguments destinationsDeck {P}.
Arguments players {P}.
Arguments makingNextMove {P}.
End Game.

(** [color_indexing], in the insertion order of the dictionary literal. *)
Definition color_indexing : list (string * Z) :=
  [("PINK", 0); ("WHITE", 1); ("BLUE", 2); ("YELLOW", 3); ("ORANGE", 4);
   ("BLACK", 5); ("RED", 6); ("GREEN", 7); ("WILD", 8)].

(** [d.keys()] *)
Definition keys {K V} (d : list (K * V)) : list K := List.map fst d.

(** [listDestTakes()] *)
Definition listDestTakes : list (list Z) :=
  [[0]; [1]; [2]; [0; 1]; [0; 2]; [1; 2]; [0; 1; 2]].

(** [trainCards.count(color)] *)
Definition list_count (cs : list string) (color : string) : Z :=
  Z.of_nat (count_occ string_dec cs color).

(** [route[2]['owner'] != ''] *)
Definition owner_ne_empty (o : option string) : bool :=
  match o with
  | None => true
  | Some s => negb (s =? "")%string
  end.

(** [Route(route[0], route[1], route[2]['weight'], route[2]['color'],
    route[2]['index'])] *)
Definition routeTypeOf (route : Edge.t) : Route.t :=
  {| Route.city1 := Edge.u route; Route.city2 := Edge.v route;
     Route.weight := Edge.weight route; Route.color := Edge.color route;
     Route.index := Edge.index route |}.

Section ValidMoves.

(** The hand and the number of wild cards of [self.makingNextMove]. *)
Variable trainCards : list string.
Variable numWilds : Z.

(** Lines 259-271: the payments for a route of a colour other than GRAY. *)
Definition colorPayments (routeType : Route.t) (weight : Z) (color : string)
  : list Action :=
  let numColor := list_count trainCards color in
  if numColor =? 0 then []
  else if numColor <? weight then
    if 0 <? numWilds then
      if numWilds + numColor =? weight then
        [PlaceRoute routeType [color; "WILD"]]
      else if weight <? numWilds + numColor then
        PlaceRoute routeType [color; "WILD"] ::
        (if numWilds <? weight then [PlaceRoute routeType ["WILD"; color]]
         else [])
      else []
    else []
  else if weight <=? numColor then
    PlaceRoute routeType [color] ::
    (if (0 <? numWilds) && (numWilds <? weight)
     then [PlaceRoute routeType ["WILD"; color]] else [])
  else [].

(** Lines 275-288: the body of the loop over [color_indexing.keys()] for a
    GRAY route. *)
Definition grayPayments (routeType : Route.t) (weight : Z) (color : string)
  : list Action :=
  let numColor := list_count trainCards color in
  if numColor =? 0 then []
  else if numColor <? weight then
    if 0 <? numWilds then
      (if numWilds + numColor =? weight
       then [PlaceRoute routeType [color; "WILD"]] else []) ++
      (if weight <? numWilds + numColor then
         PlaceRoute routeType [color; "WILD"] ::
         (if numWilds <? weight then [PlaceRoute routeType ["WILD"; color]]
          else [])
       else [])
    else []
  else if weight <=? numColor then
    PlaceRoute routeType [color] ::
    (if (0 <? numWilds) && (numWilds <? weight)
     then [PlaceRoute routeType ["WILD"; color]] else [])
  else [].

(** Lines 252-290: the actions one board edge adds to [actionList]. *)
Definition routeActions (route : Edge.t) : list Action :=
  if owner_ne_empty (Edge.owner route) then []
  else
    let weight := Edge.weight route in
    let color := Edge.color route in
    let routeType := routeTypeOf route in
    if negb (color =? "GRAY")%string then colorPayments routeType weight color
    else
      flat_map (grayPayments routeType weight) (keys color_indexing) ++
      (if weight <=? numWilds then [PlaceRoute routeType ["WILD"]] else []).

End ValidMoves.

(** [self.gameOver = True; self.endedGame = self.makingNextMove.turnOrder] *)
Definition setGameOver (self : Game.t Agent.t) : Game.t Agent.t :=
  {| Game.map := Game.map self;
     Game.doLogs := Game.doLogs self;
     Game.drawGame := Game.drawGame self;
     Game.gameOver := true;
     Game.lastTurn := Game.lastTurn self;
     Game.endedGame := Agent.turnOrder (Game.makingNextMove self);
     Game.colorPicked := Game.colorPicked self;
     Game.turn := Game.turn self;
     Game.wildPicked := Game.wildPicked self;
     Game.gameLogs := Game.gameLogs self;
     Game.trainCarDeck := Game.trainCarDeck self;
     Game.destinationDeal := Game.destinationDeal self;
     Game.movePerforming := Game.movePerforming self;
     Game.board := Game.board self;
     Game.faceUpCards := Game.faceUpCards self;
     Game.destinationCards := Game.destinationCards self;
     Game.destinationsDeck := Game.destinationsDeck self;
     Game.players := Game.players self;
     Game.makingNextMove := Game.makingNextMove self |}.

(** Lines 248-309: [actionList] when the game is not over. *)
Definition actionListOf (self : Game.t Agent.t) : list Action :=
  let faceUp := Game.faceUpCards self in
  match Game.movePerforming self with
  | None =>
      let hand := Agent.trainCards (Game.makingNextMove self) in
      let numWilds := list_count hand "WILD" in
      flat_map (routeActions hand numWilds) (Game.board self) ++
      List.map DrawFaceUp faceUp ++
      (if 0 <? count (Game.trainCarDeck self) then [DrawFaceDown] else []) ++
      (if 3 <=? count (Game.destinationsDeck self) then [AskForDeal] else [])
  | Some move =>
      if action move =? 1 then
        flat_map (fun card => if (card =? "WILD")%string then []
                              else [DrawFaceUp card]) faceUp ++
        (if 1 <=? count (Game.trainCarDeck self) then [DrawFaceDown] else [])
      else if action move =? 2 then
        List.map DrawFaceUp faceUp ++
        (if 1 <=? count (Game.trainCarDeck self) then [DrawFaceDown] else [])
      else if action move =? 3 then
        List.map TakeDestinations listDestTakes
      else []
  end.

(** [Game.validMoves]: the returned list and the game afterwards (the
    message printed when no move is found is left out). *)
Definition validMoves (self : Game.t Agent.t) : list Action * Game.t Agent.t :=
  if Game.gameOver self then ([], self)
  else
    let actionList := actionListOf self in
    if (length actionList =? 0)%nat then (actionList, setGameOver self)
    else (actionList, self).

(** ** Building the board *)

(** The edge [initBoard] adds for a route. *)
Definition edgeOfRoute (route : Route.t) : Edge.t :=
  {| Edge.u := Route.city1 route; Edge.v := Route.city2 route;
     Edge.weight := Route.weight route; Edge.color := Route.color route;
     Edge.owner := None; Edge.index := Route.index route |}.

(** [board.has_edge(a, b)] on an undirected multigraph. *)
Definition has_edge (board : list Edge.t) (a b : string) : bool :=
  existsb (fun e => ((Edge.u e =? a) && (Edge.v e =? b))%string ||
                    ((Edge.u e =? b) && (Edge.v e =? a))%string) board.

(** [initBoard(map, players)]: the multigraph it returns, as the list of the
    edges it holds, in the order [add_edges_from] adds them and with the end
    points in the order of the file; [routes] is what [getRoutes(map)] read
    from the map file.  With other than four players the generator is
    consumed edge by edge, so [has_edge] sees the edges added so far.  The
    order and the end points that [edges(data=True)] reports are those of
    [edgesView] below. *)
Definition initBoard (routes : list Route.t) (players : Z) : list Edge.t :=
  if players =? 4 then List.map edgeOfRoute routes
  else
    fold_left (fun board route =>
                 if has_edge board (Route.city1 route) (Route.city2 route)
                 then board else board ++ [edgeOfRoute route])
              routes [].

(** ** The edges as the graph yields them *)

(** The elements of [l] that are not in [seen], each at its first
    occurrence: the keys of a dictionary in the order they were inserted. *)
Fixpoint firstOccurrences (seen l : list string) : list string :=
  match l with
  | [] => []
  | x :: rest =>
      if existsb (String.eqb x) seen then firstOccurrences seen rest
      else x :: firstOccurrences (x :: seen) rest
  end.

(** The nodes of the graph holding the edges [added]: [add_edge(u, v)] adds
    [u], then [v], when the graph does not have them. *)
Definition graphNodes (added : list Edge.t) : list string :=
  firstOccurrences [] (flat_map (fun e => [Edge.u e; Edge.v e]) added).

(** The neighbours of [n], the keys of [_adj[n]]: [add_edge(u, v)] enters [v]
    at [u] and [u] at [v] when the two are not adjacent yet. *)
Definition neighbours (n : string) (added : list Edge.t) : list string :=
  firstOccurrences []
    (flat_map (fun e => if (Edge.u e =? n)%string then [Edge.v e]
                        else if (Edge.v e =? n)%string then [Edge.u e]
                        else []) added).

(** The parallel edges between [n] and [nbr], by increasing key. *)
Definition edgesBetween (n nbr : string) (added : list Edge.t) : list Edge.t :=
  List.filter (fun e => ((Edge.u e =? n) && (Edge.v e =? nbr))%string ||
                        ((Edge.u e =? nbr) && (Edge.v e =? n))%string) added.

(** The triple [(n, nbr, data)] the view reports for an edge. *)
Definition report (n nbr : string) (e : Edge.t) : Edge.t :=
  {| Edge.u := n; Edge.v := nbr; Edge.weight := Edge.weight e;
     Edge.color := Edge.color e; Edge.owner := Edge.owner e;
     Edge.index := Edge.index e |}.

(** The iteration of the view: [for n, nbrs in adj.items(): for nbr, keys in
    nbrs.items(): if nbr not in seen: for key, data in keys.items(): yield
    (n, nbr, data)], with [seen[n] = 1] after the neighbours of [n]. *)
Fixpoint edgesFrom (nodes seen : list string) (added : list Edge.t)
  : list Edge.t :=
  match nodes with
  | [] => []
  | n :: rest =>
      flat_map (fun nbr => if existsb (String.eqb nbr) seen then []
                           else List.map (report n nbr)
                                         (edgesBetween n nbr added))
               (neighbours n added) ++
      edgesFrom rest (n :: seen) added
  end.

(** [board.edges(data=True)] for the multigraph holding the edges [added]:
    the edges come node by node, an edge between two nodes at the one the
    graph got first, reported from that node. *)
Definition edgesView (added : list Edge.t) : list Edge.t :=
  edgesFrom (graphNodes added) [] added.

(** The attribute dictionary of an edge, and for an edge at [n] its other
    end point. *)
Definition attributes (e : Edge.t) : Z * string * option string * Z :=
  (Edge.weight e, Edge.color e, Edge.owner e, Edge.index e).

Definition touches (n : string) (e : Edge.t) : bool :=
  ((Edge.u e =? n) || (Edge.v e =? n))%string.

Definition otherEnd (n : string) (e : Edge.t) : string :=
  if (Edge.u e =? n)%string then Edge.v e else Edge.u e.

(** ** The payment analysis as the specification words it *)

(** The colour lists of the payments for a route of length [W] and colour
    [color], for a player with [numColor] cards of that colour and [numWild]
    wild cards.  [numColor = 0]: skip.  [0 < numColor < W]: the mixed payment
    when [numWild + numColor = W]; when [numWild + numColor > W] the mixed
    payment and, if [numWild < W], the wild-first variant.  [numColor >= W]:
    the pure-colour payment and, if [0 < numWild < W], the mixed variant. *)
Definition specPayments (color : string) (W numColor numWild : Z)
  : list (list string) :=
  if numColor =? 0 then []
  else if numColor <? W then
    if numWild + numColor =? W then [[color; "WILD"]]
    else if W <? numWild + numColor then
      [color; "WILD"] :: (if numWild <? W then [["WILD"; color]] else [])
    else []
  else
    [color] ::
    (if (0 <? numWild) && (numWild <? W) then [["WILD"; color]] else []).

(** The [PlaceRoute] actions for the route with a given index. *)
Definition claimsRoute (idx : Z) (a : Action) : bool :=
  match a with
  | PlaceRoute route _ => Route.index route =? idx
  | _ => false
  end.

(** ** Sample states *)

Definition agentWith (order : Z) (hand : list string) : Agent.t :=
  {| Agent.points := 0; Agent.name := "P"; Agent.trainsLeft := 45;
     Agent.turnOrder := Some order; Agent.trainCards := hand;
     Agent.destinationCards := []; Agent.colorCounts := [] |}.

Definition gameWith (over : bool) (move : option Action) (hand : list string)
    (board : list Edge.t) (faceUp deck : list string)
    (dests : list Destination.t) : Game.t Agent.t :=
  {| Game.map := "USA"; Game.doLogs := false; Game.drawGame := false;
     Game.gameOver := over; Game.lastTurn := false; Game.endedGame := None;
     Game.colorPicked := None; Game.turn := 1; Game.wildPicked := false;
     Game.gameLogs := []; Game.trainCarDeck := {| cards := deck |};
     Game.destinationDeal := None; Game.movePerforming := move;
     Game.board := board; Game.faceUpCards := faceUp;
     Game.destinationCards := dests;
     Game.destinationsDeck := {| cards := dests |};
     Game.players := [agentWith 0 hand; agentWith 1 []];
     Game.makingNextMove := agentWith 0 hand |}.

Definition edgeWith (weight : Z) (color : string) (owner : option string)
    (index : Z) : Edge.t :=
  {| Edge.u := "Duluth"; Edge.v := "Omaha"; Edge.weight := weight;
     Edge.color := color; Edge.owner := owner; Edge.index := index |}.

(** ** Agents as shared objects: [Game.__init__] and [Game.clone] *)

(** [Game.__init__] assigns to attributes of the [Agent] objects it is given,
    and [clone] hands the constructor the player list of the game it copies.
    The agents therefore live on a heap, a list indexed by location; a game
    holds its players as locations.  A new object goes to the end of the
    heap. *)

#[global] Instance Agent_inhabited : Inhabited Agent.t :=
  populate (agentWith 0 []).

(** [player.turnOrder = i] *)
Definition set_turnOrder (i : Z) (a : Agent.t) : Agent.t :=
  {| Agent.points := Agent.points a; Agent.name := Agent.name a;
     Agent.trainsLeft := Agent.trainsLeft a; Agent.turnOrder := Some i;
     Agent.trainCards := Agent.trainCards a;
     Agent.destinationCards := Agent.destinationCards a;
     Agent.colorCounts := Agent.colorCounts a |}.

(** [player.trainCards = hand] *)
Definition set_trainCards (hand : list string) (a : Agent.t) : Agent.t :=
  {| Agent.points := Agent.points a; Agent.name := Agent.name a;
     Agent.trainsLeft := Agent.trainsLeft a;
     Agent.turnOrder := Agent.turnOrder a;
     Agent.trainCards := hand;
     Agent.destinationCards := Agent.destinationCards a;
     Agent.colorCounts := Agent.colorCounts a |}.

(** Reading the object at a location, and allocating a new object. *)
Definition read (p : nat) : Method (list Agent.t) Agent.t :=
  fun heap => (Returned (heap !!! p), heap).

Definition alloc (a : Agent.t) : Method (list Agent.t) nat :=
  fun heap => (Returned (length heap), heap ++ [a]).

(** [deepcopy] of one agent: its attributes hold values only, the copy is a
    new object with the same attributes. *)
Definition deepcopy_agent (p : nat) : Method (list Agent.t) nat :=
  let* a := read p in alloc a.

(** [deepcopy] of a list of agents: every agent is copied once, [memo] maps
    the agents copied so far to their copies. *)
Fixpoint deepcopy_agents (memo : list (nat * nat)) (ps : list nat)
  : Method (list Agent.t) (list nat) :=
  match ps with
  | [] => ret []
  | p :: rest =>
      match List.find (fun m => Nat.eqb (fst m) p) memo with
      | Some m =>
          let* rest' := deepcopy_agents memo rest in ret (snd m :: rest')
      | None =>
          let* p' := deepcopy_agent p in
          let* rest' := deepcopy_agents ((p, p') :: memo) rest in
          ret (p' :: rest')
      end
  end.

Section GameObjects.

(** The permutations the random generator picks for the two decks, and what
    the loaders do with the files of a map: they return the list they read,
    or raise ([open] on a missing file, [data.group] on a line the pattern
    does not match). *)
Variable permuteCards : list string -> list string.
Variable permuteDests : list Destination.t -> list Destination.t.
Variable getRoutes : string -> outcome (list Route.t).
Variable getDestinationCards : string -> outcome (list Destination.t).

(** [trainCarDeck()]: the standard deck of 110 cards, shuffled. *)
Definition trainCarDeck : Deck string :=
  fst (Deck_init permuteCards
         (repeat "PINK" 12 ++ repeat "WHITE" 12 ++ repeat "BLUE" 12 ++
          repeat "YELLOW" 12 ++ repeat "ORANGE" 12 ++ repeat "BLACK" 12 ++
          repeat "RED" 12 ++ repeat "GREEN" 12 ++ repeat "WILD" 14)).

(** [for i, player in enumerate(self.players): player.turnOrder = i;
    player.trainCards = self.trainCarDeck.draw(4)], from index [i] on.  The
    state is the train car deck of the game and the heap. *)
Fixpoint dealHands (players : list nat) (i : Z)
  : Method (Deck string * list Agent.t) unit :=
  fun '(deck, heap) =>
    match players with
    | [] => (Returned tt, (deck, heap))
    | player :: rest =>
        let heap1 := alter (set_turnOrder i) player heap in
        match draw 4 deck with
        | (Raised e, deck') => (Raised e, (deck', heap1))
        | (Returned hand, deck') =>
            dealHands rest (i + 1)
                      (deck', alter (set_trainCards hand) player heap1)
        end
    end.

(** [Game.__init__(map, players, logs, draw)], in the order of its
    assignments: [initBoard] loads the routes, five cards are drawn face up,
    [getDestinationCards] loads the destinations, and only then the number of
    players is checked.  [self.board] is held as the list of edges that
    [self.board.edges(data=True)] yields. *)
Definition Game_init_with (map : string) (players : list nat)
    (logs drawGame : bool) : Method (list Agent.t) (Game.t nat) :=
  fun heap =>
    let n := Z.of_nat (length players) in
    match getRoutes map with
    | Raised e => (Raised e, heap)
    | Returned routes =>
    match draw 5 trainCarDeck with
    | (Raised e, _) => (Raised e, heap)
    | (Returned faceUp, deck1) =>
    match getDestinationCards map with
    | Raised e => (Raised e, heap)
    | Returned dests =>
        let '(destinationsDeck, destinationCards) :=
          Deck_init permuteDests dests in
        if (2 <=? n) && (n <=? 4) then
          match dealHands players 0 (deck1, heap) with
          | (Raised e, (_, heap')) => (Raised e, heap')
          | (Returned _, (deck2, heap')) =>
              match players with
              | [] => (Raised (IndexError "list index out of range"), heap')
              | first :: _ =>
                  (Returned
                     {| Game.map := map;
                        Game.doLogs := logs;
                        Game.drawGame := drawGame;
                        Game.gameOver := false;
                        Game.lastTurn := false;
                        Game.endedGame := None;
                        Game.colorPicked := None;
                        Game.turn := 1 - n;
                        Game.wildPicked := false;
                        Game.gameLogs := [];
                        Game.trainCarDeck := deck2;
                        Game.destinationDeal := None;
                        Game.movePerforming := Some AskForDeal;
                        Game.board := edgesView (initBoard routes n);
                        Game.faceUpCards := faceUp;
                        Game.destinationCards := destinationCards;
                        Game.destinationsDeck := destinationsDeck;
                        Game.players := players;
                        Game.makingNextMove := first |}, heap')
              end
          end
        else (Raised (SystemExit "ERROR: Game must have 2-4 players"), heap)
    end
    end
    end.

(** [Game.clone]: a new game is built from [self.map] and [self.players],
    then every attribute but [map], [doLogs] and [drawGame] is replaced by a
    deep copy of the attribute of [self]. *)
Definition clone_with (self : Game.t nat)
  : Method (list Agent.t) (Game.t nat) :=
  let* new := Game_init_with (Game.map self) (Game.players self) false false in
  let* players' := deepcopy_agents [] (Game.players self) in
  let* makingNextMove' := deepcopy_agent (Game.makingNextMove self) in
  ret {| Game.map := Game.map new;
         Game.doLogs := Game.doLogs new;
         Game.drawGame := Game.drawGame new;
         Game.gameOver := Game.gameOver self;
         Game.lastTurn := Game.lastTurn self;
         Game.endedGame := Game.endedGame self;
         Game.colorPicked := Game.colorPicked self;
         Game.turn := Game.turn self;
         Game.wildPicked := Game.wildPicked self;
         Game.gameLogs := Game.gameLogs self;
         Game.trainCarDeck := Game.trainCarDeck self;
         Game.destinationDeal := Game.destinationDeal self;
         Game.movePerforming := Game.movePerforming self;
         Game.board := Game.board self;
         Game.faceUpCards := Game.faceUpCards self;
         Game.destinationCards := Game.destinationCards self;
         Game.destinationsDeck := Game.destinationsDeck self;
         Game.players := players';
         Game.makingNextMove := makingNextMove' |}.

End GameObjects.

(** The constructor and [clone] for a map whose two files load: the loaders
    return what [getRoutes] and [getDestinationCards] give for the map. *)
Definition Game_init (permuteCards : list string -> list string)
    (permuteDests : list Destination.t -> list Destination.t)
    (getRoutes : string -> list Route.t)
    (getDestinationCards : string -> list Destination.t)
  : string -> list nat -> bool -> bool -> Method (list Agent.t) (Game.t nat) :=
  Game_init_with permuteCards permuteDests
                 (fun map => Returned (getRoutes map))
                 (fun map => Returned (getDestinationCards map)).

Definition clone (permuteCards : list string -> list string)
    (permuteDests : list Destination.t -> list Destination.t)
    (getRoutes : string -> list Route.t)
    (getDestinationCards : string -> list Destination.t)
  : Game.t nat -> Method (list Agent.t) (Game.t nat) :=
  clone_with permuteCards permuteDests
             (fun map => Returned (getRoutes map))
             (fun map => Returned (getDestinationCards map)).

(** Three routes of a map file: the graph yields the third before the second,
    from [Duluth]. *)
Definition sampleRoutes : list Route.t :=
  [ {| Route.city1 := "Duluth"; Route.city2 := "Omaha"; Route.weight := 2;
       Route.color := "GRAY"; Route.index := 0 |};
    {| Route.city1 := "Denver"; Route.city2 := "Helena"; Route.weight := 4;
       Route.color := "GREEN"; Route.index := 1 |};
    {| Route.city1 := "Helena"; Route.city2 := "Duluth"; Route.weight := 6;
       Route.color := "ORANGE"; Route.index := 2 |} ].

(** A game whose two players, at locations 0 and 1 of the heap, hold five and
    four cards. *)
Definition heapOfTwo : list Agent.t :=
  [agentWith 0 ["RED"; "RED"; "BLUE"; "GREEN"; "GREEN"];
   agentWith 1 ["PINK"; "WILD"; "BLACK"; "BLACK"]].

Definition gameOfTwo : Game.t nat :=
  {| Game.map := "USA"; Game.doLogs := false; Game.drawGame := false;
     Game.gameOver := false; Game.lastTurn := false; Game.endedGame := None;
     Game.colorPicked := None; Game.turn := 3; Game.wildPicked := false;
     Game.gameLogs := []; Game.trainCarDeck := {| cards := ["RED"; "BLUE"] |};
     Game.destinationDeal := None; Game.movePerforming := None;
     Game.board := []; Game.faceUpCards := ["WHITE"];
     Game.destinationCards := [];
     Game.destinationsDeck := {| cards := [] |};
     Game.players := [0%nat; 1%nat];
     Game.makingNextMove := 0%nat |}.

(** ** The constructor of [Action] *)

(** The attributes an [Action] object carries after [__init__]: [action]
    always, the others only when the constructor assigned them. *)
Module ActionObject.
Record t : Type :=
  { action : Z;
    route : option Route.t;
    colorsUsed : option (list string);
    colorToDraw : option string;
    askingForDeal : option bool;
    takeDests : option (list Z) }.
End ActionObject.

(** [Action.__init__(action, route, colorsUsed, colorToDraw, askingForDeal,
    takeDests)]; an argument left at its default is [None].  The arguments
    are typed, so the assertions on [type(...)] hold. *)
Definition Action_init (action : Z) (route : option Route.t)
    (colorsUsed : option (list string)) (colorToDraw : option string)
    (askingForDeal : option bool) (takeDests : option (list Z))
  : outcome ActionObject.t :=
  let bare :=
    {| ActionObject.action := action; ActionObject.route := None;
       ActionObject.colorsUsed := None; ActionObject.colorToDraw := None;
       ActionObject.askingForDeal := None; ActionObject.takeDests := None |} in
  if action =? 0 then
    match route with
    | None => Raised (AssertionError
                "Action object: route placement but route object not given")
    | Some r =>
        match colorsUsed with
        | None => Raised (AssertionError
                    "Action object: route placement but colors used not given")
        | Some cols =>
            if (0 <? length cols)%nat then
              Returned
                {| ActionObject.action := action;
                   ActionObject.route := Some r;
                   ActionObject.colorsUsed := Some cols;
                   ActionObject.colorToDraw := None;
                   ActionObject.askingForDeal := None;
                   ActionObject.takeDests := None |}
            else Raised (AssertionError
                   "Action object: route placement but colors used is empty")
        end
    end
  else if action =? 1 then
    match colorToDraw with
    | None => Raised (AssertionError
        "Action object: drawing from face up but which index from face up is not supplied")
    | Some c =>
        Returned
          {| ActionObject.action := action; ActionObject.route := None;
             ActionObject.colorsUsed := None;
             ActionObject.colorToDraw := Some c;
             ActionObject.askingForDeal := None;
             ActionObject.takeDests := None |}
    end
  else if action =? 3 then
    match askingForDeal with
    | None => Raised (AssertionError
        "Action object: destination deal understood but object does not know if deal was given or asked")
    | Some true =>
        Returned
          {| ActionObject.action := action; ActionObject.route := None;
             ActionObject.colorsUsed := None; ActionObject.colorToDraw := None;
             ActionObject.askingForDeal := Some true;
             ActionObject.takeDests := None |}
    | Some false =>
        match takeDests with
        | None => Raised (AssertionError
            "Action object: indicated that destinations have been dealt but no takeDest of indexes is supplied")
        | Some take =>
            Returned
              {| ActionObject.action := action; ActionObject.route := None;
                 ActionObject.colorsUsed := None;
                 ActionObject.colorToDraw := None;
                 ActionObject.askingForDeal := Some false;
                 ActionObject.takeDests := Some take |}
        end
    end
  else Returned bare.

(** The constructor calls that [validMoves] makes: [Action(0, routeType,
    colors)], [Action(1, colorToDraw=card)], [Action(2)],
    [Action(3, askingForDeal=True)] and
    [Action(3, askingForDeal=False, takeDests=take)]. *)
Definition construct (a : Action) : outcome ActionObject.t :=
  match a with
  | PlaceRoute route colorsUsed =>
      Action_init 0 (Some route) (Some colorsUsed) None None None
  | DrawFaceUp colorToDraw =>
      Action_init 1 None None (Some colorToDraw) None None
  | DrawFaceDown => Action_init 2 None None None None None
  | AskForDeal => Action_init 3 None None None (Some true) None
  | TakeDestinations takeDests =>
      Action_init 3 None None None (Some false) (Some takeDests)
  end.

(** ** A game with its players read from the heap *)

Definition derefGame (heap : list Agent.t) (g : Game.t nat)
  : Game.t Agent.t :=
  {| Game.map := Game.map g;
     Game.doLogs := Game.doLogs g;
     Game.drawGame := Game.drawGame g;
     Game.gameOver := Game.gameOver g;
     Game.lastTurn := Game.lastTurn g;
     Game.endedGame := Game.endedGame g;
     Game.colorPicked := Game.colorPicked g;
     Game.turn := Game.turn g;
     Game.wildPicked := Game.wildPicked g;
     Game.gameLogs := Game.gameLogs g;
     Game.trainCarDeck := Game.trainCarDeck g;
     Game.destinationDeal := Game.destinationDeal g;
     Game.movePerforming := Game.movePerforming g;
     Game.board := Game.board g;
     Game.faceUpCards := Game.faceUpCards g;
     Game.destinationCards := Game.destinationCards g;
     Game.destinationsDeck := Game.destinationsDeck g;
     Game.players := List.map (fun p => heap !!! p) (Game.players g);
     Game.makingNextMove := heap !!! Game.makingNextMove g |}.

(** ** The loaders *)

Section Loaders.

(** [re.search(pattern, line)]: [None], or the groups of the match;
    [s.strip()]; [int(s)] on a string of digits. *)
Variable re_search : string -> string -> option (nat -> string).
Variable strip : string -> string.
Variable int : string -> Z.

(** The loop of [getRoutes] over the lines left, [index] being the index of
    the next route.  A line the pattern does not match makes [data] [None],
    and [data.group] raises: the result is [None]. *)
Fixpoint getRoutes_loop (lines : list string) (index : Z)
  : option (list Route.t) :=
  match lines with
  | [] => Some []
  | path :: rest =>
      match re_search "(^\D+)(\d)\W+(\w+)\W+(.+)" path with
      | None => None
      | Some group =>
          match getRoutes_loop rest (index + 1) with
          | None => None
          | Some paths =>
              Some ({| Route.city1 := strip (group 1%nat);
                       Route.city2 := strip (group 4%nat);
                       Route.weight := int (strip (group 2%nat));
                       Route.color := strip (group 3%nat);
                       Route.index := index |} :: paths)
          end
      end
  end.

(** [getRoutes(map)], from the lines of the file of the map. *)
Definition getRoutes (lines : list string) : option (list Route.t) :=
  getRoutes_loop lines 0.

(** The loop of [getDestinationCards]. *)
Fixpoint getDestinationCards_loop (lines : list string) (index : Z)
  : option (list Destination.t) :=
  match lines with
  | [] => Some []
  | card :: rest =>
      match re_search "(^\D+)(\d+)\s(.+)" card with
      | None => None
      | Some group =>
          match getDestinationCards_loop rest (index + 1) with
          | None => None
          | Some cards =>
              Some ({| Destination.city1 := strip (group 1%nat);
                       Destination.city2 := strip (group 3%nat);
                       Destination.points := int (strip (group 2%nat));
                       Destination.index := index |} :: cards)
          end
      end
  end.

(** [getDestinationCards(map)], from the lines of the file of the map. *)
Definition getDestinationCards (lines : list string)
  : option (list Destination.t) :=
  getDestinationCards_loop lines 0.

End Loaders.

(** A stand-in for [re.search] in examples: every line but the empty one
    matches, and every group is the line. *)
Definition sampleSearch (pattern line : string) : option (nat -> string) :=
  if (line =? "")%string then None else Some (fun _ => line).

(** The game with logging switched on. *)
Definition withLogs (g : Game.t nat) : Game.t nat :=
  {| Game.map := Game.map g;
     Game.doLogs := true;
     Game.drawGame := true;
     Game.gameOver := Game.gameOver g;
     Game.lastTurn := Game.lastTurn g;
     Game.endedGame := Game.endedGame g;
     Game.colorPicked := Game.colorPicked g;
     Game.turn := Game.turn g;
     Game.wildPicked := Game.wildPicked g;
     Game.gameLogs := Game.gameLogs g;
     Game.trainCarDeck := Game.trainCarDeck g;
     Game.destinationDeal := Game.destinationDeal g;
     Game.movePerforming := Game.movePerforming g;
     Game.board := Game.board g;
     Game.faceUpCards := Game.faceUpCards g;
     Game.destinationCards := Game.destinationCards g;
     Game.destinationsDeck := Game.destinationsDeck g;
     Game.players := Game.players g;
     Game.makingNextMove := Game.makingNextMove g |}.

(** * Verification *)

(** ** Deck *)

Section DeckFacts.
Context {A : Type}.
Implicit Types (d : Deck A) (l cs : list A).

Lemma deck_eta d : {| cards := cards d |} = d.
Proof. destruct d; reflexivity. Qed.

Lemma count_nonneg d : 0 <= count d.
Proof. unfold count; lia. Qed.

Lemma insert_cards cs : forall d,
  insert cs d = (Returned tt, {| cards := rev cs ++ cards d |}).
Proof.
  induction cs as [|c cs IH]; intros d; simpl.
  - unfold ret. now rewrite deck_eta.
  - unfold bind, deque_appendleft. rewrite IH. simpl.
    now rewrite <- app_assoc.
Qed.

(** The loop of [draw] when enough cards are left: the cards come off the
    right end, the rightmost first. *)
Lemma draw_loop_enough (k : nat) : forall acc d,
  (k <= length (cards d))%nat ->
  draw_loop k acc d =
    (Returned (acc ++ firstn k (rev (cards d))),
     {| cards := rev (skipn k (rev (cards d))) |}).
Proof.
  induction k as [|k IH]; intros acc d Hk; simpl.
  - unfold ret. rewrite firstn_O, skipn_O, app_nil_r, rev_involutive.
    now rewrite deck_eta.
  - unfold bind, deque_pop.
    destruct (rev (cards d)) as [|x rest] eqn:E.
    + apply (f_equal (@length A)) in E. rewrite length_rev in E.
      simpl in E. lia.
    + assert (Hlen : length (cards d) = S (length rest)).
      { rewrite <- (length_rev (cards d)), E. reflexivity. }
      rewrite IH; simpl cards.
      * rewrite rev_involutive, firstn_cons, skipn_cons.
        now rewrite <- app_assoc.
      * rewrite length_rev. lia.
Qed.

(** The loop of [draw] when the deck runs out: [pop] raises, the cards
    popped so far are gone from the deck. *)
Lemma draw_loop_short (k : nat) : forall acc d,
  (length (cards d) < k)%nat ->
  exists msg, draw_loop k acc d = (Raised (IndexError msg), {| cards := [] |}).
Proof.
  induction k as [|k IH]; intros acc d Hk; simpl.
  - lia.
  - unfold bind, deque_pop.
    destruct (rev (cards d)) as [|x rest] eqn:E.
    + eexists. f_equal.
      apply (f_equal (@rev A)) in E. rewrite rev_involutive in E. simpl in E.
      destruct d; simpl in *; now subst.
    + apply IH. simpl. rewrite length_rev.
      apply (f_equal (@length A)) in E. rewrite length_rev in E.
      simpl in E. lia.
Qed.

Lemma draw_nonempty (n : Z) d :
  cards d <> [] -> draw n d = draw_loop (Z.to_nat n) [] d.
Proof.
  intros Hne. unfold draw, bind, assert.
  destruct (cards d) as [|x l] eqn:E; [congruence|].
  reflexivity.
Qed.

Lemma draw_empty (n : Z) d :
  cards d = [] ->
  draw n d = (Raised (AssertionError "Can't draw from an empty deck."), d).
Proof.
  intros E. unfold draw, bind, assert. rewrite E. reflexivity.
Qed.

End DeckFacts.

(** What [draw] does on a non-empty deck that holds at least [n] cards. *)
Lemma draw_enough {A} (n : Z) (d : Deck A) :
  0 <= n -> 0 < count d -> n <= count d ->
  draw n d =
    (Returned (firstn (Z.to_nat n) (rev (cards d))),
     {| cards := rev (skipn (Z.to_nat n) (rev (cards d))) |}).
Proof.
  unfold count. intros Hn Hpos Hle.
  rewrite draw_nonempty.
  - rewrite draw_loop_enough by lia. reflexivity.
  - intros E. rewrite E in Hpos. simpl in Hpos. lia.
Qed.

(** C5: for every deck and every list of cards, [insert] succeeds, [count]
    grows by exactly the length of the inserted list, the cards go to the left
    end of the deque (the end opposite to the one [draw] pops from) and, read
    in drawing order, the deck is the old deck followed by the inserted cards
    in the order they were given: drawing the whole deck returns the old
    cards first and then the inserted sequence, order preserved. *)
Theorem C5_insert_opposite_end_keeps_order {A} (d : Deck A) (cs : list A) :
  let d' := snd (insert cs d) in
  fst (insert cs d) = Returned tt /\
  count d' = count d + Z.of_nat (length cs) /\
  cards d' = rev cs ++ cards d /\
  (cards d' <> [] ->
   draw (count d') d' = (Returned (rev (cards d) ++ cs), {| cards := [] |})).
Proof.
  cbv zeta. rewrite insert_cards. cbn [fst snd].
  split; [reflexivity|]. split; [|split; [reflexivity|]].
  - unfold count. cbn [cards]. rewrite length_app, length_rev. lia.
  - intros Hne. cbn [cards] in Hne.
    assert (Hlen : (0 < length (rev cs ++ cards d))%nat).
    { destruct (rev cs ++ cards d); [congruence | simpl; lia]. }
    rewrite draw_enough; unfold count; cbn [cards]; try lia.
    rewrite Nat2Z.id, <- (length_rev (rev cs ++ cards d)).
    rewrite firstn_all, skipn_all, rev_app_distr, rev_involutive.
    reflexivity.
Qed.

Lemma C5_insert_witness :
  let d := {| cards := ["RED"; "BLUE"] |} in
  let d' := snd (insert ["PINK"; "WILD"] d) in
  cards d' <> [] /\
  draw (count d') d' =
    (Returned ["BLUE"; "RED"; "PINK"; "WILD"], {| cards := [] |}).
Proof.
  cbv zeta.
  destruct (C5_insert_opposite_end_keeps_order
              {| cards := ["RED"; "BLUE"] |} ["PINK"; "WILD"])
    as (_ & _ & _ & Hdraw).
  split; [discriminate|]. apply Hdraw. discriminate.
Defined.

(** The constructor does shuffle: it hands [deque] the list that
    [random.shuffle] permuted in place, not the value it returned. *)
Lemma Deck_init_permutation {A} (permute : list A -> list A) (items : list A) :
  Permutation (permute items) items ->
  Permutation (cards (fst (Deck_init permute items))) items /\
  count (fst (Deck_init permute items)) = Z.of_nat (length items).
Proof.
  intros Hperm. unfold Deck_init, random_shuffle, count. cbn [fst snd cards].
  split; [exact Hperm|]. now rewrite (Permutation_length Hperm).
Qed.

(** C6 (what the code does): [Deck.shuffle] never succeeds.  On an empty deck
    the assertion fails; on a non-empty deck [random.shuffle] returns [None],
    so the [deque] constructor raises a [TypeError], and the deck is left as
    it was. *)
Theorem C6_shuffle_always_raises {A} (permute : list A -> list A) (d : Deck A) :
  shuffle permute d =
    (Raised match cards d with
            | [] => AssertionError "Can't shuffle an empty deck"
            | _ :: _ => TypeError "'NoneType' object is not iterable"
            end, d).
Proof.
  unfold shuffle, bind, assert. destruct (cards d) as [|x l] eqn:E; reflexivity.
Qed.

(** C7 (amended): for every deck and every non-negative [n], [draw n] fails
    iff the deck is empty or holds fewer than [n] cards; on a non-empty deck
    with at least [n] cards it returns exactly [n] cards, popped from the
    right end of the deque (the rightmost card first), and leaves the other
    cards in place. *)
Theorem C7_draw_fails_iff_empty_or_short {A} (d : Deck A) (n : Z) :
  0 <= n ->
  (raises (draw n d) <-> count d = 0 \/ count d < n) /\
  (0 < count d -> n <= count d ->
   exists drawn d',
     draw n d = (Returned drawn, d') /\
     Z.of_nat (length drawn) = n /\
     cards d = cards d' ++ rev drawn /\
     count d' = count d - n).
Proof.
  intros Hn. split.
  - destruct (cards d) as [|x l] eqn:E.
    + rewrite draw_empty by exact E. unfold raises, count. rewrite E. simpl.
      split; [intros _; now left | intros _; eexists; reflexivity].
    + rewrite draw_nonempty by (rewrite E; discriminate).
      destruct (Nat.le_gt_cases (Z.to_nat n) (length (cards d))) as [Hle|Hgt].
      * rewrite draw_loop_enough by exact Hle. unfold raises, count. simpl.
        split.
        -- intros [e He]. discriminate.
        -- rewrite E in *. simpl in *. lia.
      * destruct (draw_loop_short (Z.to_nat n) [] d Hgt) as [msg Hs].
        rewrite Hs. unfold raises, count. simpl.
        split; [intros _; right; lia | intros _; eexists; reflexivity].
  - intros Hpos Hle. rewrite draw_enough by assumption.
    unfold count in *.
    assert (Hk : (Z.to_nat n <= length (rev (cards d)))%nat)
      by (rewrite length_rev; lia).
    do 2 eexists. split; [reflexivity|]. cbn [cards]. split; [|split].
    + rewrite length_firstn. lia.
    + rewrite <- rev_app_distr, firstn_skipn, rev_involutive. reflexivity.
    + rewrite length_rev, length_skipn, length_rev. lia.
Qed.

Lemma C7_draw_witness :
  let d := {| cards := ["RED"; "BLUE"; "WILD"] |} in
  0 <= 2 /\ 0 < count d /\ 2 <= count d /\
  (raises (draw 2 d) <-> count d = 0 \/ count d < 2) /\
  exists drawn d',
    draw 2 d = (Returned drawn, d') /\
    Z.of_nat (length drawn) = 2 /\
    cards d = cards d' ++ rev drawn /\
    count d' = count d - 2.
Proof.
  cbv zeta.
  destruct (C7_draw_fails_iff_empty_or_short
              {| cards := ["RED"; "BLUE"; "WILD"] |} 2) as [Hiff Hok];
    [lia|].
  split; [lia|]. split; [reflexivity|]. split; [discriminate|].
  split; [exact Hiff|]. apply Hok; [reflexivity | discriminate].
Defined.

(** C7 as stated fails on the empty deck with [n = 0]: no fewer than [0] cards
    remain, yet [draw 0] raises, because the method first asserts that the
    deck is not empty. *)
Lemma C7_counterexample :
  let d := {| cards := @nil string |} in
  draw 0 d = (Raised (AssertionError "Can't draw from an empty deck."), d) /\
  ~ (count d < 0) /\
  ~ (raises (draw 0 d) <-> count d < 0).
Proof.
  cbv zeta. split; [reflexivity|]. split; [unfold count; simpl; lia|].
  intros [Hfail _]. assert (H : count {| cards := @nil string |} < 0).
  { apply Hfail. eexists. reflexivity. }
  unfold count in H. simpl in H. lia.
Qed.

(** ** Legal-action enumeration *)

Ltac zcases :=
  repeat match goal with
         | |- context [Z.eqb ?a ?b] => destruct (Z.eqb_spec a b)
         | |- context [Z.ltb ?a ?b] => destruct (Z.ltb_spec a b)
         | |- context [Z.leb ?a ?b] => destruct (Z.leb_spec a b)
         end;
  simpl; try reflexivity; try lia.

Lemma list_count_nonneg cs color : 0 <= list_count cs color.
Proof. unfold list_count. lia. Qed.

(** The code for a coloured route computes the payments of the
    specification's three-way analysis. *)
Lemma colorPayments_spec hand numWilds routeType W color :
  colorPayments hand numWilds routeType W color =
  List.map (PlaceRoute routeType)
           (specPayments color W (list_count hand color) numWilds).
Proof. unfold colorPayments, specPayments. zcases. Qed.

(** For a GRAY route the loop body computes the same payments. *)
Lemma grayPayments_colorPayments hand numWilds routeType W color :
  grayPayments hand numWilds routeType W color =
  colorPayments hand numWilds routeType W color.
Proof. unfold grayPayments, colorPayments. zcases. Qed.

Lemma specPayments_nonempty color W numColor numWild :
  0 <= numColor -> 0 <= numWild ->
  (specPayments color W numColor numWild <> [] <->
   W <= numColor + numWild /\ 0 < numColor).
Proof.
  intros HC HW. unfold specPayments.
  zcases; split; intros Hgoal; try congruence; try lia; try discriminate.
Qed.

Lemma validMoves_fst_live self :
  Game.gameOver self = false -> fst (validMoves self) = actionListOf self.
Proof.
  intros H. unfold validMoves. rewrite H.
  destruct (length (actionListOf self) =? 0)%nat; reflexivity.
Qed.

Lemma validMoves_over self :
  Game.gameOver self = true -> validMoves self = ([], self).
Proof. intros H. unfold validMoves. now rewrite H. Qed.

(** Every action an edge contributes claims that edge's route. *)
Lemma routeActions_place hand numWilds route a :
  In a (routeActions hand numWilds route) ->
  exists cols, a = PlaceRoute (routeTypeOf route) cols.
Proof.
  unfold routeActions.
  destruct (owner_ne_empty (Edge.owner route)); [intros []|].
  destruct (negb (Edge.color route =? "GRAY")%string).
  - rewrite colorPayments_spec, in_map_iff. intros (cols & <- & _). eauto.
  - rewrite in_app_iff, in_flat_map. intros [(c & _ & Hin)|Hin].
    + rewrite grayPayments_colorPayments, colorPayments_spec, in_map_iff in Hin.
      destruct Hin as (cols & <- & _). eauto.
    + destruct (Edge.weight route <=? numWilds); [|destruct Hin].
      destruct Hin as [<-|[]]. eauto.
Qed.

(** An edge whose owner is [None] contributes no action. *)
Lemma routeActions_owner_None hand numWilds route :
  Edge.owner route = None -> routeActions hand numWilds route = [].
Proof. intros H. unfold routeActions. now rewrite H. Qed.

Lemma filter_claims_own hand numWilds route :
  List.filter (claimsRoute (Edge.index route)) (routeActions hand numWilds route)
  = routeActions hand numWilds route.
Proof.
  apply forallb_filter_id, forallb_forall. intros a Ha.
  apply routeActions_place in Ha as [cols ->]. simpl. apply Z.eqb_refl.
Qed.

Lemma filter_claims_other hand numWilds route idx :
  Edge.index route <> idx ->
  List.filter (claimsRoute idx) (routeActions hand numWilds route) = [].
Proof.
  intros Hne.
  assert (H : forallb (fun a => negb (claimsRoute idx a))
                      (routeActions hand numWilds route) = true).
  { apply forallb_forall. intros a Ha.
    apply routeActions_place in Ha as [cols ->]. simpl.
    destruct (Z.eqb_spec (Edge.index route) idx); [contradiction | reflexivity]. }
  induction (routeActions hand numWilds route) as [|a l IH]; [reflexivity|].
  simpl in *. apply andb_prop in H as [Ha Hl].
  destruct (claimsRoute idx a); [discriminate | auto].
Qed.

(** With pairwise distinct route indices, the claims of one route in the
    enumeration over the whole board are the actions that route's edge
    contributes. *)
Lemma filter_claims_board hand numWilds route : forall board,
  List.NoDup (List.map Edge.index board) -> In route board ->
  List.filter (claimsRoute (Edge.index route))
              (flat_map (routeActions hand numWilds) board)
  = routeActions hand numWilds route.
Proof.
  induction board as [|e board IH]; intros Hnd Hin; [destruct Hin|].
  simpl in Hnd. apply NoDup_cons_iff in Hnd as [Hnotin Hnd].
  simpl. rewrite List.filter_app.
  destruct Hin as [->|Hin].
  - rewrite filter_claims_own.
    assert (Hrest : List.filter (claimsRoute (Edge.index route))
                      (flat_map (routeActions hand numWilds) board) = []).
    { clear IH Hnd. induction board as [|e' board IH]; [reflexivity|].
      simpl. rewrite List.filter_app, filter_claims_other, IH.
      - reflexivity.
      - intros Hin. apply Hnotin. now right.
      - intros Heq. apply Hnotin. left. exact Heq. }
    rewrite Hrest. apply app_nil_r.
  - rewrite filter_claims_other, IH by
      (try assumption; intros Heq; apply Hnotin; rewrite Heq;
       now apply in_map).
    reflexivity.
Qed.

Lemma filter_claims_faceUp idx faceUp :
  List.filter (claimsRoute idx) (List.map DrawFaceUp faceUp) = [].
Proof. induction faceUp; simpl; auto. Qed.

Lemma specPayments_single color W numColor numWild x :
  In [x] (specPayments color W numColor numWild) -> x = color /\ W <= numColor.
Proof.
  unfold specPayments.
  destruct (Z.eqb_spec numColor 0); [intros []|].
  destruct (Z.ltb_spec numColor W).
  - destruct (Z.eqb_spec (numWild + numColor) W);
      [intros [E|[]]; discriminate|].
    destruct (Z.ltb_spec W (numWild + numColor)); [|intros []].
    destruct (numWild <? W); simpl; intuition discriminate.
  - destruct ((0 <? numWild) && (numWild <? W)); simpl;
      intros [E|E]; try (injection E as <-; split; [reflexivity | lia]);
      try destruct E as [E|[]]; try discriminate; destruct E.
Qed.

(** The claim that names the single colour "WILD" is offered for an unowned
    GRAY route iff the wild cards alone pay for it. *)
Lemma gray_route_wild_only_iff hand route :
  Edge.owner route = Some "" ->
  Edge.color route = "GRAY" ->
  (In (PlaceRoute (routeTypeOf route) ["WILD"])
      (routeActions hand (list_count hand "WILD") route) <->
   Edge.weight route <= list_count hand "WILD").
Proof.
  intros Hown Hcol. unfold routeActions. rewrite Hown, Hcol.
  simpl owner_ne_empty. simpl negb. cbv iota.
  rewrite in_app_iff, in_flat_map. split.
  - intros [(c & _ & Hin)|Hin].
    + rewrite grayPayments_colorPayments, colorPayments_spec, in_map_iff in Hin.
      destruct Hin as (cols & E & Hin). injection E as ->.
      apply specPayments_single in Hin as [<- Hle]. exact Hle.
    + destruct (Z.leb_spec (Edge.weight route) (list_count hand "WILD"));
        [assumption | destruct Hin].
  - intros Hle. right.
    destruct (Z.leb_spec (Edge.weight route) (list_count hand "WILD"));
      [now left | lia].
Qed.

(** C1 (what the code does): the loop over [color_indexing.keys()] also runs
    for the key "WILD".  A player who holds exactly four wild cards and faces
    one unowned GRAY route of length 3 is offered the pure-wildcard claim
    twice, once by the loop and once by the check after it.  A player who
    holds only two wild cards is offered, for the same route, two claims whose
    colours are all "WILD" although two cards do not pay for three. *)
Theorem C1_gray_route_wild_claim_emitted_twice :
  let route := edgeWith 3 "GRAY" (Some "") 7 in
  let wild := PlaceRoute (routeTypeOf route) ["WILD"] in
  let wildwild := PlaceRoute (routeTypeOf route) ["WILD"; "WILD"] in
  fst (validMoves (gameWith false None ["WILD"; "WILD"; "WILD"; "WILD"]
                            [route] [] [] []))
    = [wild; wild] /\
  fst (validMoves (gameWith false None ["WILD"; "WILD"] [route] [] [] []))
    = [wildwild; wildwild].
Proof. split; vm_compute; reflexivity. Qed.

(** With pairwise distinct route indices the claims come in the order of the
    analysis: in the FreeChoice phase of a game that is not over, the
    [PlaceRoute] actions returned for an unowned route that is not GRAY are
    the payments of [specPayments], one action each, in that order. *)
Lemma colored_route_claims_in_order (self : Game.t Agent.t) (route : Edge.t) :
  Game.gameOver self = false ->
  Game.movePerforming self = None ->
  List.NoDup (List.map Edge.index (Game.board self)) ->
  In route (Game.board self) ->
  Edge.owner route = Some "" ->
  Edge.color route <> "GRAY" ->
  let hand := Agent.trainCards (Game.makingNextMove self) in
  List.filter (claimsRoute (Edge.index route)) (fst (validMoves self)) =
  List.map (PlaceRoute (routeTypeOf route))
    (specPayments (Edge.color route) (Edge.weight route)
                  (list_count hand (Edge.color route))
                  (list_count hand "WILD")).
Proof.
  intros Hlive Hfree Hnd Hin Hown Hcol. cbv zeta.
  rewrite validMoves_fst_live by exact Hlive.
  unfold actionListOf. rewrite Hfree.
  rewrite !List.filter_app, filter_claims_board by assumption.
  rewrite filter_claims_faceUp.
  assert (Hdeck : forall (b : bool) a,
            claimsRoute (Edge.index route) a = false ->
            List.filter (claimsRoute (Edge.index route))
                        (if b then [a] else []) = []).
  { intros [] a Ha; simpl; [now rewrite Ha | reflexivity]. }
  rewrite !Hdeck by reflexivity. rewrite !app_nil_r.
  unfold routeActions. rewrite Hown. simpl owner_ne_empty. cbv iota.
  destruct (String.eqb_spec (Edge.color route) "GRAY") as [E|_];
    [contradiction|].
  simpl negb. cbv iota. apply colorPayments_spec.
Qed.

(** What an unowned edge of a colour other than GRAY contributes. *)
Lemma routeActions_colored hand numWilds route :
  Edge.owner route = Some "" ->
  Edge.color route <> "GRAY" ->
  routeActions hand numWilds route =
  List.map (PlaceRoute (routeTypeOf route))
    (specPayments (Edge.color route) (Edge.weight route)
                  (list_count hand (Edge.color route)) numWilds).
Proof.
  intros Hown Hcol. unfold routeActions. rewrite Hown. simpl owner_ne_empty.
  cbv iota.
  destruct (String.eqb_spec (Edge.color route) "GRAY") as [E|_];
    [contradiction|].
  simpl negb. cbv iota. apply colorPayments_spec.
Qed.

(** The [PlaceRoute] actions of the FreeChoice enumeration come from the
    edges of the board. *)
Lemma actionList_free_place self routeType cols :
  Game.movePerforming self = None ->
  (In (PlaceRoute routeType cols) (actionListOf self) <->
   exists e, In e (Game.board self) /\
     In (PlaceRoute routeType cols)
        (routeActions (Agent.trainCards (Game.makingNextMove self))
           (list_count (Agent.trainCards (Game.makingNextMove self)) "WILD")
           e)).
Proof.
  intros Hfree. unfold actionListOf. rewrite Hfree.
  rewrite !in_app_iff, in_flat_map. split; [|intros H; now left].
  intros [H|[H|[H|H]]]; [exact H | exfalso ..].
  - apply in_map_iff in H as (c & Hc & _). discriminate.
  - destruct (0 <? count (Game.trainCarDeck self));
      [destruct H as [H|[]]; discriminate | destruct H].
  - destruct (3 <=? count (Game.destinationsDeck self));
      [destruct H as [H|[]]; discriminate | destruct H].
Qed.

(** The analysis of a coloured route, for an edge whose owner is the empty
    string: in the FreeChoice phase of a game that is not over, for every
    such edge of the board whose colour [C] is not GRAY and whose length is
    [W], the payments of the [PlaceRoute] actions that [validMoves] returns
    for it are exactly the payments of the three-way analysis of the
    specification; so there is at least one such action iff the player's
    count of [C] plus the wild cards is at least [W] and the count of [C] is
    positive. *)
Theorem colored_route_payments (self : Game.t Agent.t) (route : Edge.t) :
  Game.gameOver self = false ->
  Game.movePerforming self = None ->
  In route (Game.board self) ->
  Edge.owner route = Some "" ->
  Edge.color route <> "GRAY" ->
  let hand := Agent.trainCards (Game.makingNextMove self) in
  let numColor := list_count hand (Edge.color route) in
  let numWild := list_count hand "WILD" in
  (forall colorsUsed,
     In (PlaceRoute (routeTypeOf route) colorsUsed) (fst (validMoves self)) <->
     In colorsUsed
        (specPayments (Edge.color route) (Edge.weight route)
                      numColor numWild)) /\
  ((exists colorsUsed,
      In (PlaceRoute (routeTypeOf route) colorsUsed) (fst (validMoves self)))
   <-> Edge.weight route <= numColor + numWild /\ 0 < numColor).
Proof.
  intros Hlive Hfree Hin Hown Hcol. cbv zeta.
  set (hand := Agent.trainCards (Game.makingNextMove self)).
  assert (Hmem : forall cols,
    In (PlaceRoute (routeTypeOf route) cols) (fst (validMoves self)) <->
    In cols (specPayments (Edge.color route) (Edge.weight route)
               (list_count hand (Edge.color route))
               (list_count hand "WILD"))).
  { intros cols. rewrite validMoves_fst_live by exact Hlive.
    rewrite actionList_free_place by exact Hfree. fold hand. split.
    - intros (e & He & Ha).
      assert (Hrt : routeTypeOf e = routeTypeOf route).
      { destruct (routeActions_place _ _ _ _ Ha) as [cols' E]. congruence. }
      assert (Hc : Edge.color e = Edge.color route)
        by exact (f_equal Route.color Hrt).
      assert (Hw : Edge.weight e = Edge.weight route)
        by exact (f_equal Route.weight Hrt).
      destruct (Edge.owner e) as [o|] eqn:Ho;
        [|rewrite routeActions_owner_None in Ha by exact Ho; destruct Ha].
      destruct (String.eqb_spec o "") as [->|Hne].
      + rewrite routeActions_colored in Ha by congruence.
        apply in_map_iff in Ha as (cols' & E & Hcols).
        rewrite Hc, Hw in Hcols. congruence.
      + unfold routeActions in Ha. rewrite Ho in Ha. simpl in Ha.
        destruct (String.eqb_spec o ""); [contradiction | destruct Ha].
    - intros Hcols. exists route. split; [exact Hin|].
      rewrite routeActions_colored by assumption. now apply in_map. }
  split; [exact Hmem|].
  rewrite <- (specPayments_nonempty (Edge.color route))
    by apply list_count_nonneg.
  split.
  - intros (cols & Hc) E. apply Hmem in Hc. rewrite E in Hc. destruct Hc.
  - intros Hne.
    destruct (specPayments (Edge.color route) (Edge.weight route)
                (list_count hand (Edge.color route))
                (list_count hand "WILD")) as [|cols l] eqn:E;
      [congruence|].
    exists cols. apply Hmem. now left.
Qed.

Lemma colored_route_payments_witness :
  let route := edgeWith 3 "BLUE" (Some "") 7 in
  let self := gameWith false None ["BLUE"; "WILD"; "BLUE"; "WILD"]
                       [edgeWith 2 "GRAY" None 6; route] ["RED"] ["RED"] [] in
  In (PlaceRoute (routeTypeOf route) ["WILD"; "BLUE"]) (fst (validMoves self))
  /\ ~ In (PlaceRoute (routeTypeOf route) ["BLUE"]) (fst (validMoves self)).
Proof.
  cbv zeta.
  destruct (colored_route_payments
              (gameWith false None ["BLUE"; "WILD"; "BLUE"; "WILD"]
                 [edgeWith 2 "GRAY" None 6; edgeWith 3 "BLUE" (Some "") 7]
                 ["RED"] ["RED"] [])
              (edgeWith 3 "BLUE" (Some "") 7)) as [Hmem _].
  - reflexivity.
  - reflexivity.
  - simpl. right. left. reflexivity.
  - reflexivity.
  - discriminate.
  - split.
    + apply Hmem. simpl. right. left. reflexivity.
    + intros Hin. apply Hmem in Hin. simpl in Hin.
      destruct Hin as [E|[E|[]]]; discriminate.
Defined.

(** Once the game is over no claim is returned: the player holds three RED
    cards, the RED route with owner [''] has length 3, the phase is
    FreeChoice, and [validMoves] returns no action at all. *)
Lemma colored_route_game_over :
  let route := edgeWith 3 "RED" (Some "") 7 in
  let self := gameWith true None ["RED"; "RED"; "RED"] [route] [] [] [] in
  let hand := Agent.trainCards (Game.makingNextMove self) in
  Game.movePerforming self = None /\
  Edge.weight route <= list_count hand "RED" + list_count hand "WILD" /\
  0 < list_count hand "RED" /\
  fst (validMoves self) = [].
Proof. cbv zeta. repeat split; vm_compute; congruence. Qed.

(** Every edge that [initBoard] adds has owner [None]. *)
Lemma initBoard_owner_None routes players :
  Forall (fun e => Edge.owner e = None) (initBoard routes players).
Proof.
  unfold initBoard. destruct (players =? 4).
  - apply List.Forall_forall. intros e He.
    apply in_map_iff in He as (r & <- & _). reflexivity.
  - assert (Hgen : forall board,
              Forall (fun e => Edge.owner e = None) board ->
              Forall (fun e => Edge.owner e = None)
                (fold_left
                   (fun board route =>
                      if has_edge board (Route.city1 route) (Route.city2 route)
                      then board else board ++ [edgeOfRoute route])
                   routes board)).
    { induction routes as [|r routes IH]; intros board Hb; simpl; [exact Hb|].
      apply IH. destruct (has_edge board (Route.city1 r) (Route.city2 r));
        [exact Hb|].
      apply List.Forall_app. split; [exact Hb|]. now constructor. }
    apply Hgen. constructor.
Qed.

(** C2 (where the code departs from it): on the board that [initBoard]
    builds, a route that nobody owns and that the player can pay for is not
    offered.  The map has one RED route of length 3; the game is not over and
    in the FreeChoice phase; the active player holds three RED cards and a
    wild card, so the count of RED plus the wild cards reaches the length and
    the count of RED is positive.  The edge of the board has owner [None],
    [validMoves] skips it at [owner != ''] and returns the two draws only.
    On the same state with the owner of the edge set to the empty string the
    two payments of the analysis are returned. *)
Theorem C2_affordable_route_of_built_board_not_offered :
  let road := {| Route.city1 := "Duluth"; Route.city2 := "Omaha";
                 Route.weight := 3; Route.color := "RED"; Route.index := 0 |} in
  let hand := ["RED"; "RED"; "RED"; "WILD"] in
  let built := edgesView (initBoard [road] 2) in
  let self := gameWith false None hand built ["BLUE"] ["PINK"] [] in
  let other := gameWith false None hand [edgeWith 3 "RED" (Some "") 0]
                        ["BLUE"] ["PINK"] [] in
  built = [edgeOfRoute road] /\
  Edge.owner (edgeOfRoute road) = None /\
  Game.gameOver self = false /\
  Game.movePerforming self = None /\
  Route.weight road <= list_count hand "RED" + list_count hand "WILD" /\
  0 < list_count hand "RED" /\
  fst (validMoves self) = [DrawFaceUp "BLUE"; DrawFaceDown] /\
  fst (validMoves other) =
    [PlaceRoute road ["RED"]; PlaceRoute road ["WILD"; "RED"];
     DrawFaceUp "BLUE"; DrawFaceDown].
Proof.
  cbv zeta. repeat split; try reflexivity; vm_compute; congruence.
Qed.

(** C4: on the board that [Game.__init__] builds with [initBoard] (every
    owner is [None]), whatever order the graph yields the edges in and
    whatever cards the active player holds, [validMoves] in the FreeChoice
    phase returns no [PlaceRoute] action: the test [owner != ''] skips every
    edge. *)
Theorem C4_init_board_offers_no_claim (routes : list Route.t)
    (self : Game.t Agent.t) :
  Permutation (Game.board self)
              (initBoard routes (Z.of_nat (length (Game.players self)))) ->
  Game.movePerforming self = None ->
  forall route colorsUsed,
    ~ In (PlaceRoute route colorsUsed) (fst (validMoves self)).
Proof.
  intros Hperm Hfree route cols Hin.
  destruct (Game.gameOver self) eqn:Hover.
  - rewrite validMoves_over in Hin by exact Hover. destruct Hin.
  - rewrite validMoves_fst_live in Hin by exact Hover.
    unfold actionListOf in Hin. rewrite Hfree in Hin.
    rewrite !in_app_iff in Hin. destruct Hin as [Hin|[Hin|[Hin|Hin]]].
    + apply in_flat_map in Hin as (e & He & Hin).
      rewrite routeActions_owner_None in Hin; [destruct Hin|].
      eapply Permutation_in in He; [|exact Hperm].
      pose proof (initBoard_owner_None routes
                    (Z.of_nat (length (Game.players self)))) as Hall.
      rewrite List.Forall_forall in Hall. now apply Hall.
    + apply in_map_iff in Hin as (c & Hc & _). discriminate.
    + destruct (0 <? count (Game.trainCarDeck self));
        [destruct Hin as [Hin|[]]; discriminate | destruct Hin].
    + destruct (3 <=? count (Game.destinationsDeck self));
        [destruct Hin as [Hin|[]]; discriminate | destruct Hin].
Qed.

Lemma C4_init_board_witness :
  let routes :=
    [ {| Route.city1 := "Duluth"; Route.city2 := "Omaha"; Route.weight := 2;
         Route.color := "GRAY"; Route.index := 0 |};
      {| Route.city1 := "Omaha"; Route.city2 := "Duluth"; Route.weight := 2;
         Route.color := "GRAY"; Route.index := 1 |};
      {| Route.city1 := "Omaha"; Route.city2 := "Denver"; Route.weight := 4;
         Route.color := "PINK"; Route.index := 2 |} ] in
  let hand := ["PINK"; "PINK"; "PINK"; "PINK"; "WILD"; "WILD"] in
  let self := gameWith false None hand (initBoard routes 2) ["RED"] ["RED"] [] in
  Game.board self =
    [edgeOfRoute {| Route.city1 := "Duluth"; Route.city2 := "Omaha";
                    Route.weight := 2; Route.color := "GRAY";
                    Route.index := 0 |};
     edgeOfRoute {| Route.city1 := "Omaha"; Route.city2 := "Denver";
                    Route.weight := 4; Route.color := "PINK";
                    Route.index := 2 |}] /\
  ~ In (PlaceRoute {| Route.city1 := "Omaha"; Route.city2 := "Denver";
                      Route.weight := 4; Route.color := "PINK";
                      Route.index := 2 |} ["PINK"])
       (fst (validMoves self)).
Proof.
  cbv zeta. split; [reflexivity|].
  apply (C4_init_board_offers_no_claim
           [ {| Route.city1 := "Duluth"; Route.city2 := "Omaha";
                Route.weight := 2; Route.color := "GRAY"; Route.index := 0 |};
             {| Route.city1 := "Omaha"; Route.city2 := "Duluth";
                Route.weight := 2; Route.color := "GRAY"; Route.index := 1 |};
             {| Route.city1 := "Omaha"; Route.city2 := "Denver";
                Route.weight := 4; Route.color := "PINK"; Route.index := 2 |} ]).
  - apply Permutation_refl.
  - reflexivity.
Defined.

Lemma actionList_phase self move :
  Game.movePerforming self = Some move ->
  actionListOf self =
    if action move =? 1 then
      flat_map (fun card => if (card =? "WILD")%string then []
                            else [DrawFaceUp card]) (Game.faceUpCards self) ++
      (if 1 <=? count (Game.trainCarDeck self) then [DrawFaceDown] else [])
    else if action move =? 2 then
      List.map DrawFaceUp (Game.faceUpCards self) ++
      (if 1 <=? count (Game.trainCarDeck self) then [DrawFaceDown] else [])
    else if action move =? 3 then List.map TakeDestinations listDestTakes
    else [].
Proof. intros H. unfold actionListOf. now rewrite H. Qed.

Lemma nonwild_draws_nonempty faceUp :
  flat_map (fun card => if (card =? "WILD")%string then []
                        else [DrawFaceUp card]) faceUp <> [] <->
  exists card, In card faceUp /\ card <> "WILD".
Proof.
  induction faceUp as [|c faceUp IH]; simpl.
  - split; [congruence | intros (c & [] & _)].
  - destruct (String.eqb_spec c "WILD") as [->|Hne]; simpl.
    + rewrite IH. split.
      * intros (c & Hin & Hc). eauto.
      * intros (c & [<-|Hin] & Hc); [congruence | eauto].
    + split; [intros _; eauto | discriminate].
Qed.

(** C8 (amended): in a game that is not over, [validMoves] returns at least
    one action in the AwaitingDestinationDecision phase always; in the
    ContinuingVisibleDraw phase iff the face-up window holds a card that is
    not a wild card or the hidden deck is not empty; in the
    ContinuingHiddenDraw phase iff the face-up window or the hidden deck is
    not empty. *)
Theorem C8_other_phases_nonempty_iff (self : Game.t Agent.t) (move : Action) :
  Game.gameOver self = false ->
  Game.movePerforming self = Some move ->
  (action move = 3 -> fst (validMoves self) <> []) /\
  (action move = 1 ->
   (fst (validMoves self) <> [] <->
    (exists card, In card (Game.faceUpCards self) /\ card <> "WILD") \/
    1 <= count (Game.trainCarDeck self))) /\
  (action move = 2 ->
   (fst (validMoves self) <> [] <->
    Game.faceUpCards self <> [] \/ 1 <= count (Game.trainCarDeck self))).
Proof.
  intros Hlive Hmove.
  rewrite validMoves_fst_live by exact Hlive.
  rewrite (actionList_phase self move Hmove).
  split; [|split]; intros ->; simpl.
  - discriminate.
  - rewrite <- nonwild_draws_nonempty.
    destruct (Z.leb_spec 1 (count (Game.trainCarDeck self))).
    + split; [intros _; now right |].
      intros _ E. apply app_eq_nil in E as [_ E]. discriminate.
    + rewrite app_nil_r. split; [intros H'; now left | intros [H'|H']];
        [exact H' | lia].
  - destruct (Z.leb_spec 1 (count (Game.trainCarDeck self))).
    + split; [intros _; now right |].
      intros _ E. apply app_eq_nil in E as [_ E]. discriminate.
    + rewrite app_nil_r. split.
      * intros H' . left. intros E. apply H'. now rewrite E.
      * intros [H'|H'] E; [|lia]. apply H'. now apply map_eq_nil in E.
Qed.

Lemma C8_other_phases_witness :
  let self := gameWith false (Some DrawFaceDown) []
                       [] ["WILD"; "BLUE"] [] [] in
  Game.gameOver self = false /\
  Game.movePerforming self = Some DrawFaceDown /\
  action DrawFaceDown = 2 /\
  fst (validMoves self) <> [].
Proof.
  cbv zeta.
  destruct (C8_other_phases_nonempty_iff
              (gameWith false (Some DrawFaceDown) [] [] ["WILD"; "BLUE"] [] [])
              DrawFaceDown eq_refl eq_refl) as (_ & _ & Hhidden).
  split; [reflexivity|]. split; [reflexivity|]. split; [reflexivity|].
  apply (Hhidden eq_refl). left. discriminate.
Defined.

(** C8 as stated fails in the ContinuingVisibleDraw phase of a game that is
    not over: the only face-up card is a wild card, the hidden deck is empty,
    and [validMoves] returns no action.  It also fails in every phase once
    the game is over, here in the AwaitingDestinationDecision phase. *)
Lemma C8_counterexample :
  let stuck := gameWith false (Some (DrawFaceUp "RED")) ["RED"]
                        [] ["WILD"] [] [] in
  let over := gameWith true (Some AskForDeal) ["RED"]
                       [] ["RED"] ["BLUE"] [] in
  (Game.gameOver stuck = false /\
   Game.movePerforming stuck = Some (DrawFaceUp "RED") /\
   fst (validMoves stuck) = []) /\
  (Game.movePerforming over = Some AskForDeal /\
   fst (validMoves over) = []).
Proof. cbv zeta. repeat split. Qed.

(** C9 (amended): whenever the phase is AwaitingDestinationDecision and the
    game is not over, [validMoves] returns exactly the seven
    [TakeDestinations] actions for the non-empty subsets of {0,1,2}, in the
    order of [listDestTakes], whatever the rest of the state is, and leaves
    the state as it was. *)
Theorem C9_destination_decision_seven (self : Game.t Agent.t) (move : Action) :
  Game.gameOver self = false ->
  Game.movePerforming self = Some move ->
  action move = 3 ->
  validMoves self =
    ([TakeDestinations [0]; TakeDestinations [1]; TakeDestinations [2];
      TakeDestinations [0; 1]; TakeDestinations [0; 2];
      TakeDestinations [1; 2]; TakeDestinations [0; 1; 2]], self) /\
  length (fst (validMoves self)) = 7%nat.
Proof.
  intros Hlive Hmove Hact.
  assert (E : validMoves self =
    ([TakeDestinations [0]; TakeDestinations [1]; TakeDestinations [2];
      TakeDestinations [0; 1]; TakeDestinations [0; 2];
      TakeDestinations [1; 2]; TakeDestinations [0; 1; 2]], self)).
  { unfold validMoves. rewrite Hlive, (actionList_phase self move Hmove), Hact.
    reflexivity. }
  rewrite E. split; reflexivity.
Qed.

Lemma C9_destination_decision_witness :
  let self := gameWith false (Some AskForDeal) ["RED"] [] [] [] [] in
  length (fst (validMoves self)) = 7%nat.
Proof.
  cbv zeta.
  exact (proj2 (C9_destination_decision_seven
                  (gameWith false (Some AskForDeal) ["RED"] [] [] [] [])
                  AskForDeal eq_refl eq_refl eq_refl)).
Defined.

(** C9 as stated fails once the game is over: the phase is
    AwaitingDestinationDecision and [validMoves] returns no action. *)
Lemma C9_counterexample :
  let self := gameWith true (Some (TakeDestinations [0])) ["RED"]
                       [] ["RED"] ["RED"] [] in
  Game.movePerforming self = Some (TakeDestinations [0]) /\
  action (TakeDestinations [0]) = 3 /\
  fst (validMoves self) = [] /\
  length (fst (validMoves self)) <> 7%nat.
Proof. cbv zeta. repeat split. discriminate. Qed.

(** C10: whenever [validMoves] returns the empty list, [gameOver] is true in
    the state it leaves; and when the game was not over before the call, the
    state records the turn order of the player to move as [endedGame]. *)
Theorem C10_empty_enumeration_ends_game (self : Game.t Agent.t) :
  fst (validMoves self) = [] ->
  Game.gameOver (snd (validMoves self)) = true /\
  (Game.gameOver self = false ->
   Game.endedGame (snd (validMoves self)) =
     Agent.turnOrder (Game.makingNextMove self)).
Proof.
  unfold validMoves. destruct (Game.gameOver self) eqn:Hover; simpl.
  - intros _. split; [exact Hover | discriminate].
  - destruct (actionListOf self) as [|a l]; simpl.
    + intros _. split; reflexivity.
    + discriminate.
Qed.

Lemma C10_empty_enumeration_witness :
  let self := gameWith false None ["RED"; "WILD"]
                       [edgeWith 3 "RED" (Some "") 7] [] [] [] in
  fst (validMoves self) = [] /\
  Game.gameOver self = false /\
  Game.gameOver (snd (validMoves self)) = true /\
  Game.endedGame (snd (validMoves self)) = Some 0.
Proof.
  cbv zeta.
  destruct (C10_empty_enumeration_ends_game
              (gameWith false None ["RED"; "WILD"]
                        [edgeWith 3 "RED" (Some "") 7] [] [] [])
              eq_refl) as [Hover Hended].
  split; [reflexivity|]. split; [reflexivity|].
  split; [exact Hover | exact (Hended eq_refl)].
Defined.

(** ** Cloning a game *)

Lemma draw_counts {A} (n : Z) (d : Deck A) :
  0 < n -> n <= count d ->
  exists drawn d',
    draw n d = (Returned drawn, d') /\
    Z.of_nat (length drawn) = n /\ count d' = count d - n.
Proof.
  intros Hn Hle. rewrite draw_enough by lia. do 2 eexists.
  split; [reflexivity|]. unfold count in *. cbn [cards].
  rewrite length_firstn, !length_rev, length_skipn, ?length_rev. lia.
Qed.

(** Dealing the hands succeeds when the deck holds four cards per player;
    afterwards every player of the list holds exactly four cards, and so does
    every agent that held four before. *)
Lemma dealHands_ok (players : list nat) : forall i deck heap,
  4 * Z.of_nat (length players) <= count deck ->
  exists deck' heap',
    dealHands players i (deck, heap) = (Returned tt, (deck', heap')) /\
    length heap' = length heap /\
    forall p, (p < length heap)%nat ->
      In p players \/ length (Agent.trainCards (heap !!! p)) = 4%nat ->
      length (Agent.trainCards (heap' !!! p)) = 4%nat.
Proof.
  induction players as [|player rest IH]; intros i deck heap Hdeck.
  - exists deck, heap. split; [reflexivity|]. split; [reflexivity|].
    intros p _ [[]|H]. exact H.
  - cbn [length] in Hdeck.
    destruct (draw_counts 4 deck) as (hand & deck' & Hdraw & Hhand & Hcount);
      [lia | lia |].
    cbn [dealHands]. rewrite Hdraw.
    destruct (IH (i + 1) deck'
                 (alter (set_trainCards hand) player
                        (alter (set_turnOrder i) player heap)))
      as (deck'' & heap' & Hdeal & Hlen & Hhands); [lia|].
    exists deck'', heap'. split; [exact Hdeal|].
    rewrite !length_alter in Hlen, Hhands. split; [exact Hlen|].
    intros p Hp Hin. apply Hhands; [exact Hp|].
    destruct (Nat.eq_dec player p) as [->|Hne].
    + right. rewrite list_lookup_total_alter_eq by (rewrite length_alter; lia).
      simpl. lia.
    + destruct Hin as [[Heq|Hin]|Hfour]; [contradiction | now left |].
      right. now rewrite !list_lookup_total_alter_ne by exact Hne.
Qed.

(** Copying agents only adds objects at the end of the heap. *)
Lemma deepcopy_agent_ext p heap :
  exists p' ext, deepcopy_agent p heap = (Returned p', heap ++ ext).
Proof. unfold deepcopy_agent, bind, read, alloc. eauto. Qed.

Lemma deepcopy_agents_ext ps : forall memo heap,
  exists ps' ext, deepcopy_agents memo ps heap = (Returned ps', heap ++ ext).
Proof.
  induction ps as [|p rest IH]; intros memo heap; cbn [deepcopy_agents].
  - exists [], []. unfold ret. now rewrite app_nil_r.
  - destruct (find (fun m => Nat.eqb (fst m) p) memo) as [m|].
    + destruct (IH memo heap) as (ps' & ext & E).
      unfold bind. rewrite E. unfold ret. eauto.
    + destruct (deepcopy_agent_ext p heap) as (p' & ext1 & E1).
      unfold bind at 1. rewrite E1.
      destruct (IH ((p, p') :: memo) (heap ++ ext1)) as (ps' & ext & E).
      unfold bind. rewrite E. unfold ret. rewrite <- app_assoc. eauto.
Qed.

Section CloneFacts.
Variable permuteCards : list string -> list string.
Variable permuteDests : list Destination.t -> list Destination.t.
Variable getRoutes : string -> list Route.t.
Variable getDestinationCards : string -> list Destination.t.
Hypothesis permuteCards_perm : forall l, Permutation (permuteCards l) l.

Lemma trainCarDeck_count : count (trainCarDeck permuteCards) = 110.
Proof using permuteCards_perm.
  unfold trainCarDeck, Deck_init, random_shuffle, count. cbn [fst snd cards].
  rewrite (Permutation_length (permuteCards_perm _)). reflexivity.
Qed.

(** The constructor, given two to four players, succeeds, keeps the size of
    the heap and leaves every player it was given with a hand of four
    cards. *)
Lemma Game_init_deals map players logs drawGame heap :
  2 <= Z.of_nat (length players) <= 4 ->
  exists new heap',
    Game_init permuteCards permuteDests getRoutes getDestinationCards
              map players logs drawGame heap = (Returned new, heap') /\
    length heap' = length heap /\
    forall p, (p < length heap)%nat -> In p players ->
      length (Agent.trainCards (heap' !!! p)) = 4%nat.
Proof using permuteCards_perm.
  intros Hn. unfold Game_init, Game_init_with. cbv beta iota.
  destruct (draw_counts 5 (trainCarDeck permuteCards))
    as (faceUp & deck1 & Hdraw & _ & Hcount);
    [lia | rewrite trainCarDeck_count; lia |].
  rewrite trainCarDeck_count in Hcount. rewrite Hdraw. cbv beta iota.
  destruct (Deck_init permuteDests (getDestinationCards map))
    as [destinationsDeck destinationCards].
  replace ((2 <=? Z.of_nat (length players)) &&
           (Z.of_nat (length players) <=? 4)) with true
    by (symmetry; apply andb_true_intro; split; apply Z.leb_le; lia).
  destruct (dealHands_ok players 0 deck1 heap)
    as (deck2 & heap' & Hdeal & Hlen & Hhands); [lia|].
  rewrite Hdeal.
  destruct players as [|first rest]; [simpl in Hn; lia|].
  do 2 eexists. split; [reflexivity|]. split; [exact Hlen|].
  intros p Hp Hin. apply Hhands; [exact Hp | now left].
Qed.

(** C3 (what the code does): [clone] does not leave the game it copies
    alone.  On a game with two to four players it succeeds, and afterwards
    every player of that game, the object the game itself refers to, holds
    exactly four cards: the constructor called inside [clone] dealt a new
    hand to each of them.  A player who held another number of cards has lost
    the hand. *)
Theorem C3_clone_deals_new_hands_to_original (self : Game.t nat)
    (heap : list Agent.t) :
  2 <= Z.of_nat (length (Game.players self)) <= 4 ->
  Forall (fun p => (p < length heap)%nat) (Game.players self) ->
  exists new heap',
    clone permuteCards permuteDests getRoutes getDestinationCards self heap
      = (Returned new, heap') /\
    (forall p, In p (Game.players self) ->
       length (Agent.trainCards (heap' !!! p)) = 4%nat) /\
    (forall p, In p (Game.players self) ->
       length (Agent.trainCards (heap !!! p)) <> 4%nat ->
       Agent.trainCards (heap' !!! p) <> Agent.trainCards (heap !!! p)).
Proof using permuteCards_perm.
  intros Hn Hvalid. unfold clone, clone_with.
  destruct (Game_init_deals (Game.map self) (Game.players self) false false
                            heap Hn)
    as (new & heap1 & Hinit & Hlen & Hhands).
  unfold Game_init in Hinit. unfold bind at 1. rewrite Hinit.
  destruct (deepcopy_agents_ext (Game.players self) [] heap1)
    as (players' & ext1 & Hcopy).
  unfold bind at 1. rewrite Hcopy.
  destruct (deepcopy_agent_ext (Game.makingNextMove self) (heap1 ++ ext1))
    as (next' & ext2 & Hnext).
  unfold bind. rewrite Hnext. unfold ret.
  do 2 eexists. split; [reflexivity|].
  assert (Hfour : forall p, In p (Game.players self) ->
            length (Agent.trainCards (((heap1 ++ ext1) ++ ext2) !!! p))
            = 4%nat).
  { intros p Hin.
    assert (Hp : (p < length heap)%nat).
    { rewrite List.Forall_forall in Hvalid. now apply Hvalid. }
    rewrite <- app_assoc, lookup_total_app_l by lia.
    now apply Hhands. }
  split; [exact Hfour|].
  intros p Hin Hlen' E. apply Hlen'. rewrite <- E. now apply Hfour.
Qed.

End CloneFacts.

Lemma C3_clone_witness :
  let permute := fun l : list string => l in
  exists new heap',
    clone permute (fun l => l) (fun _ => []) (fun _ => []) gameOfTwo heapOfTwo
      = (Returned new, heap') /\
    Agent.trainCards (heapOfTwo !!! 0%nat)
      = ["RED"; "RED"; "BLUE"; "GREEN"; "GREEN"] /\
    length (Agent.trainCards (heap' !!! 0%nat)) = 4%nat /\
    Agent.trainCards (heap' !!! 0%nat) <> Agent.trainCards (heapOfTwo !!! 0%nat).
Proof.
  cbv zeta.
  destruct (C3_clone_deals_new_hands_to_original
              (fun l => l) (fun l => l) (fun _ => []) (fun _ => [])
              (fun l => Permutation_refl l) gameOfTwo heapOfTwo)
    as (new & heap' & Hclone & Hfour & Hlost).
  - simpl. lia.
  - repeat constructor.
  - exists new, heap'. split; [exact Hclone|]. split; [reflexivity|].
    split.
    + apply Hfour. left. reflexivity.
    + apply Hlost; [left; reflexivity | discriminate].
Defined.

(** * Further properties of the code *)

(** ** Deck: edge behaviour, composition and round trips *)

(** [draw] with a count of zero or less is no error on a deck that holds
    cards: [range] of such a number is empty, so the method returns the empty
    list and leaves the deck as it was.  On an empty deck the assertion
    fails all the same. *)
Theorem draw_nonpositive_count {A} (d : Deck A) (n : Z) :
  n <= 0 ->
  draw n d =
    match cards d with
    | [] => (Raised (AssertionError "Can't draw from an empty deck."), d)
    | _ :: _ => (Returned [], d)
    end.
Proof.
  intros Hn. destruct (cards d) as [|x l] eqn:E.
  - now apply draw_empty.
  - rewrite draw_nonempty by (rewrite E; discriminate).
    replace (Z.to_nat n) with 0%nat by lia. reflexivity.
Qed.

Lemma draw_nonpositive_count_witness :
  let d := {| cards := ["RED"; "BLUE"] |} in
  -3 <= 0 /\ draw (-3) d = (Returned [], d).
Proof.
  cbv zeta. split; [lia|].
  exact (draw_nonpositive_count {| cards := ["RED"; "BLUE"] |} (-3)
           ltac:(lia)).
Defined.

(** A [draw] that fails half way is not undone: on a deck that holds cards
    but fewer than [n], [pop] raises [IndexError] once the deck has run out,
    the cards popped until then are lost with the local list, and the deck
    is left empty. *)
Theorem draw_short_empties_deck {A} (d : Deck A) (n : Z) :
  cards d <> [] -> count d < n ->
  exists msg, draw n d = (Raised (IndexError msg), {| cards := [] |}).
Proof.
  intros Hne Hlt. rewrite draw_nonempty by exact Hne.
  apply draw_loop_short. unfold count in Hlt. lia.
Qed.

Lemma draw_short_empties_deck_witness :
  let d := {| cards := ["RED"; "BLUE"] |} in
  cards d <> [] /\ count d < 3 /\
  exists msg, draw 3 d = (Raised (IndexError msg), {| cards := [] |}).
Proof.
  cbv zeta. split; [discriminate|]. split; [reflexivity|].
  apply (draw_short_empties_deck {| cards := ["RED"; "BLUE"] |} 3);
    [discriminate | reflexivity].
Defined.

(** Two draws in a row give what one draw of the sum gives: for counts [n]
    and [m] that are not negative, when the first draw leaves at least one
    card and the deck holds [n + m] cards, drawing [n] and then [m] returns
    lists whose concatenation is what drawing [n + m] returns, and leaves the
    same deck. *)
Theorem draw_then_draw {A} (d : Deck A) (n m : Z) :
  0 <= n -> 0 <= m -> n < count d -> n + m <= count d ->
  exists first second d1 d2,
    draw n d = (Returned first, d1) /\
    draw m d1 = (Returned second, d2) /\
    draw (n + m) d = (Returned (first ++ second), d2).
Proof.
  intros Hn Hm Hlt Hle.
  assert (Hc1 : count {| cards := rev (skipn (Z.to_nat n) (rev (cards d))) |}
                = count d - n).
  { unfold count in *. cbn [cards].
    rewrite length_rev, length_skipn, length_rev. lia. }
  do 4 eexists. split; [apply draw_enough; lia|].
  split; [apply draw_enough; lia|].
  rewrite draw_enough by lia. cbn [cards].
  rewrite rev_involutive, Z2Nat.inj_add by lia.
  rewrite take_take_drop, drop_drop. reflexivity.
Qed.

Lemma draw_then_draw_witness :
  let d := {| cards := ["RED"; "BLUE"; "PINK"; "WILD"] |} in
  exists first second d1 d2,
    draw 1 d = (Returned first, d1) /\
    draw 2 d1 = (Returned second, d2) /\
    draw (1 + 2) d = (Returned (first ++ second), d2).
Proof.
  cbv zeta.
  apply (draw_then_draw {| cards := ["RED"; "BLUE"; "PINK"; "WILD"] |} 1 2);
    unfold count; simpl; lia.
Defined.

(** Drawing cards and putting the drawn list back keeps the deck whole:
    [count] is what it was, no card is lost or doubled, and the drawn cards
    have moved from the right end to the left end of the deque. *)
Theorem draw_then_insert_conserves {A} (d : Deck A) (n : Z) :
  0 <= n -> 0 < count d -> n <= count d ->
  exists drawn d1 d2,
    draw n d = (Returned drawn, d1) /\
    insert drawn d1 = (Returned tt, d2) /\
    count d2 = count d /\
    Permutation (cards d2) (cards d) /\
    cards d = cards d1 ++ rev drawn /\
    cards d2 = rev drawn ++ cards d1.
Proof.
  intros Hn Hpos Hle.
  do 3 eexists. split; [apply draw_enough; assumption|].
  split; [apply insert_cards|]. cbn [cards].
  assert (Hd : cards d = rev (skipn (Z.to_nat n) (rev (cards d))) ++
                         rev (firstn (Z.to_nat n) (rev (cards d)))).
  { rewrite <- rev_app_distr, firstn_skipn, rev_involutive. reflexivity. }
  split; [|split; [|split; [exact Hd | reflexivity]]].
  - unfold count. cbn [cards]. rewrite Hd at 3.
    rewrite !length_app. lia.
  - rewrite Hd at 3. apply Permutation_app_comm.
Qed.

Lemma draw_then_insert_witness :
  let d := {| cards := ["RED"; "BLUE"; "PINK"] |} in
  exists drawn d1 d2,
    draw 2 d = (Returned drawn, d1) /\
    insert drawn d1 = (Returned tt, d2) /\
    count d2 = count d /\
    Permutation (cards d2) (cards d) /\
    cards d = cards d1 ++ rev drawn /\
    cards d2 = rev drawn ++ cards d1.
Proof.
  cbv zeta.
  apply (draw_then_insert_conserves {| cards := ["RED"; "BLUE"; "PINK"] |} 2);
    unfold count; simpl; lia.
Defined.

(** Inserting a list in two parts is inserting the list: [insert] of
    [cs1 ++ cs2] does what [insert cs1] followed by [insert cs2] does. *)
Theorem insert_app {A} (cs1 cs2 : list A) (d : Deck A) :
  insert (cs1 ++ cs2) d = (let* _ := insert cs1 in insert cs2) d.
Proof.
  unfold bind. rewrite !insert_cards. cbn [cards].
  now rewrite rev_app_distr, <- app_assoc.
Qed.

(** [insert] does not touch the end that [draw] takes from: on a deck that
    holds at least [n] cards, inserting a list and then drawing [n] cards
    returns the cards that drawing alone returns, and leaves the deck that
    drawing first and inserting afterwards leaves. *)
Theorem insert_then_draw_commute {A} (d : Deck A) (cs : list A) (n : Z) :
  0 <= n -> 0 < count d -> n <= count d ->
  (let* _ := insert cs in draw n) d =
  (let* drawn := draw n in let* _ := insert cs in ret drawn) d.
Proof.
  intros Hn Hpos Hle. unfold bind.
  rewrite insert_cards, (draw_enough n d) by assumption.
  rewrite insert_cards. cbn [cards]. unfold ret.
  unfold count in *.
  rewrite draw_enough
    by (unfold count; cbn [cards]; rewrite ?length_app; lia).
  cbn [cards]. rewrite rev_app_distr, rev_involutive.
  assert (Hk : (Z.to_nat n <= length (rev (cards d)))%nat)
    by (rewrite length_rev; lia).
  rewrite take_app_le, drop_app_le by exact Hk.
  now rewrite rev_app_distr.
Qed.

Lemma insert_then_draw_commute_witness :
  let d := {| cards := ["RED"; "BLUE"; "PINK"] |} in
  (let* _ := insert ["WILD"; "GREEN"] in draw 2) d =
  (Returned ["PINK"; "BLUE"], {| cards := ["GREEN"; "WILD"; "RED"] |}).
Proof.
  cbv zeta.
  rewrite (insert_then_draw_commute {| cards := ["RED"; "BLUE"; "PINK"] |}
             ["WILD"; "GREEN"] 2) by (unfold count; simpl; lia).
  reflexivity.
Defined.

(** ** The constructor of Action *)

(** The constructor fails, with an [AssertionError], exactly when an
    attribute of the kind is missing: for kind 0 the route or the colours,
    or the colours are the empty list; for kind 1 the colour to draw; for
    kind 3 the deal flag, or the destinations to take when the flag is
    [False].  Kind 2 and every other number construct unchecked. *)
Theorem Action_init_fails_iff (action : Z) (route : option Route.t)
    (colorsUsed : option (list string)) (colorToDraw : option string)
    (askingForDeal : option bool) (takeDests : option (list Z)) :
  (exists e, Action_init action route colorsUsed colorToDraw askingForDeal
                         takeDests = Raised e) <->
  (action = 0 /\
   (route = None \/ colorsUsed = None \/ colorsUsed = Some [])) \/
  (action = 1 /\ colorToDraw = None) \/
  (action = 3 /\
   (askingForDeal = None \/ (askingForDeal = Some false /\ takeDests = None))).
Proof.
  unfold Action_init.
  destruct (Z.eqb_spec action 0) as [->|H0].
  - destruct route as [r|], colorsUsed as [[|c cols]|]; simpl;
      split; try (intros _; eexists; reflexivity);
      try (intros [e He]; discriminate);
      try (intros _; left; split; [reflexivity|]; auto; fail).
    intros [(_ & [H|[H|H]])|[(H & _)|(H & _)]]; discriminate.
  - destruct (Z.eqb_spec action 1) as [->|H1].
    + destruct colorToDraw as [c|]; split;
        try (intros _; eexists; reflexivity);
        try (intros [e He]; discriminate);
        try (intros _; right; left; auto; fail).
      intros [(H & _)|[(_ & H)|(H & _)]]; discriminate.
    + destruct (Z.eqb_spec action 3) as [->|H3].
      * destruct askingForDeal as [[|]|], takeDests as [t|]; split;
          try (intros _; eexists; reflexivity);
          try (intros [e He]; discriminate);
          try (intros _; right; right; split; [reflexivity|]; auto; fail);
          intros [(H & _)|[(H & _)|(_ & [H|[H H']])]]; discriminate.
      * split; [intros [e He]; discriminate|].
        intros [(H & _)|[(H & _)|(H & _)]]; contradiction.
Qed.

(** A constructed action carries its number and the attributes of its kind
    only: arguments given for another kind are dropped without notice, and
    so are the destinations to take when the deal flag is [True]. *)
Theorem Action_init_keeps_its_kind (action : Z) (route : option Route.t)
    (colorsUsed : option (list string)) (colorToDraw : option string)
    (askingForDeal : option bool) (takeDests : option (list Z))
    (obj : ActionObject.t) :
  Action_init action route colorsUsed colorToDraw askingForDeal takeDests
    = Returned obj ->
  ActionObject.action obj = action /\
  ActionObject.route obj = (if action =? 0 then route else None) /\
  ActionObject.colorsUsed obj = (if action =? 0 then colorsUsed else None) /\
  ActionObject.colorToDraw obj = (if action =? 1 then colorToDraw else None) /\
  ActionObject.askingForDeal obj
    = (if action =? 3 then askingForDeal else None) /\
  ActionObject.takeDests obj
    = (if action =? 3 then
         match askingForDeal with Some false => takeDests | _ => None end
       else None).
Proof.
  unfold Action_init.
  destruct (Z.eqb_spec action 0) as [->|H0].
  - destruct route as [r|], colorsUsed as [[|c cols]|]; simpl;
      intros E; try discriminate. injection E as <-. repeat split.
  - destruct (Z.eqb_spec action 1) as [->|H1].
    + destruct colorToDraw as [c|]; simpl; intros E; try discriminate.
      injection E as <-. repeat split.
    + destruct (Z.eqb_spec action 3) as [->|H3].
      * destruct askingForDeal as [[|]|], takeDests as [t|]; simpl;
          intros E; try discriminate; injection E as <-; repeat split.
      * intros E. injection E as <-. simpl. repeat split.
Qed.

Lemma Action_init_keeps_its_kind_witness :
  exists obj,
    Action_init 3 None (Some ["RED"]) None (Some true) (Some [0; 1])
      = Returned obj /\
    ActionObject.colorsUsed obj = None /\
    ActionObject.askingForDeal obj = Some true /\
    ActionObject.takeDests obj = None.
Proof.
  eexists. split; [reflexivity|].
  destruct (Action_init_keeps_its_kind 3 None (Some ["RED"]) None (Some true)
              (Some [0; 1]) _ eq_refl) as (_ & _ & Hc & _ & Ha & Ht).
  split; [exact Hc|]. split; [exact Ha | exact Ht].
Defined.

(** ** More on the enumeration of legal actions *)

Lemma specPayments_shape color W numColor numWild cols :
  0 <= numColor ->
  In cols (specPayments color W numColor numWild) ->
  (cols = [color] /\ W <= numColor) \/
  ((cols = [color; "WILD"] \/ cols = ["WILD"; color]) /\
   0 < numColor /\ 0 < numWild /\ W <= numColor + numWild).
Proof.
  intros HC. unfold specPayments.
  destruct (Z.eqb_spec numColor 0); [intros []|].
  destruct (Z.ltb_spec numColor W).
  - destruct (Z.eqb_spec (numWild + numColor) W).
    + intros [<-|[]]. right. repeat split; auto; lia.
    + destruct (Z.ltb_spec W (numWild + numColor)); [|intros []].
      destruct (Z.ltb_spec numWild W).
      * intros [<-|[<-|[]]]; right; repeat split; auto; lia.
      * intros [<-|[]]; right; repeat split; auto; lia.
  - destruct (Z.ltb_spec 0 numWild), (Z.ltb_spec numWild W); simpl;
      intros Hin; repeat destruct Hin as [<-|Hin]; try destruct Hin;
      try (left; split; [reflexivity | lia]);
      right; repeat split; auto; lia.
Qed.

Lemma specPayments_length color W numColor numWild :
  (length (specPayments color W numColor numWild) <= 2)%nat.
Proof.
  unfold specPayments.
  destruct (numColor =? 0), (numColor <? W), (numWild + numColor =? W),
    (W <? numWild + numColor), (numWild <? W), (0 <? numWild); simpl; lia.
Qed.

(** What an unowned GRAY edge contributes. *)
Lemma routeActions_gray hand numWilds route :
  Edge.owner route = Some "" ->
  Edge.color route = "GRAY" ->
  routeActions hand numWilds route =
  List.map (PlaceRoute (routeTypeOf route))
    (flat_map (fun c => specPayments c (Edge.weight route)
                                     (list_count hand c) numWilds)
              (keys color_indexing) ++
     (if Edge.weight route <=? numWilds then [["WILD"]] else [])).
Proof.
  intros Hown Hcol. unfold routeActions. rewrite Hown, Hcol.
  simpl owner_ne_empty. simpl negb. cbv iota.
  rewrite List.map_app. f_equal.
  - induction (keys color_indexing) as [|c l IH]; [reflexivity|].
    simpl. rewrite List.map_app, IH.
    now rewrite grayPayments_colorPayments, colorPayments_spec.
  - destruct (Edge.weight route <=? numWilds); reflexivity.
Qed.

(** An edge contributes actions only when its owner is the empty string. *)
Lemma routeActions_owner hand numWilds route a :
  In a (routeActions hand numWilds route) -> Edge.owner route = Some "".
Proof.
  unfold routeActions. destruct (Edge.owner route) as [o|]; simpl;
    [|intros []].
  destruct (String.eqb_spec o "") as [->|_]; simpl; [reflexivity | intros []].
Qed.

(** The payments an edge contributes: those of the analysis for the colour
    of the route, or for a GRAY route those of the analysis for one of the
    keys of [color_indexing], or the single "WILD" after the loop. *)
Lemma routeActions_payment hand numWilds route cols :
  In (PlaceRoute (routeTypeOf route) cols) (routeActions hand numWilds route)
  <->
  Edge.owner route = Some "" /\
  ((Edge.color route <> "GRAY" /\
    In cols (specPayments (Edge.color route) (Edge.weight route)
               (list_count hand (Edge.color route)) numWilds)) \/
   (Edge.color route = "GRAY" /\
    ((exists c, In c (keys color_indexing) /\
        In cols (specPayments c (Edge.weight route)
                              (list_count hand c) numWilds)) \/
     (cols = ["WILD"] /\ Edge.weight route <= numWilds)))).
Proof.
  assert (Hinj : forall l, In (PlaceRoute (routeTypeOf route) cols)
                   (List.map (PlaceRoute (routeTypeOf route)) l) <-> In cols l).
  { intros l. rewrite in_map_iff. split.
    - intros (x & E & Hx). now injection E as ->.
    - intros Hx. eauto. }
  split.
  - intros Hin. pose proof (routeActions_owner _ _ _ _ Hin) as Hown.
    split; [exact Hown|].
    destruct (String.eqb_spec (Edge.color route) "GRAY") as [Hg|Hg].
    + right. split; [exact Hg|].
      rewrite routeActions_gray, Hinj, in_app_iff, in_flat_map in Hin
        by assumption.
      destruct Hin as [Hin|Hin]; [now left | right].
      destruct (Z.leb_spec (Edge.weight route) numWilds);
        [|destruct Hin].
      destruct Hin as [<-|[]]. now split.
    + left. split; [exact Hg|].
      now rewrite routeActions_colored, Hinj in Hin by assumption.
  - intros (Hown & [(Hg & Hin)|(Hg & Hin)]).
    + now rewrite routeActions_colored, Hinj by assumption.
    + rewrite routeActions_gray, Hinj, in_app_iff, in_flat_map by assumption.
      destruct Hin as [Hin|(-> & Hle)]; [now left | right].
      destruct (Z.leb_spec (Edge.weight route) numWilds); [now left | lia].
Qed.

(** An action is returned only by a game that is not over. *)
Lemma in_validMoves self a :
  In a (fst (validMoves self)) <->
  Game.gameOver self = false /\ In a (actionListOf self).
Proof.
  destruct (Game.gameOver self) eqn:Hover.
  - rewrite validMoves_over by exact Hover. simpl.
    split; [intros [] | intros [H _]; discriminate].
  - rewrite validMoves_fst_live by exact Hover. tauto.
Qed.

(** A claim is returned only in the FreeChoice phase, for an edge of the
    board. *)
Lemma in_validMoves_place self routeType cols :
  In (PlaceRoute routeType cols) (fst (validMoves self)) <->
  Game.gameOver self = false /\ Game.movePerforming self = None /\
  exists e, In e (Game.board self) /\ routeType = routeTypeOf e /\
    In (PlaceRoute (routeTypeOf e) cols)
       (routeActions (Agent.trainCards (Game.makingNextMove self))
          (list_count (Agent.trainCards (Game.makingNextMove self)) "WILD")
          e).
Proof.
  rewrite in_validMoves. split.
  - intros [Hlive Hin]. split; [exact Hlive|].
    destruct (Game.movePerforming self) as [move|] eqn:Hmove.
    + exfalso. rewrite (actionList_phase self move Hmove) in Hin.
      destruct (action move =? 1).
      * apply in_app_iff in Hin as [Hin|Hin].
        -- apply in_flat_map in Hin as (c & _ & Hin).
           destruct (c =? "WILD")%string; [destruct Hin|].
           destruct Hin as [Hin|[]]; discriminate.
        -- destruct (1 <=? count (Game.trainCarDeck self));
             [destruct Hin as [Hin|[]]; discriminate | destruct Hin].
      * destruct (action move =? 2).
        -- apply in_app_iff in Hin as [Hin|Hin].
           ++ apply in_map_iff in Hin as (c & Hc & _). discriminate.
           ++ destruct (1 <=? count (Game.trainCarDeck self));
                [destruct Hin as [Hin|[]]; discriminate | destruct Hin].
        -- destruct (action move =? 3); [|destruct Hin].
           apply in_map_iff in Hin as (t & Ht & _). discriminate.
    + split; [reflexivity|].
      apply actionList_free_place in Hin as (e & He & Hin); [|exact Hmove].
      exists e. split; [exact He|].
      destruct (routeActions_place _ _ _ _ Hin) as [cols' E].
      injection E as -> _. split; [reflexivity | exact Hin].
  - intros (Hlive & Hfree & e & He & -> & Hin). split; [exact Hlive|].
    apply actionList_free_place; [exact Hfree|]. eauto.
Qed.

(** A claim is never offered for a route that has an owner, nor outside the
    FreeChoice phase, nor once the game is over: every [PlaceRoute] action
    that [validMoves] returns is for an edge of the board whose owner is the
    empty string, in a game that is not over and has no move in progress. *)
Theorem claims_only_for_unowned_edges (self : Game.t Agent.t)
    (routeType : Route.t) (colorsUsed : list string) :
  In (PlaceRoute routeType colorsUsed) (fst (validMoves self)) ->
  Game.gameOver self = false /\
  Game.movePerforming self = None /\
  exists e, In e (Game.board self) /\ Edge.owner e = Some "" /\
            routeType = routeTypeOf e.
Proof.
  intros Hin. apply in_validMoves_place in Hin
    as (Hlive & Hfree & e & He & Hrt & Hin).
  split; [exact Hlive|]. split; [exact Hfree|].
  exists e. split; [exact He|]. split; [|exact Hrt].
  exact (routeActions_owner _ _ _ _ Hin).
Qed.

Lemma claims_only_for_unowned_edges_witness :
  let route := edgeWith 2 "RED" (Some "") 7 in
  let self := gameWith false None ["RED"; "RED"]
                       [edgeWith 2 "RED" (Some "Ann") 6; route] [] [] [] in
  In (PlaceRoute (routeTypeOf route) ["RED"]) (fst (validMoves self)) /\
  exists e, In e (Game.board self) /\ Edge.owner e = Some "" /\
            routeTypeOf route = routeTypeOf e.
Proof.
  cbv zeta.
  assert (Hin : In (PlaceRoute (routeTypeOf (edgeWith 2 "RED" (Some "") 7))
                               ["RED"])
                   (fst (validMoves
                      (gameWith false None ["RED"; "RED"]
                         [edgeWith 2 "RED" (Some "Ann") 6;
                          edgeWith 2 "RED" (Some "") 7] [] [] [])))).
  { simpl. left. reflexivity. }
  split; [exact Hin|].
  exact (proj2 (proj2 (claims_only_for_unowned_edges _ _ _ Hin))).
Defined.

(** Every claim that [validMoves] returns passed the comparisons of the
    enumeration: its colours are one colour [c] of which the player holds at
    least as many cards as the route is long, or [c] and "WILD" in either
    order, where the player holds a card of [c], a wild card, and the two
    counts together reach the length.  For a route that is not GRAY, [c] is
    the colour of the route. *)
Theorem offered_payment_counts (self : Game.t Agent.t) (routeType : Route.t)
    (colorsUsed : list string) :
  In (PlaceRoute routeType colorsUsed) (fst (validMoves self)) ->
  let hand := Agent.trainCards (Game.makingNextMove self) in
  let numWilds := list_count hand "WILD" in
  exists c,
    ((colorsUsed = [c] /\ Route.weight routeType <= list_count hand c) \/
     ((colorsUsed = [c; "WILD"] \/ colorsUsed = ["WILD"; c]) /\
      0 < list_count hand c /\ 0 < numWilds /\
      Route.weight routeType <= list_count hand c + numWilds)) /\
    (Route.color routeType <> "GRAY" -> c = Route.color routeType).
Proof.
  intros Hin. cbv zeta.
  apply in_validMoves_place in Hin as (_ & _ & e & _ & -> & Hin).
  apply routeActions_payment in Hin
    as (_ & [(Hg & Hin)|(Hg & [(c & _ & Hin)|(-> & Hle)])]).
  - exists (Edge.color e). split; [|reflexivity].
    apply specPayments_shape in Hin; [exact Hin | apply list_count_nonneg].
  - exists c. split; [|intros H; contradiction].
    apply specPayments_shape in Hin; [exact Hin | apply list_count_nonneg].
  - exists "WILD". split; [|intros H; contradiction].
    left. split; [reflexivity | exact Hle].
Qed.

Lemma offered_payment_counts_witness :
  let route := edgeWith 3 "GRAY" (Some "") 7 in
  let self := gameWith false None ["BLUE"; "WILD"; "BLUE"] [route] [] [] [] in
  let hand := Agent.trainCards (Game.makingNextMove self) in
  In (PlaceRoute (routeTypeOf route) ["BLUE"; "WILD"]) (fst (validMoves self))
  /\
  exists c,
    ((["BLUE"; "WILD"] = [c] /\ 3 <= list_count hand c) \/
     ((["BLUE"; "WILD"] = [c; "WILD"] \/ ["BLUE"; "WILD"] = ["WILD"; c]) /\
      0 < list_count hand c /\ 0 < list_count hand "WILD" /\
      3 <= list_count hand c + list_count hand "WILD")) /\
    ("GRAY" <> "GRAY" -> c = "GRAY").
Proof.
  cbv zeta.
  assert (Hin : In (PlaceRoute (routeTypeOf (edgeWith 3 "GRAY" (Some "") 7))
                               ["BLUE"; "WILD"])
                   (fst (validMoves
                      (gameWith false None ["BLUE"; "WILD"; "BLUE"]
                         [edgeWith 3 "GRAY" (Some "") 7] [] [] [])))).
  { simpl. left. reflexivity. }
  split; [exact Hin|].
  exact (offered_payment_counts _ _ _ Hin).
Defined.

(** The claims offered for an unowned GRAY route, in the FreeChoice phase of
    a game that is not over: the payments of the three-way analysis for each
    of the nine keys of [color_indexing], the key "WILD" among them, and the
    single colour "WILD" when the wild cards reach the length of the
    route. *)
Theorem gray_route_payments (self : Game.t Agent.t) (route : Edge.t)
    (colorsUsed : list string) :
  Game.gameOver self = false ->
  Game.movePerforming self = None ->
  In route (Game.board self) ->
  Edge.owner route = Some "" ->
  Edge.color route = "GRAY" ->
  let hand := Agent.trainCards (Game.makingNextMove self) in
  let numWilds := list_count hand "WILD" in
  (In (PlaceRoute (routeTypeOf route) colorsUsed) (fst (validMoves self)) <->
   (exists c,
      In c ["PINK"; "WHITE"; "BLUE"; "YELLOW"; "ORANGE"; "BLACK"; "RED";
            "GREEN"; "WILD"] /\
      In colorsUsed (specPayments c (Edge.weight route)
                                  (list_count hand c) numWilds)) \/
   (colorsUsed = ["WILD"] /\ Edge.weight route <= numWilds)).
Proof.
  intros Hlive Hfree Hin Hown Hgray. cbv zeta.
  rewrite in_validMoves_place. split.
  - intros (_ & _ & e & He & Hrt & Ha).
    apply routeActions_payment in Ha as (_ & [(Hg & _)|(_ & Ha)]).
    + exfalso. apply Hg. rewrite <- Hgray.
      exact (f_equal Route.color (eq_sym Hrt)).
    + replace (Edge.weight e) with (Edge.weight route) in Ha
        by exact (f_equal Route.weight Hrt).
      exact Ha.
  - intros Ha. split; [exact Hlive|]. split; [exact Hfree|].
    exists route. split; [exact Hin|]. split; [reflexivity|].
    apply routeActions_payment. split; [exact Hown|]. right.
    split; [exact Hgray | exact Ha].
Qed.

Lemma gray_route_payments_witness :
  let route := edgeWith 3 "GRAY" (Some "") 7 in
  let self := gameWith false None ["WILD"; "WILD"] [route] [] [] [] in
  In (PlaceRoute (routeTypeOf route) ["WILD"; "WILD"]) (fst (validMoves self))
  /\ ~ In (PlaceRoute (routeTypeOf route) ["WILD"]) (fst (validMoves self)).
Proof.
  cbv zeta.
  pose proof (fun cols =>
    gray_route_payments
      (gameWith false None ["WILD"; "WILD"]
                [edgeWith 3 "GRAY" (Some "") 7] [] [] [])
      (edgeWith 3 "GRAY" (Some "") 7) cols eq_refl eq_refl
      (or_introl eq_refl) eq_refl eq_refl) as H.
  cbv zeta in H. split.
  - apply H. left. exists "WILD". split; [simpl; tauto|].
    simpl. left. reflexivity.
  - intros Hin. apply H in Hin as [(c & Hc & Hin)|(_ & Hle)].
    + simpl in Hc.
      repeat (destruct Hc as [<-|Hc];
              [simpl in Hin; intuition discriminate|]).
      destruct Hc.
    + vm_compute in Hle. congruence.
Defined.

(** The colours of a returned claim are not the empty list. *)
Lemma offered_colours_nonempty (self : Game.t Agent.t) (routeType : Route.t)
    (cols : list string) :
  In (PlaceRoute routeType cols) (fst (validMoves self)) ->
  exists c, In c cols.
Proof.
  intros Hin.
  apply in_validMoves_place in Hin as (_ & _ & e & _ & -> & Hin).
  apply routeActions_payment in Hin
    as (_ & [(_ & Hin)|(_ & [(c & _ & Hin)|(-> & _)])]).
  - apply specPayments_shape in Hin as [[-> _]|[[->| ->] _]];
      try apply list_count_nonneg; eexists; left; reflexivity.
  - apply specPayments_shape in Hin as [[-> _]|[[->| ->] _]];
      try apply list_count_nonneg; eexists; left; reflexivity.
  - eexists; left; reflexivity.
Qed.

(** The constructor accepts every action that [validMoves] builds: none of
    its assertions fires, in particular the colours of a claim are never the
    empty list, and the object carries the number of the kind. *)
Theorem validMoves_actions_constructible (self : Game.t Agent.t) (a : Action) :
  In a (fst (validMoves self)) ->
  exists obj, construct a = Returned obj /\ ActionObject.action obj = action a.
Proof.
  intros Hin. destruct a as [rt cols| c | | |t]; try (eexists; split; reflexivity).
  destruct (offered_colours_nonempty self rt cols Hin) as [x Hx].
  destruct cols as [|c cols]; [destruct Hx|].
  eexists. split; reflexivity.
Qed.

Lemma validMoves_actions_constructible_witness :
  let route := edgeWith 2 "RED" (Some "") 7 in
  let self := gameWith false None ["RED"; "RED"] [route] [] [] [] in
  exists obj,
    construct (PlaceRoute (routeTypeOf route) ["RED"]) = Returned obj /\
    ActionObject.action obj = 0.
Proof.
  cbv zeta.
  apply (validMoves_actions_constructible
           (gameWith false None ["RED"; "RED"]
                     [edgeWith 2 "RED" (Some "") 7] [] [] [])
           (PlaceRoute (routeTypeOf (edgeWith 2 "RED" (Some "") 7)) ["RED"])).
  simpl. left. reflexivity.
Defined.

(** One edge contributes at most two claims when its colour is not GRAY and
    at most nineteen when it is. *)
Lemma routeActions_length hand numWilds route :
  (length (routeActions hand numWilds route) <=
   if (Edge.color route =? "GRAY")%string then 19 else 2)%nat.
Proof.
  unfold routeActions.
  destruct (owner_ne_empty (Edge.owner route));
    [destruct (Edge.color route =? "GRAY")%string; simpl; lia|].
  destruct (Edge.color route =? "GRAY")%string; simpl negb; cbv iota.
  - rewrite length_app.
    assert (H : forall l,
      (length (flat_map (grayPayments hand numWilds (routeTypeOf route)
                                      (Edge.weight route)) l)
       <= 2 * length l)%nat).
    { induction l as [|c l IH]; simpl; [lia|]. rewrite length_app.
      rewrite grayPayments_colorPayments, colorPayments_spec, length_map.
      pose proof (specPayments_length c (Edge.weight route)
                    (list_count hand c) numWilds). lia. }
    specialize (H (keys color_indexing)). simpl length in H.
    destruct (Edge.weight route <=? numWilds); simpl; lia.
  - rewrite colorPayments_spec, length_map. apply specPayments_length.
Qed.

(** The list that [validMoves] returns is bounded by the size of the state:
    at most nineteen claims for every edge of the board, one draw for every
    face-up card, and seven more actions. *)
Theorem validMoves_length_bound (self : Game.t Agent.t) :
  (length (fst (validMoves self)) <=
   19 * length (Game.board self) + length (Game.faceUpCards self) + 7)%nat.
Proof.
  destruct (Game.gameOver self) eqn:Hover.
  - rewrite validMoves_over by exact Hover. simpl. lia.
  - rewrite validMoves_fst_live by exact Hover. unfold actionListOf.
    assert (Hif : forall (b : bool) (a : Action),
              (length (if b then [a] else []) <= 1)%nat)
      by (intros []; simpl; lia).
    destruct (Game.movePerforming self) as [move|].
    + destruct (action move =? 1); [|destruct (action move =? 2);
                                      [|destruct (action move =? 3)]].
      * rewrite length_app.
        pose proof (Hif (1 <=? count (Game.trainCarDeck self)) DrawFaceDown).
        assert (H' : forall l,
          (length (flat_map (fun card => if (card =? "WILD")%string then []
                                         else [DrawFaceUp card]) l)
           <= length l)%nat).
        { induction l as [|c l IH]; simpl; [lia|].
          destruct (c =? "WILD")%string; simpl; lia. }
        specialize (H' (Game.faceUpCards self)). lia.
      * rewrite length_app, length_map.
        pose proof (Hif (1 <=? count (Game.trainCarDeck self)) DrawFaceDown).
        lia.
      * simpl. lia.
      * simpl. lia.
    + rewrite !length_app, length_map.
      pose proof (Hif (0 <? count (Game.trainCarDeck self)) DrawFaceDown).
      pose proof (Hif (3 <=? count (Game.destinationsDeck self)) AskForDeal).
      assert (H' : forall l,
        (length (flat_map
                   (routeActions (Agent.trainCards (Game.makingNextMove self))
                      (list_count (Agent.trainCards (Game.makingNextMove self))
                                  "WILD")) l)
         <= 19 * length l)%nat).
      { induction l as [|e l IH]; simpl; [lia|]. rewrite length_app.
        pose proof (routeActions_length
                      (Agent.trainCards (Game.makingNextMove self))
                      (list_count (Agent.trainCards (Game.makingNextMove self))
                                  "WILD") e) as He.
        destruct (Edge.color e =? "GRAY")%string; lia. }
      specialize (H' (Game.board self)). lia.
Qed.

(** The actions other than claims, in a game that is not over.  A face-up
    card is offered in the FreeChoice phase and after a hidden draw, and
    after a visible draw unless it is a wild card.  The hidden draw is
    offered in these three phases iff the deck holds a card.  A deal is
    offered in the FreeChoice phase iff the destination deck holds three
    cards.  Taking destinations is offered iff a destination move is in
    progress, for the seven lists of [listDestTakes]. *)
Theorem other_actions_offered (self : Game.t Agent.t) :
  Game.gameOver self = false ->
  (forall c,
     In (DrawFaceUp c) (fst (validMoves self)) <->
     In c (Game.faceUpCards self) /\
     match Game.movePerforming self with
     | None => True
     | Some move => action move = 2 \/ (action move = 1 /\ c <> "WILD")
     end) /\
  (In DrawFaceDown (fst (validMoves self)) <->
   1 <= count (Game.trainCarDeck self) /\
   match Game.movePerforming self with
   | None => True
   | Some move => action move = 1 \/ action move = 2
   end) /\
  (In AskForDeal (fst (validMoves self)) <->
   Game.movePerforming self = None /\
   3 <= count (Game.destinationsDeck self)) /\
  (forall take,
     In (TakeDestinations take) (fst (validMoves self)) <->
     (exists move, Game.movePerforming self = Some move /\ action move = 3) /\
     In take listDestTakes).
Proof.
  intros Hlive. rewrite validMoves_fst_live by exact Hlive.
  assert (Hroute : forall a,
    (forall rt cols, a <> PlaceRoute rt cols) ->
    ~ In a (flat_map
              (routeActions (Agent.trainCards (Game.makingNextMove self))
                 (list_count (Agent.trainCards (Game.makingNextMove self))
                             "WILD")) (Game.board self))).
  { intros a Ha Hin. apply in_flat_map in Hin as (e & _ & Hin).
    apply routeActions_place in Hin as [cols ->].
    now apply (Ha (routeTypeOf e) cols). }
  assert (Hone : forall (b : bool) (a a' : Action),
            In a (if b then [a'] else []) <-> b = true /\ a = a').
  { intros [] a a'; simpl; split; try tauto; try (intros [H _]; discriminate).
    - intros [<-|[]]. tauto.
    - intros [_ ->]. now left. }
  assert (Hwild : forall c l,
    In (DrawFaceUp c)
       (flat_map (fun card => if (card =? "WILD")%string then []
                              else [DrawFaceUp card]) l) <->
    In c l /\ c <> "WILD").
  { intros c l. rewrite in_flat_map. split.
    - intros (x & Hx & Hin).
      destruct (String.eqb_spec x "WILD"); [destruct Hin|].
      destruct Hin as [E|[]]. injection E as ->. tauto.
    - intros [Hc Hne]. exists c. split; [exact Hc|].
      destruct (String.eqb_spec c "WILD"); [contradiction | now left]. }
  assert (Hmap : forall c l, In (DrawFaceUp c) (List.map DrawFaceUp l) <-> In c l).
  { intros c l. rewrite in_map_iff. split.
    - intros (x & E & Hx). now injection E as ->.
    - eauto. }
  assert (Htake : forall t l,
    In (TakeDestinations t) (List.map TakeDestinations l) <-> In t l).
  { intros t l. rewrite in_map_iff. split.
    - intros (x & E & Hx). now injection E as ->.
    - eauto. }
  unfold actionListOf.
  destruct (Game.movePerforming self) as [move|].
  - destruct (Z.eqb_spec (action move) 1) as [E1|N1];
      [|destruct (Z.eqb_spec (action move) 2) as [E2|N2];
        [|destruct (Z.eqb_spec (action move) 3) as [E3|N3]]].
    + split; [|split; [|split]].
      * intros c. rewrite in_app_iff, Hwild, Hone. split.
        -- intros [[Hc Hne]|[_ H]]; [|discriminate]. split; [exact Hc|].
           right. tauto.
        -- intros [Hc [H|[_ Hne]]]; [lia | left; tauto].
      * rewrite in_app_iff, Hone, Z.leb_le. split.
        -- intros [H|[H _]]; [|tauto].
           apply in_flat_map in H as (x & _ & H).
           destruct (x =? "WILD")%string; [destruct H|].
           destruct H as [H|[]]; discriminate.
        -- intros [H _]. right. tauto.
      * rewrite in_app_iff, Hone. split.
        -- intros [H|[_ H]]; [|discriminate].
           apply in_flat_map in H as (x & _ & H).
           destruct (x =? "WILD")%string; [destruct H|].
           destruct H as [H|[]]; discriminate.
        -- intros [H _]. discriminate.
      * intros t. rewrite in_app_iff, Hone. split.
        -- intros [H|[_ H]]; [|discriminate].
           apply in_flat_map in H as (x & _ & H).
           destruct (x =? "WILD")%string; [destruct H|].
           destruct H as [H|[]]; discriminate.
        -- intros [(m & Hm & Ha) _]. injection Hm as <-. lia.
    + split; [|split; [|split]].
      * intros c. rewrite in_app_iff, Hmap, Hone. split.
        -- intros [Hc|[_ H]]; [|discriminate]. tauto.
        -- intros [Hc _]. now left.
      * rewrite in_app_iff, Hone, Z.leb_le. split.
        -- intros [H|[H _]]; [|tauto].
           apply in_map_iff in H as (x & H & _). discriminate.
        -- intros [H _]. right. tauto.
      * rewrite in_app_iff, Hone. split.
        -- intros [H|[_ H]]; [|discriminate].
           apply in_map_iff in H as (x & H & _). discriminate.
        -- intros [H _]. discriminate.
      * intros t. rewrite in_app_iff, Hone. split.
        -- intros [H|[_ H]]; [|discriminate].
           apply in_map_iff in H as (x & H & _). discriminate.
        -- intros [(m & Hm & Ha) _]. injection Hm as <-. lia.
    + split; [|split; [|split]].
      * intros c. split.
        -- intros H. apply in_map_iff in H as (x & H & _). discriminate.
        -- intros [_ [H|[H _]]]; lia.
      * split.
        -- intros H. apply in_map_iff in H as (x & H & _). discriminate.
        -- intros [_ [H|H]]; lia.
      * split.
        -- intros H. apply in_map_iff in H as (x & H & _). discriminate.
        -- intros [H _]. discriminate.
      * intros t. rewrite Htake. split; [|tauto].
        intros H. split; [eauto | exact H].
    + split; [|split; [|split]].
      * intros c. simpl. split; [tauto|]. intros [_ [H|[H _]]]; lia.
      * simpl. split; [tauto|]. intros [_ [H|H]]; lia.
      * simpl. split; [tauto|]. intros [H _]. discriminate.
      * intros t. simpl. split; [tauto|].
        intros [(m & Hm & Ha) _]. injection Hm as <-. lia.
  - split; [|split; [|split]].
    + intros c. rewrite !in_app_iff, Hmap, !Hone. split.
      * intros [H|[H|[[_ H]|[_ H]]]]; try discriminate; [|tauto].
        exfalso. revert H. apply Hroute. discriminate.
      * intros [H _]. right. now left.
    + rewrite !in_app_iff, !Hone, Z.ltb_lt. split.
      * intros [H|[H|[[H _]|[_ H]]]]; try discriminate.
        -- exfalso. revert H. apply Hroute. discriminate.
        -- apply in_map_iff in H as (x & H & _). discriminate.
        -- split; [lia | exact I].
      * intros [H _]. right. right. left. split; [lia | reflexivity].
    + rewrite !in_app_iff, !Hone, Z.leb_le. split.
      * intros [H|[H|[[_ H]|[H _]]]]; try discriminate.
        -- exfalso. revert H. apply Hroute. discriminate.
        -- apply in_map_iff in H as (x & H & _). discriminate.
        -- tauto.
      * intros [_ H]. right. right. right. tauto.
    + intros t. rewrite !in_app_iff, !Hone. split.
      * intros [H|[H|[[_ H]|[_ H]]]]; try discriminate.
        -- exfalso. revert H. apply Hroute. discriminate.
        -- apply in_map_iff in H as (x & H & _). discriminate.
      * intros [(m & Hm & _) _]. discriminate.
Qed.

Lemma other_actions_offered_witness :
  let self := gameWith false (Some (DrawFaceUp "RED")) []
                       [] ["WILD"; "BLUE"] ["PINK"] [] in
  In (DrawFaceUp "BLUE") (fst (validMoves self)) /\
  ~ In (DrawFaceUp "WILD") (fst (validMoves self)) /\
  In DrawFaceDown (fst (validMoves self)) /\
  ~ In AskForDeal (fst (validMoves self)).
Proof.
  cbv zeta.
  destruct (other_actions_offered
              (gameWith false (Some (DrawFaceUp "RED")) []
                        [] ["WILD"; "BLUE"] ["PINK"] []) eq_refl)
    as (Hup & Hdown & Hdeal & _).
  split; [|split; [|split]].
  - apply Hup. split; [simpl; tauto|]. right. split; [reflexivity|discriminate].
  - intros H. apply Hup in H as [_ [H|[_ H]]]; [discriminate | now apply H].
  - apply Hdown. split; [unfold count; simpl; lia | now left].
  - intros H. apply Hdeal in H as [H _]. discriminate.
Defined.

(** [validMoves] writes two attributes and nothing else: whatever it
    returns, every attribute of the game other than [gameOver] and
    [endedGame] is what it was; and when the list it returns is not empty
    the game is left as it was altogether. *)
Theorem validMoves_frame (self : Game.t Agent.t) :
  let self' := snd (validMoves self) in
  (Game.map self' = Game.map self /\
   Game.doLogs self' = Game.doLogs self /\
   Game.drawGame self' = Game.drawGame self /\
   Game.lastTurn self' = Game.lastTurn self /\
   Game.colorPicked self' = Game.colorPicked self /\
   Game.turn self' = Game.turn self /\
   Game.wildPicked self' = Game.wildPicked self /\
   Game.gameLogs self' = Game.gameLogs self /\
   Game.trainCarDeck self' = Game.trainCarDeck self /\
   Game.destinationDeal self' = Game.destinationDeal self /\
   Game.movePerforming self' = Game.movePerforming self /\
   Game.board self' = Game.board self /\
   Game.faceUpCards self' = Game.faceUpCards self /\
   Game.destinationCards self' = Game.destinationCards self /\
   Game.destinationsDeck self' = Game.destinationsDeck self /\
   Game.players self' = Game.players self /\
   Game.makingNextMove self' = Game.makingNextMove self) /\
  (fst (validMoves self) <> [] -> self' = self).
Proof.
  cbv zeta. unfold validMoves.
  destruct (Game.gameOver self); [simpl; repeat split|].
  destruct (actionListOf self) as [|a l]; simpl.
  - repeat split. congruence.
  - repeat split.
Qed.

Lemma validMoves_frame_witness :
  let self := gameWith false None [] [] ["RED"] [] [] in
  fst (validMoves self) <> [] /\ snd (validMoves self) = self.
Proof.
  cbv zeta. split; [discriminate|].
  apply (validMoves_frame (gameWith false None [] [] ["RED"] [] [])).
  discriminate.
Defined.

(** Asking twice changes nothing: a second call of [validMoves], on the game
    as the first call left it, returns the same list and leaves the same
    game. *)
Theorem validMoves_idempotent (self : Game.t Agent.t) :
  validMoves (snd (validMoves self)) = validMoves self.
Proof.
  unfold validMoves at 2 3.
  destruct (Game.gameOver self) eqn:Hover.
  - simpl. unfold validMoves. now rewrite Hover.
  - destruct (actionListOf self) as [|a l] eqn:E; simpl.
    + reflexivity.
    + unfold validMoves. now rewrite Hover, E.
Qed.

(** ** Building the board *)

(** An edge joins two cities, in either direction. *)
Lemma has_edge_true board a b :
  has_edge board a b = true <->
  exists e, In e board /\
    ((Edge.u e = a /\ Edge.v e = b) \/ (Edge.u e = b /\ Edge.v e = a)).
Proof.
  unfold has_edge. rewrite existsb_exists. split.
  - intros (e & He & H). exists e. split; [exact He|].
    apply orb_prop in H as [H|H]; apply andb_prop in H as [H1 H2];
      apply String.eqb_eq in H1, H2; tauto.
  - intros (e & He & [[<- <-]|[<- <-]]); exists e; (split; [exact He|]);
      rewrite !String.eqb_refl; simpl; auto using orb_true_r.
Qed.

Lemma initBoard_fold_sublist routes : forall board,
  exists kept,
    fold_left (fun board route =>
                 if has_edge board (Route.city1 route) (Route.city2 route)
                 then board else board ++ [edgeOfRoute route])
              routes board = board ++ kept /\
    sublist kept (List.map edgeOfRoute routes).
Proof.
  induction routes as [|r routes IH]; intros board; simpl.
  - exists []. split; [now rewrite app_nil_r | constructor].
  - destruct (has_edge board (Route.city1 r) (Route.city2 r)).
    + destruct (IH board) as (kept & E & Hs). exists kept.
      split; [exact E | now apply sublist_cons].
    + destruct (IH (board ++ [edgeOfRoute r])) as (kept & E & Hs).
      exists (edgeOfRoute r :: kept). rewrite E, <- app_assoc.
      split; [reflexivity | now apply sublist_skip].
Qed.

Lemma sublist_In {A} (l1 l2 : list A) (x : A) :
  sublist l1 l2 -> In x l1 -> In x l2.
Proof.
  induction 1 as [|y l1 l2 Hs IH|y l1 l2 Hs IH]; simpl; intuition.
Qed.

Lemma sublist_map_NoDup {A B} (f : A -> B) (l1 l2 : list A) :
  sublist l1 l2 -> List.NoDup (List.map f l2) -> List.NoDup (List.map f l1).
Proof.
  induction 1 as [|x l1 l2 Hs IH|x l1 l2 Hs IH]; simpl; intros Hnd.
  - constructor.
  - apply NoDup_cons_iff in Hnd as [Hx Hnd]. constructor; [|auto].
    intros Hin. apply Hx. apply in_map_iff in Hin as (y & <- & Hy).
    apply in_map. now apply (sublist_In l1 l2).
  - apply NoDup_cons_iff in Hnd as [_ Hnd]. auto.
Qed.

(** The edges of [initBoard] are edges of routes of the file, in file
    order. *)
Lemma initBoard_sublist (routes : list Route.t) (players : Z) :
  sublist (initBoard routes players) (List.map edgeOfRoute routes).
Proof.
  unfold initBoard. destruct (players =? 4); [reflexivity|].
  destruct (initBoard_fold_sublist routes []) as (kept & -> & Hs).
  exact Hs.
Qed.

(** *** The edges as the graph yields them *)

Lemma existsb_eqb_In (x : string) (seen : list string) :
  existsb (String.eqb x) seen = true <-> In x seen.
Proof.
  rewrite existsb_exists. split.
  - intros (y & Hy & E). apply String.eqb_eq in E. now subst.
  - intros H. exists x. split; [exact H | apply String.eqb_refl].
Qed.

Lemma firstOccurrences_In (l : list string) : forall seen x,
  In x (firstOccurrences seen l) <-> In x l /\ ~ In x seen.
Proof.
  induction l as [|y l IH]; intros seen x; simpl; [tauto|].
  destruct (existsb (String.eqb y) seen) eqn:E.
  - apply existsb_eqb_In in E. rewrite IH. split.
    + intros [H1 H2]. tauto.
    + intros [[->|H1] H2]; [contradiction | tauto].
  - assert (Hy : ~ In y seen).
    { intros H. apply existsb_eqb_In in H. congruence. }
    simpl. rewrite IH. simpl. split.
    + intros [->|[H1 H2]]; [tauto|]. split; [tauto|]. intros H; apply H2; tauto.
    + intros [[->|H1] H2]; [tauto|].
      destruct (string_dec y x) as [->|Hne]; [tauto|]. right. split; [exact H1|].
      intros [H|H]; tauto.
Qed.

Lemma firstOccurrences_NoDup (l : list string) : forall seen,
  List.NoDup (firstOccurrences seen l).
Proof.
  induction l as [|y l IH]; intros seen; simpl; [constructor|].
  destruct (existsb (String.eqb y) seen); [apply IH|].
  constructor; [|apply IH].
  rewrite firstOccurrences_In. simpl. tauto.
Qed.

Lemma filter_or_Permutation {A} (P Q : A -> bool) (l : list A) :
  (forall x, In x l -> P x && Q x = false) ->
  Permutation (List.filter (fun x => P x || Q x) l)
              (List.filter P l ++ List.filter Q l).
Proof.
  induction l as [|x l IH]; intros Hex; simpl; [constructor|].
  assert (IH' := IH (fun y Hy => Hex y (or_intror Hy))).
  pose proof (Hex x (or_introl eq_refl)) as Hx.
  destruct (P x), (Q x); simpl in *; try discriminate.
  - now constructor.
  - rewrite IH'. apply Permutation_middle.
  - exact IH'.
Qed.

Lemma map_flat_map {A B C} (f : B -> C) (g : A -> list B) (l : list A) :
  List.map f (flat_map g l) = flat_map (fun x => List.map f (g x)) l.
Proof.
  induction l as [|x l IH]; simpl; [reflexivity|].
  now rewrite List.map_app, IH.
Qed.

Lemma neighbours_In n added k :
  In k (neighbours n added) <->
  exists e, In e added /\ touches n e = true /\ otherEnd n e = k.
Proof.
  unfold neighbours. rewrite firstOccurrences_In, in_flat_map.
  unfold touches, otherEnd. split.
  - intros [(e & He & Hk) _]. exists e. split; [exact He|].
    destruct (Edge.u e =? n)%string; simpl.
    + destruct Hk as [<-|[]]. tauto.
    + destruct (Edge.v e =? n)%string; [|destruct Hk].
      destruct Hk as [<-|[]]. tauto.
  - intros (e & He & Ht & <-). split; [|intros []]. exists e.
    split; [exact He|].
    destruct (Edge.u e =? n)%string; simpl in *; [now left|].
    rewrite Ht. now left.
Qed.

Lemma edgesBetween_otherEnd n nbr added :
  edgesBetween n nbr added =
  List.filter (fun e => touches n e && (otherEnd n e =? nbr)%string) added.
Proof.
  unfold edgesBetween. apply List.filter_ext. intros e.
  unfold touches, otherEnd.
  destruct (String.eqb_spec (Edge.u e) n) as [Eu|Eu];
    destruct (String.eqb_spec (Edge.v e) n) as [Ev|Ev];
    destruct (String.eqb_spec (Edge.u e) nbr) as [Fu|Fu];
    destruct (String.eqb_spec (Edge.v e) nbr) as [Fv|Fv];
    simpl; try reflexivity; congruence.
Qed.

Lemma map_attributes_report n nbr l :
  List.map attributes (List.map (report n nbr) l) = List.map attributes l.
Proof. rewrite List.map_map. apply List.map_ext. reflexivity. Qed.

Lemma edges_by_neighbour n seen added : forall ks,
  List.NoDup ks ->
  Permutation
    (flat_map (fun k => if existsb (String.eqb k) seen then []
                        else List.map attributes (edgesBetween n k added)) ks)
    (List.map attributes
       (List.filter (fun e => touches n e &&
                              negb (existsb (String.eqb (otherEnd n e)) seen) &&
                              existsb (String.eqb (otherEnd n e)) ks) added)).
Proof.
  induction ks as [|k ks IH]; intros Hnd.
  - simpl. rewrite (List.filter_ext _ (fun _ => false)).
    + induction added; simpl; [constructor | assumption].
    + intros e. now rewrite andb_false_r.
  - inversion Hnd as [|? ? Hk Hnd']; subst. simpl flat_map.
    rewrite (List.filter_ext _
      (fun e => (touches n e &&
                 negb (existsb (String.eqb (otherEnd n e)) seen) &&
                 (otherEnd n e =? k)%string) ||
                (touches n e &&
                 negb (existsb (String.eqb (otherEnd n e)) seen) &&
                 existsb (String.eqb (otherEnd n e)) ks))).
    2:{ intros e. simpl. now rewrite andb_orb_distrib_r. }
    rewrite filter_or_Permutation.
    2:{ intros e _. destruct (String.eqb_spec (otherEnd n e) k) as [->|];
          [|now rewrite andb_false_r].
        destruct (existsb (String.eqb k) ks) eqn:E;
          [|now rewrite !andb_false_r].
        apply existsb_eqb_In in E. contradiction. }
    rewrite List.map_app. apply Permutation_app; [|now apply IH].
    rewrite edgesBetween_otherEnd.
    destruct (existsb (String.eqb k) seen) eqn:E.
    + rewrite (List.filter_ext _ (fun _ => false)).
      * clear. induction added; simpl; [constructor | assumption].
      * intros e. destruct (String.eqb_spec (otherEnd n e) k) as [->|];
          [|now rewrite andb_false_r].
        rewrite E. simpl. now rewrite andb_false_r.
    + rewrite (List.filter_ext
                 (fun e => touches n e && (otherEnd n e =? k)%string)
                 (fun e => touches n e &&
                   negb (existsb (String.eqb (otherEnd n e)) seen) &&
                   (otherEnd n e =? k)%string)); [reflexivity|].
      intros e. destruct (String.eqb_spec (otherEnd n e) k) as [->|];
        [|now rewrite !andb_false_r].
      rewrite E. simpl. now rewrite !andb_true_r.
Qed.

Lemma edges_at_node n seen added :
  Permutation
    (List.map attributes
       (flat_map (fun nbr => if existsb (String.eqb nbr) seen then []
                             else List.map (report n nbr)
                                           (edgesBetween n nbr added))
                 (neighbours n added)))
    (List.map attributes
       (List.filter (fun e => touches n e &&
                              negb (existsb (String.eqb (otherEnd n e)) seen))
                    added)).
Proof.
  rewrite map_flat_map.
  rewrite (flat_map_ext _
     (fun k => if existsb (String.eqb k) seen then []
               else List.map attributes (edgesBetween n k added))).
  2:{ intros k. destruct (existsb (String.eqb k) seen); [reflexivity|].
      apply map_attributes_report. }
  rewrite edges_by_neighbour by apply firstOccurrences_NoDup.
  erewrite List.filter_ext_in; [reflexivity|].
  intros e He. simpl.
  destruct (touches n e) eqn:Ht; [|reflexivity]. simpl.
  replace (existsb (String.eqb (otherEnd n e)) (neighbours n added)) with true;
    [now rewrite andb_true_r|].
  symmetry. apply existsb_eqb_In, neighbours_In. now exists e.
Qed.

Lemma edgesFrom_attributes added : forall nodes seen,
  List.NoDup nodes ->
  (forall x, In x nodes -> ~ In x seen) ->
  Permutation
    (List.map attributes (edgesFrom nodes seen added))
    (List.map attributes
       (List.filter
          (fun e => negb (existsb (String.eqb (Edge.u e)) seen) &&
                    negb (existsb (String.eqb (Edge.v e)) seen) &&
                    (existsb (String.eqb (Edge.u e)) nodes ||
                     existsb (String.eqb (Edge.v e)) nodes)) added)).
Proof.
  induction nodes as [|n rest IH]; intros seen Hnd Hdis.
  - simpl. rewrite (List.filter_ext _ (fun _ => false)).
    + induction added; simpl; [constructor | assumption].
    + intros e. now rewrite andb_false_r.
  - inversion Hnd as [|? ? Hn Hnd']; subst.
    assert (Hseen : existsb (String.eqb n) seen = false).
    { destruct (existsb (String.eqb n) seen) eqn:E; [|reflexivity].
      apply existsb_eqb_In in E. exfalso. apply (Hdis n); [now left | exact E]. }
    cbn [edgesFrom]. rewrite List.map_app.
    rewrite (List.filter_ext _
      (fun e => (touches n e &&
                 negb (existsb (String.eqb (otherEnd n e)) seen)) ||
                (negb (existsb (String.eqb (Edge.u e)) (n :: seen)) &&
                 negb (existsb (String.eqb (Edge.v e)) (n :: seen)) &&
                 (existsb (String.eqb (Edge.u e)) rest ||
                  existsb (String.eqb (Edge.v e)) rest)))).
    2:{ intros e. unfold touches, otherEnd. simpl.
        destruct (String.eqb_spec (Edge.u e) n) as [->|Eu];
          destruct (String.eqb_spec (Edge.v e) n) as [->|Ev];
          rewrite ?Hseen;
          repeat match goal with
                 | |- context [existsb ?f ?l] => destruct (existsb f l)
                 end; reflexivity. }
    rewrite filter_or_Permutation.
    2:{ intros e _. unfold touches. simpl.
        destruct (Edge.u e =? n)%string; simpl;
          [now rewrite andb_false_r|].
        destruct (Edge.v e =? n)%string; simpl; [|reflexivity].
        now rewrite !andb_false_r. }
    rewrite List.map_app. apply Permutation_app; [apply edges_at_node|].
    apply IH; [exact Hnd'|].
    intros x Hx [<-|Hs]; [contradiction|].
    apply (Hdis x); [now right | exact Hs].
Qed.

Lemma graphNodes_In added e :
  In e added -> In (Edge.u e) (graphNodes added) /\ In (Edge.v e) (graphNodes added).
Proof.
  intros He. unfold graphNodes. rewrite !firstOccurrences_In, !in_flat_map.
  split; (split; [exists e; split; [exact He | simpl; tauto] | intros []]).
Qed.

(** The view yields every edge of the graph once: the attribute dictionaries
    it reports are those of the edges added, in another order. *)
Lemma edgesView_attributes added :
  Permutation (List.map attributes (edgesView added))
              (List.map attributes added).
Proof.
  unfold edgesView.
  rewrite edgesFrom_attributes;
    [|apply firstOccurrences_NoDup | intros x _ []].
  rewrite (List.filter_ext_in _ (fun _ => true)).
  - assert (E : forall l : list Edge.t, List.filter (fun _ => true) l = l)
      by (induction l; simpl; congruence).
    now rewrite E.
  - intros e He. simpl.
    destruct (graphNodes_In added e He) as [Hu _].
    apply existsb_eqb_In in Hu. now rewrite Hu.
Qed.

(** An edge the view yields is an edge that was added, reported from one of
    its end points. *)
Lemma edgesFrom_In added e : forall nodes seen,
  In e (edgesFrom nodes seen added) ->
  exists e0, In e0 added /\ attributes e = attributes e0 /\
    ((Edge.u e = Edge.u e0 /\ Edge.v e = Edge.v e0) \/
     (Edge.u e = Edge.v e0 /\ Edge.v e = Edge.u e0)).
Proof.
  induction nodes as [|n rest IH]; intros seen Hin; [destruct Hin|].
  cbn [edgesFrom] in Hin. apply in_app_iff in Hin as [Hin|Hin];
    [|now apply (IH (n :: seen))].
  apply in_flat_map in Hin as (nbr & _ & Hin).
  destruct (existsb (String.eqb nbr) seen); [destruct Hin|].
  apply in_map_iff in Hin as (e0 & <- & He0).
  unfold edgesBetween in He0. apply filter_In in He0 as [He0 Hb].
  exists e0. split; [exact He0|]. split; [reflexivity|]. simpl.
  apply orb_true_iff in Hb as [Hb|Hb]; apply andb_true_iff in Hb as [H1 H2];
    apply String.eqb_eq in H1, H2; [left | right]; split; congruence.
Qed.

Lemma edgesView_In added e :
  In e (edgesView added) ->
  exists e0, In e0 added /\ attributes e = attributes e0 /\
    ((Edge.u e = Edge.u e0 /\ Edge.v e = Edge.v e0) \/
     (Edge.u e = Edge.v e0 /\ Edge.v e = Edge.u e0)).
Proof. apply edgesFrom_In. Qed.

(** Every edge that was added is yielded, from one of its end points. *)
Lemma edgesFrom_complete added e0 : In e0 added -> forall nodes seen,
  ~ In (Edge.u e0) seen -> ~ In (Edge.v e0) seen ->
  In (Edge.u e0) nodes \/ In (Edge.v e0) nodes ->
  In (report (Edge.u e0) (Edge.v e0) e0) (edgesFrom nodes seen added) \/
  In (report (Edge.v e0) (Edge.u e0) e0) (edgesFrom nodes seen added).
Proof.
  intros He0. induction nodes as [|n rest IH]; intros seen Hu Hv Hnodes;
    [destruct Hnodes as [[]|[]]|].
  cbn [edgesFrom].
  assert (Hyield : forall a b,
            ((Edge.u e0 = a /\ Edge.v e0 = b) \/
             (Edge.u e0 = b /\ Edge.v e0 = a)) ->
            a = n -> ~ In b seen ->
            In (report a b e0)
               (flat_map (fun nbr => if existsb (String.eqb nbr) seen then []
                                     else List.map (report n nbr)
                                            (edgesBetween n nbr added))
                         (neighbours n added))).
  { intros a b Hab -> Hb. apply in_flat_map. exists b. split.
    - apply neighbours_In. exists e0. split; [exact He0|].
      unfold touches, otherEnd.
      destruct Hab as [[<- <-]|[<- <-]].
      + rewrite String.eqb_refl. tauto.
      + rewrite String.eqb_refl, orb_true_r.
        destruct (String.eqb_spec (Edge.u e0) (Edge.v e0)) as [E|_];
          [now rewrite E | tauto].
    - destruct (existsb (String.eqb b) seen) eqn:E;
        [apply existsb_eqb_In in E; contradiction|].
      apply in_map. unfold edgesBetween. apply filter_In. split; [exact He0|].
      destruct Hab as [[<- <-]|[<- <-]]; rewrite !String.eqb_refl; simpl;
        [reflexivity | apply orb_true_r]. }
  destruct (string_dec (Edge.u e0) n) as [Eu|Eu].
  - left. apply in_app_iff. left. apply Hyield; tauto.
  - destruct (string_dec (Edge.v e0) n) as [Ev|Ev].
    + right. apply in_app_iff. left. apply Hyield; tauto.
    + destruct (IH (n :: seen)) as [H|H].
      * intros [E|H]; [congruence | contradiction].
      * intros [E|H]; [congruence | contradiction].
      * destruct Hnodes as [[E|H]|[E|H]]; [congruence | tauto | congruence | tauto].
      * left. apply in_app_iff. now right.
      * right. apply in_app_iff. now right.
Qed.

Lemma edgesView_complete added e0 :
  In e0 added ->
  In (report (Edge.u e0) (Edge.v e0) e0) (edgesView added) \/
  In (report (Edge.v e0) (Edge.u e0) e0) (edgesView added).
Proof.
  intros He0. apply edgesFrom_complete; [exact He0 | intros [] | intros [] |].
  left. now apply graphNodes_In.
Qed.

(** The board that a game iterates, the edges of the graph of [initBoard] as
    [edges(data=True)] yields them, holds routes of the file and nothing
    else: every edge it yields has the attribute dictionary (weight, colour,
    owner [None], index) of a route of the file and joins the two cities of
    that route, reported in one direction or the other; with four players
    the dictionaries yielded are those of all the routes of the file, each
    once, in some order; and route indices that are pairwise distinct in the
    file are pairwise distinct on the board. *)
Theorem built_board_holds_the_routes (routes : list Route.t) (players : Z) :
  let board := edgesView (initBoard routes players) in
  (forall e, In e board ->
     exists r, In r routes /\
       attributes e = attributes (edgeOfRoute r) /\
       Edge.owner e = None /\
       ((Edge.u e = Route.city1 r /\ Edge.v e = Route.city2 r) \/
        (Edge.u e = Route.city2 r /\ Edge.v e = Route.city1 r))) /\
  (players = 4 ->
   Permutation (List.map attributes board)
               (List.map (fun r => attributes (edgeOfRoute r)) routes)) /\
  (List.NoDup (List.map Route.index routes) ->
   List.NoDup (List.map Edge.index board)).
Proof.
  cbv zeta. split; [|split].
  - intros e He.
    apply edgesView_In in He as (e0 & He0 & Hattr & Hends).
    apply (sublist_In _ _ _ (initBoard_sublist routes players)) in He0.
    apply in_map_iff in He0 as (r & <- & Hr).
    exists r. split; [exact Hr|]. split; [exact Hattr|].
    split; [|exact Hends].
    unfold attributes in Hattr. simpl in Hattr. congruence.
  - intros ->. rewrite edgesView_attributes. unfold initBoard. simpl.
    now rewrite List.map_map.
  - intros Hnd.
    assert (Hidx : forall l : list Edge.t,
              List.map Edge.index l = List.map snd (List.map attributes l)).
    { intros l. rewrite List.map_map. reflexivity. }
    rewrite Hidx.
    eapply Permutation_NoDup;
      [apply Permutation_map; symmetry; apply edgesView_attributes|].
    rewrite <- Hidx.
    apply (sublist_map_NoDup _ _ _ (initBoard_sublist routes players)).
    rewrite List.map_map. exact Hnd.
Qed.

Lemma built_board_holds_the_routes_witness :
  List.map Edge.index (edgesView (initBoard sampleRoutes 4)) = [0; 2; 1] /\
  List.map Edge.u (edgesView (initBoard sampleRoutes 4))
    = ["Duluth"; "Duluth"; "Denver"] /\
  Permutation
    (List.map attributes (edgesView (initBoard sampleRoutes 4)))
    (List.map (fun r => attributes (edgeOfRoute r)) sampleRoutes) /\
  List.NoDup (List.map Edge.index (edgesView (initBoard sampleRoutes 3))).
Proof.
  split; [reflexivity|]. split; [reflexivity|]. split.
  - apply (proj1 (proj2 (built_board_holds_the_routes sampleRoutes 4))).
    reflexivity.
  - apply (proj2 (proj2 (built_board_holds_the_routes sampleRoutes 3))).
    repeat constructor; simpl; intuition discriminate.
Defined.

(** No route of the board a game iterates is offered: the edges the graph
    of [initBoard] yields have owner [None], whatever their order and
    direction, and [validMoves] skips them. *)
Lemma built_board_offers_no_claim (routes : list Route.t) (players : Z)
    (self : Game.t Agent.t) :
  Game.board self = edgesView (initBoard routes players) ->
  Game.movePerforming self = None ->
  forall route colorsUsed,
    ~ In (PlaceRoute route colorsUsed) (fst (validMoves self)).
Proof.
  intros Hboard Hfree route cols Hin.
  destruct (Game.gameOver self) eqn:Hover.
  - rewrite validMoves_over in Hin by exact Hover. destruct Hin.
  - rewrite validMoves_fst_live in Hin by exact Hover.
    apply actionList_free_place in Hin as (e & He & Ha); [|exact Hfree].
    rewrite routeActions_owner_None in Ha; [destruct Ha|].
    rewrite Hboard in He.
    apply edgesView_In in He as (e0 & He0 & Hattr & _).
    pose proof (initBoard_owner_None routes players) as Hall.
    rewrite List.Forall_forall in Hall. apply Hall in He0.
    unfold attributes in Hattr. congruence.
Qed.

Lemma initBoard_fold_no_parallel routes : forall board,
  (forall i j e1 e2, (i < j)%nat ->
     board !! i = Some e1 -> board !! j = Some e2 ->
     has_edge [e1] (Edge.u e2) (Edge.v e2) = false) ->
  forall i j e1 e2, (i < j)%nat ->
    fold_left (fun board route =>
                 if has_edge board (Route.city1 route) (Route.city2 route)
                 then board else board ++ [edgeOfRoute route])
              routes board !! i = Some e1 ->
    fold_left (fun board route =>
                 if has_edge board (Route.city1 route) (Route.city2 route)
                 then board else board ++ [edgeOfRoute route])
              routes board !! j = Some e2 ->
    has_edge [e1] (Edge.u e2) (Edge.v e2) = false.
Proof.
  induction routes as [|r routes IH]; intros board Hb; simpl; [exact Hb|].
  destruct (has_edge board (Route.city1 r) (Route.city2 r)) eqn:Hhas;
    [now apply IH|].
  apply IH. intros i j e1 e2 Hij H1 H2.
  apply lookup_app_Some in H2 as [H2|[Hj H2]].
  - apply lookup_app_Some in H1 as [H1|[Hi _]].
    + now apply (Hb i j).
    + apply lookup_lt_Some in H2. lia.
  - apply list_lookup_singleton_Some in H2 as [Hj0 <-].
    apply lookup_app_Some in H1 as [H1|[Hi _]]; [|lia].
    simpl Edge.u. simpl Edge.v.
    destruct (has_edge [e1] (Route.city1 r) (Route.city2 r)) eqn:E;
      [|reflexivity].
    apply has_edge_true in E as (e & [<-|[]] & He).
    assert (Hin : has_edge board (Route.city1 r) (Route.city2 r) = true).
    { apply has_edge_true. exists e1. split; [|exact He].
      apply list_elem_of_In. eapply list_elem_of_lookup_2. exact H1. }
    congruence.
Qed.

(** With other than four players the board has no parallel routes: no two
    of its edges join the same two cities, in either direction. *)
Theorem initBoard_no_parallel_edges (routes : list Route.t) (players : Z)
    (i j : nat) (e1 e2 : Edge.t) :
  players <> 4 -> i <> j ->
  initBoard routes players !! i = Some e1 ->
  initBoard routes players !! j = Some e2 ->
  ~ ((Edge.u e1 = Edge.u e2 /\ Edge.v e1 = Edge.v e2) \/
     (Edge.u e1 = Edge.v e2 /\ Edge.v e1 = Edge.u e2)).
Proof.
  intros Hp Hij H1 H2 Hjoin. unfold initBoard in H1, H2.
  destruct (Z.eqb_spec players 4); [contradiction|].
  assert (Hbase : forall i j e1 e2, (i < j)%nat ->
            ([] : list Edge.t) !! i = Some e1 -> ([] : list Edge.t) !! j = Some e2 ->
            has_edge [e1] (Edge.u e2) (Edge.v e2) = false)
    by (intros ? ? ? ? _ H; discriminate).
  destruct (Nat.lt_total i j) as [Hlt|[Heq|Hlt]]; [|contradiction|].
  - pose proof (initBoard_fold_no_parallel routes [] Hbase i j e1 e2 Hlt H1 H2)
      as Hno.
    assert (Hyes : has_edge [e1] (Edge.u e2) (Edge.v e2) = true).
    { apply has_edge_true. exists e1. split; [now left | exact Hjoin]. }
    congruence.
  - pose proof (initBoard_fold_no_parallel routes [] Hbase j i e2 e1 Hlt H2 H1)
      as Hno.
    assert (Hyes : has_edge [e2] (Edge.u e1) (Edge.v e1) = true).
    { apply has_edge_true. exists e2. split; [now left|].
      destruct Hjoin as [[-> ->]|[-> ->]]; auto. }
    congruence.
Qed.

Lemma initBoard_no_parallel_edges_witness :
  let routes :=
    [ {| Route.city1 := "Duluth"; Route.city2 := "Omaha"; Route.weight := 2;
         Route.color := "GRAY"; Route.index := 0 |};
      {| Route.city1 := "Omaha"; Route.city2 := "Duluth"; Route.weight := 2;
         Route.color := "GRAY"; Route.index := 1 |};
      {| Route.city1 := "Omaha"; Route.city2 := "Denver"; Route.weight := 4;
         Route.color := "PINK"; Route.index := 2 |} ] in
  ~ (("Duluth" = "Omaha" /\ "Omaha" = "Denver") \/
     ("Duluth" = "Denver" /\ "Omaha" = "Omaha")).
Proof.
  cbv zeta.
  apply (initBoard_no_parallel_edges
           [ {| Route.city1 := "Duluth"; Route.city2 := "Omaha";
                Route.weight := 2; Route.color := "GRAY"; Route.index := 0 |};
             {| Route.city1 := "Omaha"; Route.city2 := "Duluth";
                Route.weight := 2; Route.color := "GRAY"; Route.index := 1 |};
             {| Route.city1 := "Omaha"; Route.city2 := "Denver";
                Route.weight := 4; Route.color := "PINK"; Route.index := 2 |} ]
           2 0%nat 1%nat
           (edgeOfRoute {| Route.city1 := "Duluth"; Route.city2 := "Omaha";
                Route.weight := 2; Route.color := "GRAY"; Route.index := 0 |})
           (edgeOfRoute {| Route.city1 := "Omaha"; Route.city2 := "Denver";
                Route.weight := 4; Route.color := "PINK"; Route.index := 2 |}));
    [lia | lia | reflexivity | reflexivity].
Defined.

Lemma initBoard_fold_connects routes : forall board,
  (forall a b, has_edge board a b = true ->
     has_edge (fold_left
                 (fun board route =>
                    if has_edge board (Route.city1 route) (Route.city2 route)
                    then board else board ++ [edgeOfRoute route])
                 routes board) a b = true) /\
  (forall r, In r routes ->
     has_edge (fold_left
                 (fun board route =>
                    if has_edge board (Route.city1 route) (Route.city2 route)
                    then board else board ++ [edgeOfRoute route])
                 routes board) (Route.city1 r) (Route.city2 r) = true).
Proof.
  induction routes as [|r routes IH]; intros board; simpl.
  - split; [auto | intros r []].
  - destruct (has_edge board (Route.city1 r) (Route.city2 r)) eqn:Hhas.
    + destruct (IH board) as [Hmono Hall]. split; [exact Hmono|].
      intros r' [<-|Hin]; [now apply Hmono | now apply Hall].
    + destruct (IH (board ++ [edgeOfRoute r])) as [Hmono Hall].
      assert (Hgrow : forall a b, has_edge board a b = true ->
                has_edge (board ++ [edgeOfRoute r]) a b = true).
      { intros a b H. unfold has_edge in *. rewrite existsb_app, H.
        reflexivity. }
      split; [intros a b H; now apply Hmono, Hgrow|].
      intros r' [<-|Hin]; [|now apply Hall].
      apply Hmono. apply has_edge_true. exists (edgeOfRoute r).
      split; [apply in_or_app; right; now left | left; split; reflexivity].
Qed.

(** No connection of the map is lost: whatever the number of players, for
    every route of the file the board has an edge between its two cities. *)
Theorem initBoard_connects_every_route (routes : list Route.t) (players : Z)
    (r : Route.t) :
  In r routes ->
  exists e, In e (initBoard routes players) /\
    ((Edge.u e = Route.city1 r /\ Edge.v e = Route.city2 r) \/
     (Edge.u e = Route.city2 r /\ Edge.v e = Route.city1 r)).
Proof.
  intros Hin. apply has_edge_true. unfold initBoard.
  destruct (players =? 4).
  - apply has_edge_true. exists (edgeOfRoute r).
    split; [now apply in_map | left; split; reflexivity].
  - now apply initBoard_fold_connects.
Qed.

Lemma initBoard_connects_every_route_witness :
  let kept := {| Route.city1 := "Duluth"; Route.city2 := "Omaha";
                 Route.weight := 2; Route.color := "GRAY"; Route.index := 0 |} in
  let dropped := {| Route.city1 := "Omaha"; Route.city2 := "Duluth";
                    Route.weight := 2; Route.color := "RED"; Route.index := 1 |} in
  ~ In (edgeOfRoute dropped) (initBoard [kept; dropped] 2) /\
  exists e, In e (initBoard [kept; dropped] 2) /\
    ((Edge.u e = "Omaha" /\ Edge.v e = "Duluth") \/
     (Edge.u e = "Duluth" /\ Edge.v e = "Omaha")).
Proof.
  cbv zeta. split.
  - simpl. intros [H|[]]. discriminate.
  - apply (initBoard_connects_every_route
             [ {| Route.city1 := "Duluth"; Route.city2 := "Omaha";
                  Route.weight := 2; Route.color := "GRAY"; Route.index := 0 |};
               {| Route.city1 := "Omaha"; Route.city2 := "Duluth";
                  Route.weight := 2; Route.color := "RED"; Route.index := 1 |} ]
             2
             {| Route.city1 := "Omaha"; Route.city2 := "Duluth";
                Route.weight := 2; Route.color := "RED"; Route.index := 1 |}).
    right. left. reflexivity.
Defined.

(** ** The loaders *)

Section LoaderFacts.
Variable re_search : string -> string -> option (nat -> string).
Variable strip : string -> string.
Variable int : string -> Z.

Lemma getRoutes_loop_ok lines : forall index routes,
  getRoutes_loop re_search strip int lines index = Some routes ->
  length routes = length lines /\
  forall k r, routes !! k = Some r -> Route.index r = index + Z.of_nat k.
Proof.
  induction lines as [|line lines IH]; intros index routes; simpl.
  - intros [= <-]. split; [reflexivity | intros k r H; discriminate].
  - destruct (re_search _ line) as [group|]; [|discriminate].
    destruct (getRoutes_loop re_search strip int lines (index + 1))
      as [paths|] eqn:E; [|discriminate].
    intros [= <-]. destruct (IH _ _ E) as [Hlen Hidx].
    split; [simpl; now rewrite Hlen|].
    intros [|k] r H; simpl in H.
    + injection H as <-. simpl. lia.
    + rewrite (Hidx k r H). lia.
Qed.

Lemma getRoutes_loop_None lines : forall index,
  getRoutes_loop re_search strip int lines index = None <->
  exists line, In line lines /\
               re_search "(^\D+)(\d)\W+(\w+)\W+(.+)" line = None.
Proof.
  induction lines as [|line lines IH]; intros index; simpl.
  - split; [discriminate | intros (l & [] & _)].
  - destruct (re_search _ line) as [group|] eqn:E.
    + destruct (getRoutes_loop re_search strip int lines (index + 1))
        as [paths|] eqn:E'.
      * split; [discriminate|]. intros (l & [<-|Hl] & Hnone); [congruence|].
        assert (H : getRoutes_loop re_search strip int lines (index + 1) = None)
          by (apply IH; eauto).
        congruence.
      * split; [|reflexivity]. intros _.
        apply IH in E' as (l & Hl & Hnone). eauto.
    + split; [|reflexivity]. intros _. eauto.
Qed.

Lemma indices_by_position_NoDup {A} (f : A -> Z) (l : list A) :
  (forall k x, l !! k = Some x -> f x = Z.of_nat k) ->
  List.NoDup (List.map f l).
Proof.
  intros H. apply NoDup_nth_error. intros i j Hi E.
  rewrite length_map in Hi.
  rewrite !nth_error_map in E.
  destruct (nth_error l i) as [x|] eqn:Ex;
    [|apply nth_error_None in Ex; lia].
  destruct (nth_error l j) as [y|] eqn:Ey; [|discriminate].
  injection E as E.
  assert (Hx : l !! i = Some x).
  { clear -Ex. revert i Ex. induction l; intros [|i]; simpl; auto;
      discriminate. }
  assert (Hy : l !! j = Some y).
  { clear -Ey. revert j Ey. induction l; intros [|j]; simpl; auto;
      discriminate. }
  rewrite (H _ _ Hx), (H _ _ Hy) in E. lia.
Qed.

(** [getRoutes] fails exactly when the pattern matches some line of the file
    not at all.  When it succeeds there is one route for every line, in file
    order, and the route of line [k], counting from zero, has index [k]: the
    indices are pairwise distinct. *)
Theorem getRoutes_numbers_the_lines (lines : list string) :
  (getRoutes re_search strip int lines = None <->
   exists line, In line lines /\
                re_search "(^\D+)(\d)\W+(\w+)\W+(.+)" line = None) /\
  (forall routes,
     getRoutes re_search strip int lines = Some routes ->
     length routes = length lines /\
     (forall k r, routes !! k = Some r -> Route.index r = Z.of_nat k) /\
     List.NoDup (List.map Route.index routes)).
Proof.
  split; [apply getRoutes_loop_None|].
  intros routes H. apply getRoutes_loop_ok in H as [Hlen Hidx].
  split; [exact Hlen|].
  assert (Hidx' : forall k r, routes !! k = Some r ->
                    Route.index r = Z.of_nat k)
    by (intros k r Hk; rewrite (Hidx k r Hk); lia).
  split; [exact Hidx' | now apply indices_by_position_NoDup].
Qed.

Lemma getDestinationCards_loop_ok lines : forall index cards,
  getDestinationCards_loop re_search strip int lines index = Some cards ->
  length cards = length lines /\
  forall k c, cards !! k = Some c -> Destination.index c = index + Z.of_nat k.
Proof.
  induction lines as [|line lines IH]; intros index cards; simpl.
  - intros [= <-]. split; [reflexivity | intros k r H; discriminate].
  - destruct (re_search _ line) as [group|]; [|discriminate].
    destruct (getDestinationCards_loop re_search strip int lines (index + 1))
      as [rest|] eqn:E; [|discriminate].
    intros [= <-]. destruct (IH _ _ E) as [Hlen Hidx].
    split; [simpl; now rewrite Hlen|].
    intros [|k] r H; simpl in H.
    + injection H as <-. simpl. lia.
    + rewrite (Hidx k r H). lia.
Qed.

Lemma getDestinationCards_loop_None lines : forall index,
  getDestinationCards_loop re_search strip int lines index = None <->
  exists line, In line lines /\ re_search "(^\D+)(\d+)\s(.+)" line = None.
Proof.
  induction lines as [|line lines IH]; intros index; simpl.
  - split; [discriminate | intros (l & [] & _)].
  - destruct (re_search _ line) as [group|] eqn:E.
    + destruct (getDestinationCards_loop re_search strip int lines (index + 1))
        as [rest|] eqn:E'.
      * split; [discriminate|]. intros (l & [<-|Hl] & Hnone); [congruence|].
        assert (H : getDestinationCards_loop re_search strip int lines
                      (index + 1) = None)
          by (apply IH; eauto).
        congruence.
      * split; [|reflexivity]. intros _.
        apply IH in E' as (l & Hl & Hnone). eauto.
    + split; [|reflexivity]. intros _. eauto.
Qed.

(** [getDestinationCards] fails exactly when the pattern matches some line
    not at all; when it succeeds there is one card for every line, in file
    order, and the card of line [k] has index [k]. *)
Theorem getDestinationCards_numbers_the_lines (lines : list string) :
  (getDestinationCards re_search strip int lines = None <->
   exists line, In line lines /\ re_search "(^\D+)(\d+)\s(.+)" line = None) /\
  (forall cards,
     getDestinationCards re_search strip int lines = Some cards ->
     length cards = length lines /\
     (forall k c, cards !! k = Some c -> Destination.index c = Z.of_nat k) /\
     List.NoDup (List.map Destination.index cards)).
Proof.
  split; [apply getDestinationCards_loop_None|].
  intros cards H. apply getDestinationCards_loop_ok in H as [Hlen Hidx].
  split; [exact Hlen|].
  assert (Hidx' : forall k c, cards !! k = Some c ->
                    Destination.index c = Z.of_nat k)
    by (intros k c Hk; rewrite (Hidx k c Hk); lia).
  split; [exact Hidx' | now apply indices_by_position_NoDup].
Qed.

(** The board built from a file that loaded has pairwise distinct route
    indices, for every number of players. *)
Theorem loaded_board_indices_distinct (lines : list string)
    (routes : list Route.t) (players : Z) :
  getRoutes re_search strip int lines = Some routes ->
  List.NoDup (List.map Edge.index (initBoard routes players)).
Proof.
  intros H.
  assert (Hsub : sublist (initBoard routes players)
                         (List.map edgeOfRoute routes)).
  { unfold initBoard. destruct (players =? 4); [reflexivity|].
    destruct (initBoard_fold_sublist routes []) as (kept & -> & Hs).
    exact Hs. }
  apply (sublist_map_NoDup _ _ _ Hsub). rewrite List.map_map.
  apply getRoutes_loop_ok in H as [_ Hidx].
  apply indices_by_position_NoDup.
  intros k r Hk. cbn. rewrite (Hidx k r Hk). lia.
Qed.

End LoaderFacts.

Lemma getRoutes_numbers_the_lines_witness :
  exists routes,
    getRoutes sampleSearch (fun s => s) (fun _ => 3) ["Duluth"; "Omaha"]
      = Some routes /\
    List.map Route.index routes = [0; 1] /\
    List.NoDup (List.map Route.index routes).
Proof.
  destruct (getRoutes sampleSearch (fun s => s) (fun _ => 3)
                      ["Duluth"; "Omaha"]) as [routes|] eqn:E;
    [|discriminate].
  exists routes. split; [reflexivity|].
  split; [vm_compute in E; injection E as <-; reflexivity|].
  exact (proj2 (proj2 (proj2 (getRoutes_numbers_the_lines
                                sampleSearch (fun s => s) (fun _ => 3)
                                ["Duluth"; "Omaha"]) routes E))).
Defined.

Lemma getDestinationCards_numbers_the_lines_witness :
  exists cards,
    getDestinationCards sampleSearch (fun s => s) (fun _ => 3)
                        ["Duluth"; "Omaha"] = Some cards /\
    List.map Destination.index cards = [0; 1] /\
    List.NoDup (List.map Destination.index cards).
Proof.
  destruct (getDestinationCards sampleSearch (fun s => s) (fun _ => 3)
                                ["Duluth"; "Omaha"]) as [cards|] eqn:E;
    [|discriminate].
  exists cards. split; [reflexivity|].
  split; [vm_compute in E; injection E as <-; reflexivity|].
  exact (proj2 (proj2 (proj2 (getDestinationCards_numbers_the_lines
                                sampleSearch (fun s => s) (fun _ => 3)
                                ["Duluth"; "Omaha"]) cards E))).
Defined.

Lemma loaded_board_indices_distinct_witness :
  exists routes,
    getRoutes sampleSearch (fun s => s) (fun _ => 3)
              ["Duluth"; "Omaha"; "Duluth"] = Some routes /\
    List.map Edge.index (initBoard routes 2) = [0; 1] /\
    List.NoDup (List.map Edge.index (initBoard routes 2)).
Proof.
  destruct (getRoutes sampleSearch (fun s => s) (fun _ => 3)
                      ["Duluth"; "Omaha"; "Duluth"]) as [routes|] eqn:E;
    [|discriminate].
  exists routes. split; [reflexivity|].
  split; [vm_compute in E; injection E as <-; reflexivity|].
  exact (loaded_board_indices_distinct sampleSearch (fun s => s) (fun _ => 3)
           ["Duluth"; "Omaha"; "Duluth"] routes 2 E).
Defined.

(** ** Constructing a game *)

Lemma draw_split {A} (n : Z) (d : Deck A) :
  0 < n -> n <= count d ->
  exists drawn d',
    draw n d = (Returned drawn, d') /\
    Z.of_nat (length drawn) = n /\
    count d' = count d - n /\
    cards d = cards d' ++ rev drawn.
Proof.
  intros Hn Hle. rewrite draw_enough by lia. do 2 eexists.
  split; [reflexivity|]. unfold count in *. cbn [cards].
  rewrite length_firstn, !length_rev, length_skipn, ?length_rev.
  split; [lia|]. split; [lia|].
  rewrite <- rev_app_distr, firstn_skipn, rev_involutive. reflexivity.
Qed.

(** Dealing to any list of players, when the deck holds four cards for each:
    the deck loses four cards per entry of the list. *)
Lemma dealHands_count (players : list nat) : forall i deck heap,
  4 * Z.of_nat (length players) <= count deck ->
  exists deck' heap',
    dealHands players i (deck, heap) = (Returned tt, (deck', heap')) /\
    count deck' = count deck - 4 * Z.of_nat (length players) /\
    length heap' = length heap.
Proof.
  induction players as [|player rest IH]; intros i deck heap Hdeck.
  - exists deck, heap. simpl. repeat split. lia.
  - cbn [length] in Hdeck.
    destruct (draw_split 4 deck) as (hand & deck1 & Hdraw & _ & Hcount & _);
      [lia | lia |].
    cbn [dealHands]. rewrite Hdraw.
    destruct (IH (i + 1) deck1
                 (alter (set_trainCards hand) player
                        (alter (set_turnOrder i) player heap)))
      as (deck' & heap' & Hdeal & Hc & Hlen); [lia|].
    exists deck', heap'. split; [exact Hdeal|].
    rewrite !length_alter in Hlen. split; [|exact Hlen].
    cbn [length]. lia.
Qed.

(** Dealing to players that are pairwise distinct objects: the hands come
    off the deck one after the other, the player at position [k] gets the
    turn order [i + k] and the [k]-th hand, and no other agent changes. *)
Lemma dealHands_spec (players : list nat) : forall i deck heap,
  4 * Z.of_nat (length players) <= count deck ->
  List.NoDup players ->
  Forall (fun p => (p < length heap)%nat) players ->
  exists hands deck' heap',
    dealHands players i (deck, heap) = (Returned tt, (deck', heap')) /\
    length hands = length players /\
    Forall (fun h => length h = 4%nat) hands /\
    cards deck = cards deck' ++ rev (concat hands) /\
    (forall k p h, players !! k = Some p -> hands !! k = Some h ->
       heap' !!! p =
       set_trainCards h (set_turnOrder (i + Z.of_nat k) (heap !!! p))) /\
    (forall p, ~ In p players -> heap' !!! p = heap !!! p).
Proof.
  induction players as [|player rest IH]; intros i deck heap Hdeck Hnd Hvalid.
  - exists [], deck, heap. simpl. split; [reflexivity|].
    split; [reflexivity|]. split; [constructor|].
    split; [now rewrite app_nil_r|].
    split; [intros k p h H; discriminate | reflexivity].
  - cbn [length] in Hdeck.
    apply NoDup_cons_iff in Hnd as [Hnotin Hnd].
    apply Forall_cons in Hvalid as [Hplayer Hvalid].
    destruct (draw_split 4 deck) as (hand & deck1 & Hdraw & Hhand & Hc & Hcards);
      [lia | lia |].
    cbn [dealHands]. rewrite Hdraw.
    destruct (IH (i + 1) deck1
                 (alter (set_trainCards hand) player
                        (alter (set_turnOrder i) player heap)))
      as (hands & deck' & heap' & Hdeal & Hlen & Hfour & Hcards' & Hat & Hframe);
      [lia | exact Hnd | |].
    { eapply Forall_impl; [exact Hvalid|]. intros p Hp. simpl.
      now rewrite !length_alter. }
    exists (hand :: hands), deck', heap'. split; [exact Hdeal|].
    split; [simpl; now rewrite Hlen|].
    split; [constructor; [lia | exact Hfour]|].
    split.
    { rewrite Hcards, Hcards'. simpl concat.
      now rewrite rev_app_distr, app_assoc. }
    split.
    + intros [|k] p h Hp Hh; simpl in Hp, Hh.
      * injection Hp as <-. injection Hh as <-.
        rewrite (Hframe player Hnotin).
        rewrite list_lookup_total_alter_eq by (rewrite length_alter; lia).
        rewrite list_lookup_total_alter_eq by lia.
        now rewrite Z.add_0_r.
      * rewrite (Hat k p h Hp Hh).
        assert (Hne : player <> p).
        { intros ->. apply Hnotin. apply list_elem_of_In.
          eapply list_elem_of_lookup_2. exact Hp. }
        rewrite !list_lookup_total_alter_ne by exact Hne.
        f_equal. f_equal. lia.
    + intros p Hp. rewrite Hframe by (intros H; apply Hp; now right).
      assert (Hne : player <> p) by (intros ->; apply Hp; now left).
      now rewrite !list_lookup_total_alter_ne by exact Hne.
Qed.

Section GameInitLoading.
Variable permuteCards : list string -> list string.
Variable permuteDests : list Destination.t -> list Destination.t.
Variable getRoutes : string -> outcome (list Route.t).
Variable getDestinationCards : string -> outcome (list Destination.t).
Hypothesis permuteCards_perm : forall l, Permutation (permuteCards l) l.

(** The steps of the constructor when both files load and the number of
    players is in range. *)
Lemma Game_init_with_returns map players logs drawGame heap routes dests :
  getRoutes map = Returned routes ->
  getDestinationCards map = Returned dests ->
  2 <= Z.of_nat (length players) <= 4 ->
  exists faceUp deck1 deck2 heap' first,
    draw 5 (trainCarDeck permuteCards) = (Returned faceUp, deck1) /\
    Z.of_nat (length faceUp) = 5 /\
    count deck1 = 105 /\
    cards (trainCarDeck permuteCards) = cards deck1 ++ rev faceUp /\
    dealHands players 0 (deck1, heap) = (Returned tt, (deck2, heap')) /\
    head players = Some first /\
    Game_init_with permuteCards permuteDests getRoutes getDestinationCards
                   map players logs drawGame heap =
    (Returned
       {| Game.map := map;
          Game.doLogs := logs;
          Game.drawGame := drawGame;
          Game.gameOver := false;
          Game.lastTurn := false;
          Game.endedGame := None;
          Game.colorPicked := None;
          Game.turn := 1 - Z.of_nat (length players);
          Game.wildPicked := false;
          Game.gameLogs := [];
          Game.trainCarDeck := deck2;
          Game.destinationDeal := None;
          Game.movePerforming := Some AskForDeal;
          Game.board :=
            edgesView (initBoard routes (Z.of_nat (length players)));
          Game.faceUpCards := faceUp;
          Game.destinationCards := permuteDests dests;
          Game.destinationsDeck := {| cards := permuteDests dests |};
          Game.players := players;
          Game.makingNextMove := first |}, heap').
Proof using permuteCards_perm.
  intros Hroutes Hdests Hn. unfold Game_init_with. rewrite Hroutes.
  destruct (draw_split 5 (trainCarDeck permuteCards))
    as (faceUp & deck1 & Hdraw & Hface & Hcount & Hcards);
    [lia | rewrite trainCarDeck_count by exact permuteCards_perm; lia |].
  rewrite trainCarDeck_count in Hcount by exact permuteCards_perm.
  rewrite Hdraw, Hdests. unfold Deck_init, random_shuffle. cbn [fst snd].
  replace ((2 <=? Z.of_nat (length players)) &&
           (Z.of_nat (length players) <=? 4)) with true
    by (symmetry; apply andb_true_intro; split; apply Z.leb_le; lia).
  destruct (dealHands_count players 0 deck1 heap)
    as (deck2 & heap' & Hdeal & _ & _); [lia|].
  rewrite Hdeal.
  destruct players as [|first rest]; [simpl in Hn; lia|].
  exists faceUp, deck1, deck2, heap', first.
  repeat (split; [first [assumption | reflexivity | lia]|]).
  reflexivity.
Qed.

(** The constructor when both files load and the number of players is out
    of range. *)
Lemma Game_init_with_out_of_range map players logs drawGame heap routes dests :
  getRoutes map = Returned routes ->
  getDestinationCards map = Returned dests ->
  ~ (2 <= Z.of_nat (length players) <= 4) ->
  Game_init_with permuteCards permuteDests getRoutes getDestinationCards
                 map players logs drawGame heap
  = (Raised (SystemExit "ERROR: Game must have 2-4 players"), heap).
Proof using permuteCards_perm.
  intros Hroutes Hdests Hn. unfold Game_init_with. rewrite Hroutes.
  destruct (draw_split 5 (trainCarDeck permuteCards))
    as (faceUp & deck1 & Hdraw & _);
    [lia | rewrite trainCarDeck_count by exact permuteCards_perm; lia |].
  rewrite Hdraw, Hdests. unfold Deck_init, random_shuffle. cbn [fst snd].
  replace ((2 <=? Z.of_nat (length players)) &&
           (Z.of_nat (length players) <=? 4)) with false; [reflexivity|].
  symmetry. apply andb_false_iff.
  destruct (Z.leb_spec 2 (Z.of_nat (length players))); [|now left].
  right. apply Z.leb_gt. lia.
Qed.

(** The constructor when a file does not load: the exception of the loader
    leaves the constructor, whatever the number of players. *)
Lemma Game_init_with_no_routes map players logs drawGame heap e :
  getRoutes map = Raised e ->
  Game_init_with permuteCards permuteDests getRoutes getDestinationCards
                 map players logs drawGame heap = (Raised e, heap).
Proof using Type.
  intros Hroutes. unfold Game_init_with. now rewrite Hroutes.
Qed.

Lemma Game_init_with_no_destinations map players logs drawGame heap routes e :
  getRoutes map = Returned routes ->
  getDestinationCards map = Raised e ->
  Game_init_with permuteCards permuteDests getRoutes getDestinationCards
                 map players logs drawGame heap = (Raised e, heap).
Proof using permuteCards_perm.
  intros Hroutes Hdests. unfold Game_init_with. rewrite Hroutes.
  destruct (draw_split 5 (trainCarDeck permuteCards))
    as (faceUp & deck1 & Hdraw & _);
    [lia | rewrite trainCarDeck_count by exact permuteCards_perm; lia |].
  now rewrite Hdraw, Hdests.
Qed.

(** The constructor loads the two files of the map before it looks at the
    number of players.  When the routes do not load, or the routes load and
    the destinations do not, the exception of the loader leaves the
    constructor and no agent has been touched, whatever the number of
    players.  When both load, the constructor succeeds exactly for two to
    four players: with another number it raises [SystemExit] and no agent has
    been touched; with two to four it returns a game that is not over, whose
    turn counter is one minus the number of players, whose move in progress
    is the request for a destination deal, with five face-up cards,
    [105 - 4 * n] cards in the train car deck, the board as the graph of
    [initBoard] yields its edges, the players it was given, the first of them
    to move, and a destination list that was shuffled together with the
    destination deck. *)
Theorem Game_init_fresh_state map players logs drawGame heap :
  let n := Z.of_nat (length players) in
  let init :=
    Game_init_with permuteCards permuteDests getRoutes getDestinationCards
                   map players logs drawGame heap in
  (forall e, getRoutes map = Raised e -> init = (Raised e, heap)) /\
  (forall routes e,
     getRoutes map = Returned routes ->
     getDestinationCards map = Raised e -> init = (Raised e, heap)) /\
  (forall routes dests,
     getRoutes map = Returned routes ->
     getDestinationCards map = Returned dests ->
     (~ (2 <= n <= 4) ->
      init = (Raised (SystemExit "ERROR: Game must have 2-4 players"), heap)) /\
     (2 <= n <= 4 ->
      exists new heap',
        init = (Returned new, heap') /\
        length heap' = length heap /\
        Game.gameOver new = false /\
        Game.turn new = 1 - n /\
        Game.movePerforming new = Some AskForDeal /\
        Game.destinationDeal new = None /\
        Z.of_nat (length (Game.faceUpCards new)) = 5 /\
        count (Game.trainCarDeck new) = 105 - 4 * n /\
        Game.board new = edgesView (initBoard routes n) /\
        Game.players new = players /\
        head players = Some (Game.makingNextMove new) /\
        cards (Game.destinationsDeck new) = Game.destinationCards new /\
        Game.destinationCards new = permuteDests dests)).
Proof using permuteCards_perm.
  cbv zeta. split; [|split].
  - intros e. apply Game_init_with_no_routes.
  - intros routes e. apply Game_init_with_no_destinations.
  - intros routes dests Hroutes Hdests. split.
    + now apply (Game_init_with_out_of_range _ _ _ _ _ routes dests).
    + intros Hn.
      destruct (Game_init_with_returns map players logs drawGame heap
                                       routes dests Hroutes Hdests Hn)
        as (faceUp & deck1 & deck2 & heap' & first & _ & Hface & Hc1 & _ &
            Hdeal & Hfirst & Hinit).
      destruct (dealHands_count players 0 deck1 heap)
        as (deck2' & heap'' & Hdeal' & Hc2 & Hlen); [lia|].
      rewrite Hdeal in Hdeal'. injection Hdeal' as <- <-.
      do 2 eexists. split; [exact Hinit|]. cbn.
      repeat (split; [first [assumption | reflexivity | lia]|]).
      reflexivity.
Qed.

End GameInitLoading.

Section GameInitFacts.
Variable permuteCards : list string -> list string.
Variable permuteDests : list Destination.t -> list Destination.t.
Variable getRoutes : string -> list Route.t.
Variable getDestinationCards : string -> list Destination.t.
Hypothesis permuteCards_perm : forall l, Permutation (permuteCards l) l.

(** The steps of the constructor, for a map that loads, when the number of
    players is in range. *)
Lemma Game_init_returns map players logs drawGame heap :
  2 <= Z.of_nat (length players) <= 4 ->
  exists faceUp deck1 deck2 heap' first,
    draw 5 (trainCarDeck permuteCards) = (Returned faceUp, deck1) /\
    Z.of_nat (length faceUp) = 5 /\
    count deck1 = 105 /\
    cards (trainCarDeck permuteCards) = cards deck1 ++ rev faceUp /\
    dealHands players 0 (deck1, heap) = (Returned tt, (deck2, heap')) /\
    head players = Some first /\
    Game_init permuteCards permuteDests getRoutes getDestinationCards
              map players logs drawGame heap =
    (Returned
       {| Game.map := map;
          Game.doLogs := logs;
          Game.drawGame := drawGame;
          Game.gameOver := false;
          Game.lastTurn := false;
          Game.endedGame := None;
          Game.colorPicked := None;
          Game.turn := 1 - Z.of_nat (length players);
          Game.wildPicked := false;
          Game.gameLogs := [];
          Game.trainCarDeck := deck2;
          Game.destinationDeal := None;
          Game.movePerforming := Some AskForDeal;
          Game.board :=
            edgesView (initBoard (getRoutes map) (Z.of_nat (length players)));
          Game.faceUpCards := faceUp;
          Game.destinationCards := permuteDests (getDestinationCards map);
          Game.destinationsDeck :=
            {| cards := permuteDests (getDestinationCards map) |};
          Game.players := players;
          Game.makingNextMove := first |}, heap').
Proof using permuteCards_perm.
  intros Hn. unfold Game_init.
  exact (Game_init_with_returns permuteCards permuteDests _ _
           permuteCards_perm map players logs drawGame heap
           (getRoutes map) (getDestinationCards map) eq_refl eq_refl Hn).
Qed.

(** The constructor, for a map that loads, with a number of players out of
    range. *)
Lemma Game_init_out_of_range map players logs drawGame heap :
  ~ (2 <= Z.of_nat (length players) <= 4) ->
  Game_init permuteCards permuteDests getRoutes getDestinationCards
            map players logs drawGame heap
  = (Raised (SystemExit "ERROR: Game must have 2-4 players"), heap).
Proof using permuteCards_perm.
  intros Hn. unfold Game_init.
  exact (Game_init_with_out_of_range permuteCards permuteDests _ _
           permuteCards_perm map players logs drawGame heap
           (getRoutes map) (getDestinationCards map) eq_refl eq_refl Hn).
Qed.

(** A constructor call that returns had two to four players. *)
Lemma Game_init_in_range map players logs drawGame heap new heap' :
  Game_init permuteCards permuteDests getRoutes getDestinationCards
            map players logs drawGame heap = (Returned new, heap') ->
  2 <= Z.of_nat (length players) <= 4.
Proof using permuteCards_perm.
  intros Hinit.
  destruct (Z_le_dec 2 (Z.of_nat (length players)));
    [destruct (Z_le_dec (Z.of_nat (length players)) 4); [lia|]|];
    rewrite Game_init_out_of_range in Hinit by lia; discriminate.
Qed.

(** The first enumeration on a new game: [validMoves] returns the seven
    lists of destinations to take and leaves the game as it is, although no
    destinations have been dealt ([destinationDeal] is [None]). *)
Theorem new_game_first_moves map players logs drawGame heap new heap' :
  Game_init permuteCards permuteDests getRoutes getDestinationCards
            map players logs drawGame heap = (Returned new, heap') ->
  Game.destinationDeal new = None /\
  validMoves (derefGame heap' new) =
    ([TakeDestinations [0]; TakeDestinations [1]; TakeDestinations [2];
      TakeDestinations [0; 1]; TakeDestinations [0; 2];
      TakeDestinations [1; 2]; TakeDestinations [0; 1; 2]],
     derefGame heap' new).
Proof using permuteCards_perm.
  intros Hinit.
  pose proof (Game_init_in_range _ _ _ _ _ _ _ Hinit) as Hn.
  destruct (Game_init_returns map players logs drawGame heap Hn)
    as (faceUp & deck1 & deck2 & heap'' & first & _ & _ & _ & _ & _ & _ & E).
  rewrite E in Hinit. injection Hinit as <- <-.
  split; reflexivity.
Qed.

(** The constructor deals without losing a card: for players that are
    pairwise distinct objects, the face-up cards, the hands of the players
    and the cards left in the deck are together the 110 cards of the
    standard deck, each player holds four, and the player at position [k] of
    the list has turn order [k]. *)
Theorem Game_init_deals_all_cards map players logs drawGame heap :
  2 <= Z.of_nat (length players) <= 4 ->
  List.NoDup players ->
  Forall (fun p => (p < length heap)%nat) players ->
  exists new heap',
    Game_init permuteCards permuteDests getRoutes getDestinationCards
              map players logs drawGame heap = (Returned new, heap') /\
    Permutation
      (Game.faceUpCards new ++
       concat (List.map (fun p => Agent.trainCards (heap' !!! p)) players) ++
       cards (Game.trainCarDeck new))
      (repeat "PINK" 12 ++ repeat "WHITE" 12 ++ repeat "BLUE" 12 ++
       repeat "YELLOW" 12 ++ repeat "ORANGE" 12 ++ repeat "BLACK" 12 ++
       repeat "RED" 12 ++ repeat "GREEN" 12 ++ repeat "WILD" 14) /\
    (forall k p, players !! k = Some p ->
       Agent.turnOrder (heap' !!! p) = Some (Z.of_nat k) /\
       length (Agent.trainCards (heap' !!! p)) = 4%nat).
Proof using permuteCards_perm.
  intros Hn Hnd Hvalid.
  destruct (Game_init_returns map players logs drawGame heap Hn)
    as (faceUp & deck1 & deck2 & heap' & first & _ & _ & Hc1 & Hcards &
        Hdeal & _ & Hinit).
  destruct (dealHands_spec players 0 deck1 heap)
    as (hands & deck2' & heap'' & Hdeal' & Hlen & Hfour & Hcards' & Hat & _);
    [lia | exact Hnd | exact Hvalid |].
  rewrite Hdeal in Hdeal'. injection Hdeal' as <- <-.
  do 2 eexists. split; [exact Hinit|]. cbn [Game.faceUpCards Game.trainCarDeck].
  assert (Hhands : List.map (fun p => Agent.trainCards (heap' !!! p)) players
                   = hands).
  { clear -Hlen Hat. revert Hlen Hat. generalize 0.
    revert hands. induction players as [|p players IH];
      intros [|h hands] i Hlen Hat; simpl in Hlen; try discriminate;
      [reflexivity|].
    simpl. f_equal.
    - now rewrite (Hat 0%nat p h eq_refl eq_refl).
    - apply (IH hands (i + 1)); [lia|].
      intros k q g Hq Hg. rewrite (Hat (S k) q g Hq Hg).
      f_equal. f_equal. lia. }
  split.
  - rewrite Hhands.
    rewrite <- (permuteCards_perm
                  (repeat "PINK" 12 ++ repeat "WHITE" 12 ++ repeat "BLUE" 12 ++
                   repeat "YELLOW" 12 ++ repeat "ORANGE" 12 ++
                   repeat "BLACK" 12 ++ repeat "RED" 12 ++
                   repeat "GREEN" 12 ++ repeat "WILD" 14)).
    change (permuteCards _) with (cards (trainCarDeck permuteCards)).
    rewrite Hcards, Hcards'.
    rewrite (Permutation_app_comm (cards deck2 ++ rev (concat hands))).
    rewrite (Permutation_app_comm (cards deck2)).
    rewrite <- !Permutation_rev. now rewrite app_assoc.
  - intros k p Hp.
    assert (Hk : (k < length hands)%nat)
      by (rewrite Hlen; now apply lookup_lt_Some in Hp).
    apply lookup_lt_is_Some_2 in Hk as [h Hh].
    rewrite (Hat k p h Hp Hh). simpl. split; [reflexivity|].
    rewrite List.Forall_forall in Hfour. apply Hfour.
    apply list_elem_of_In. eapply list_elem_of_lookup_2. exact Hh.
Qed.

(** What the constructor writes on the heap. *)
Lemma Game_init_writes map players logs drawGame heap new heap' :
  Game_init permuteCards permuteDests getRoutes getDestinationCards
            map players logs drawGame heap = (Returned new, heap') ->
  List.NoDup players ->
  Forall (fun p => (p < length heap)%nat) players ->
  (forall p,
     Agent.points (heap' !!! p) = Agent.points (heap !!! p) /\
     Agent.name (heap' !!! p) = Agent.name (heap !!! p) /\
     Agent.trainsLeft (heap' !!! p) = Agent.trainsLeft (heap !!! p) /\
     Agent.destinationCards (heap' !!! p)
       = Agent.destinationCards (heap !!! p) /\
     Agent.colorCounts (heap' !!! p) = Agent.colorCounts (heap !!! p)) /\
  (forall p, ~ In p players -> heap' !!! p = heap !!! p).
Proof using permuteCards_perm.
  intros Hinit Hnd Hvalid.
  pose proof (Game_init_in_range _ _ _ _ _ _ _ Hinit) as Hn.
  destruct (Game_init_returns map players logs drawGame heap Hn)
    as (faceUp & deck1 & deck2 & heap'' & first & _ & _ & Hc1 & _ &
        Hdeal & _ & E).
  rewrite E in Hinit. injection Hinit as <- <-.
  destruct (dealHands_spec players 0 deck1 heap)
    as (hands & deck2' & heap3 & Hdeal' & Hlen & _ & _ & Hat & Hframe);
    [lia | exact Hnd | exact Hvalid |].
  rewrite Hdeal in Hdeal'. injection Hdeal' as <- <-.
  split; [|exact Hframe].
  intros p. destruct (in_dec Nat.eq_dec p players) as [Hin|Hout].
  - apply list_elem_of_In, list_elem_of_lookup_1 in Hin as [k Hk].
    assert (Hk' : (k < length hands)%nat)
      by (rewrite Hlen; now apply lookup_lt_Some in Hk).
    apply lookup_lt_is_Some_2 in Hk' as [h Hh].
    rewrite (Hat k p h Hk Hh). simpl. repeat split.
  - rewrite (Hframe p Hout). repeat split.
Qed.

(** The constructor writes two attributes of the players and nothing else
    on the heap: the points, name, trains, destination cards and colour
    counts of every agent are what they were, and an agent that is not in
    the player list is not changed at all. *)
Theorem Game_init_frame map players logs drawGame heap new heap' :
  Game_init permuteCards permuteDests getRoutes getDestinationCards
            map players logs drawGame heap = (Returned new, heap') ->
  List.NoDup players ->
  Forall (fun p => (p < length heap)%nat) players ->
  (forall p,
     Agent.points (heap' !!! p) = Agent.points (heap !!! p) /\
     Agent.name (heap' !!! p) = Agent.name (heap !!! p) /\
     Agent.trainsLeft (heap' !!! p) = Agent.trainsLeft (heap !!! p) /\
     Agent.destinationCards (heap' !!! p)
       = Agent.destinationCards (heap !!! p) /\
     Agent.colorCounts (heap' !!! p) = Agent.colorCounts (heap !!! p)) /\
  (forall p, ~ In p players -> heap' !!! p = heap !!! p).
Proof using permuteCards_perm. apply Game_init_writes. Qed.

End GameInitFacts.

Lemma Game_init_fresh_state_witness :
  (exists new heap',
     Game_init_with (fun l => l) (fun l => l)
                    (fun _ => Returned sampleRoutes) (fun _ => Returned [])
                    "USA" [0%nat; 1%nat] true false heapOfTwo
       = (Returned new, heap') /\
     Game.turn new = -1 /\
     count (Game.trainCarDeck new) = 97 /\
     List.map Edge.index (Game.board new) = [0; 2; 1]) /\
  Game_init_with (fun l => l) (fun l => l)
                 (fun _ => Raised (FileNotFoundError "internal/USA_paths.txt"))
                 (fun _ => Returned [])
                 "USA" [0%nat] true false heapOfTwo
    = (Raised (FileNotFoundError "internal/USA_paths.txt"), heapOfTwo).
Proof.
  split.
  - destruct (proj2 (proj2 (proj2
                (Game_init_fresh_state (fun l => l) (fun l => l)
                   (fun _ => Returned sampleRoutes) (fun _ => Returned [])
                   (fun l => Permutation_refl l)
                   "USA" [0%nat; 1%nat] true false heapOfTwo))
                sampleRoutes [] eq_refl eq_refl))
      as (new & heap' & Hinit & _ & _ & Hturn & _ & _ & _ & Hcount & Hboard & _).
    + simpl. lia.
    + exists new, heap'. split; [exact Hinit|]. split; [exact Hturn|].
      split; [exact Hcount|]. rewrite Hboard. reflexivity.
  - apply (proj1 (Game_init_fresh_state (fun l => l) (fun l => l)
                    (fun _ => Raised (FileNotFoundError "internal/USA_paths.txt"))
                    (fun _ => Returned [])
                    (fun l => Permutation_refl l)
                    "USA" [0%nat] true false heapOfTwo)).
    reflexivity.
Defined.

Lemma new_game_first_moves_witness :
  exists new heap',
    Game_init (fun l => l) (fun l => l) (fun _ => []) (fun _ => [])
              "USA" [0%nat; 1%nat] true false heapOfTwo = (Returned new, heap') /\
    length (fst (validMoves (derefGame heap' new))) = 7%nat.
Proof.
  destruct (Game_init (fun l => l) (fun l => l) (fun _ => []) (fun _ => [])
              "USA" [0%nat; 1%nat] true false heapOfTwo)
    as [[new|e] heap'] eqn:E; [|discriminate].
  exists new, heap'. split; [reflexivity|].
  rewrite (proj2 (new_game_first_moves (fun l => l) (fun l => l)
                    (fun _ => []) (fun _ => [])
                    (fun l => Permutation_refl l)
                    "USA" [0%nat; 1%nat] true false heapOfTwo new heap' E)).
  reflexivity.
Defined.

Lemma Game_init_deals_all_cards_witness :
  exists new heap',
    Game_init (fun l => l) (fun l => l) (fun _ => []) (fun _ => [])
              "USA" [1%nat; 0%nat] true false heapOfTwo = (Returned new, heap') /\
    Agent.turnOrder (heap' !!! 1%nat) = Some 0 /\
    length (Agent.trainCards (heap' !!! 1%nat)) = 4%nat.
Proof.
  destruct (Game_init_deals_all_cards (fun l => l) (fun l => l)
              (fun _ => []) (fun _ => []) (fun l => Permutation_refl l)
              "USA" [1%nat; 0%nat] true false heapOfTwo)
    as (new & heap' & Hinit & _ & Hat).
  - simpl. lia.
  - repeat constructor; simpl; intuition discriminate.
  - repeat constructor.
  - exists new, heap'. split; [exact Hinit|].
    exact (Hat 0%nat 1%nat eq_refl).
Defined.

Lemma Game_init_frame_witness :
  exists new heap',
    Game_init (fun l => l) (fun l => l) (fun _ => []) (fun _ => [])
              "USA" [0%nat; 1%nat] true false
              (heapOfTwo ++ [agentWith 5 ["RED"]]) = (Returned new, heap') /\
    heap' !!! 2%nat = agentWith 5 ["RED"] /\
    Agent.trainsLeft (heap' !!! 0%nat) = 45.
Proof.
  destruct (Game_init (fun l => l) (fun l => l) (fun _ => []) (fun _ => [])
              "USA" [0%nat; 1%nat] true false
              (heapOfTwo ++ [agentWith 5 ["RED"]]))
    as [[new|e] heap'] eqn:E; [|discriminate].
  exists new, heap'. split; [reflexivity|].
  destruct (Game_init_frame (fun l => l) (fun l => l)
              (fun _ => []) (fun _ => []) (fun l => Permutation_refl l)
              "USA" [0%nat; 1%nat] true false
              (heapOfTwo ++ [agentWith 5 ["RED"]]) new heap' E)
    as [Hattr Hframe].
  - repeat constructor; simpl; intuition discriminate.
  - repeat constructor.
  - split.
    + rewrite (Hframe 2%nat); [reflexivity|].
      simpl. intuition discriminate.
    + rewrite (proj1 (proj2 (proj2 (Hattr 0%nat)))). reflexivity.
Defined.

(** ** More on cloning *)

(** Copying a list of agents: the copies are new objects at the end of the
    heap, each with the attributes of its original. *)
Lemma deepcopy_agents_spec (base : list Agent.t) (ps : list nat) :
  Forall (fun p => (p < length base)%nat) ps ->
  forall memo heap,
    (length base <= length heap)%nat ->
    (forall p, (p < length base)%nat -> heap !!! p = base !!! p) ->
    (forall p p', In (p, p') memo ->
       (length base <= p' < length heap)%nat /\ heap !!! p' = base !!! p) ->
    exists ps' ext,
      deepcopy_agents memo ps heap = (Returned ps', heap ++ ext) /\
      Forall2 (fun p p' =>
                 (length base <= p' < length (heap ++ ext))%nat /\
                 (heap ++ ext) !!! p' = base !!! p) ps ps'.
Proof.
  induction 1 as [|p rest Hp Hrest IH]; intros memo heap Hlen Hbase Hmemo;
    cbn [deepcopy_agents].
  - exists [], []. unfold ret. rewrite app_nil_r. split; constructor.
  - destruct (find (fun m => Nat.eqb (fst m) p) memo) as [[q q']|] eqn:Hfind.
    + apply find_some in Hfind as [Hin Hq]. simpl in Hq.
      apply Nat.eqb_eq in Hq as ->.
      destruct (Hmemo p q' Hin) as [Hq' Hat].
      destruct (IH memo heap Hlen Hbase Hmemo) as (ps' & ext & E & Hall).
      unfold bind. rewrite E. unfold ret. exists (q' :: ps'), ext.
      split; [reflexivity|]. constructor; [|exact Hall].
      rewrite length_app. split; [lia|].
      now rewrite lookup_total_app_l by lia.
    + unfold bind at 1. unfold deepcopy_agent, bind, read, alloc.
      destruct (IH ((p, length heap) :: memo) (heap ++ [heap !!! p]))
        as (ps' & ext & E & Hall).
      * rewrite length_app. lia.
      * intros q Hq. rewrite lookup_total_app_l by lia. now apply Hbase.
      * intros q q' [Hq|Hin].
        -- injection Hq as <- <-. rewrite length_app. simpl. split; [lia|].
           rewrite lookup_total_app_r by lia. rewrite Nat.sub_diag. simpl.
           now apply Hbase.
        -- destruct (Hmemo q q' Hin) as [Hb Hat]. rewrite length_app.
           split; [lia|]. now rewrite lookup_total_app_l by lia.
      * unfold bind. rewrite E. unfold ret.
        exists (length heap :: ps'), ([heap !!! p] ++ ext).
        rewrite app_assoc. split; [reflexivity|].
        constructor; [|exact Hall].
        rewrite !length_app. simpl. split; [lia|].
        rewrite <- app_assoc. rewrite lookup_total_app_r by lia.
        rewrite Nat.sub_diag. simpl. now apply Hbase.
Qed.

Section CloneMore.
Variable permuteCards : list string -> list string.
Variable permuteDests : list Destination.t -> list Destination.t.
Variable getRoutes : string -> list Route.t.
Variable getDestinationCards : string -> list Destination.t.
Hypothesis permuteCards_perm : forall l, Permutation (permuteCards l) l.

(** The steps of a [clone] that returns. *)
Lemma clone_returns self heap new heap' :
  clone permuteCards permuteDests getRoutes getDestinationCards self heap
    = (Returned new, heap') ->
  exists g0 heap1 players' ext1,
    Game_init permuteCards permuteDests getRoutes getDestinationCards
              (Game.map self) (Game.players self) false false heap
      = (Returned g0, heap1) /\
    Game.map g0 = Game.map self /\
    Game.doLogs g0 = false /\ Game.drawGame g0 = false /\
    length heap1 = length heap /\
    deepcopy_agents [] (Game.players self) heap1
      = (Returned players', heap1 ++ ext1) /\
    heap' = (heap1 ++ ext1) ++ [(heap1 ++ ext1) !!! Game.makingNextMove self] /\
    new =
      {| Game.map := Game.map self;
         Game.doLogs := false;
         Game.drawGame := false;
         Game.gameOver := Game.gameOver self;
         Game.lastTurn := Game.lastTurn self;
         Game.endedGame := Game.endedGame self;
         Game.colorPicked := Game.colorPicked self;
         Game.turn := Game.turn self;
         Game.wildPicked := Game.wildPicked self;
         Game.gameLogs := Game.gameLogs self;
         Game.trainCarDeck := Game.trainCarDeck self;
         Game.destinationDeal := Game.destinationDeal self;
         Game.movePerforming := Game.movePerforming self;
         Game.board := Game.board self;
         Game.faceUpCards := Game.faceUpCards self;
         Game.destinationCards := Game.destinationCards self;
         Game.destinationsDeck := Game.destinationsDeck self;
         Game.players := players';
         Game.makingNextMove := length (heap1 ++ ext1) |}.
Proof using permuteCards_perm.
  intros Hclone.
  assert (Hn : 2 <= Z.of_nat (length (Game.players self)) <= 4).
  { destruct (Z_le_dec 2 (Z.of_nat (length (Game.players self))));
      [destruct (Z_le_dec (Z.of_nat (length (Game.players self))) 4);
       [lia|]|];
      unfold clone, clone_with, bind in Hclone;
      fold (Game_init permuteCards permuteDests getRoutes
                      getDestinationCards) in Hclone;
      rewrite (Game_init_out_of_range permuteCards permuteDests
                 getRoutes getDestinationCards permuteCards_perm
                 (Game.map self) (Game.players self) false false heap)
        in Hclone by lia; discriminate. }
  destruct (Game_init_returns permuteCards permuteDests getRoutes
              getDestinationCards permuteCards_perm
              (Game.map self) (Game.players self) false false heap Hn)
    as (faceUp & deck1 & deck2 & heap1 & first & _ & _ & Hc1 & _ & Hdeal & _ &
        Hinit).
  destruct (dealHands_count (Game.players self) 0 deck1 heap)
    as (deck2' & heap1' & Hdeal' & _ & Hlen); [lia|].
  rewrite Hdeal in Hdeal'. injection Hdeal' as <- <-.
  destruct (deepcopy_agents_ext (Game.players self) [] heap1)
    as (players' & ext1 & Hcopy).
  unfold clone, clone_with in Hclone.
  fold (Game_init permuteCards permuteDests getRoutes getDestinationCards)
    in Hclone.
  unfold bind at 1 in Hclone. rewrite Hinit in Hclone.
  unfold bind at 1 in Hclone. rewrite Hcopy in Hclone.
  unfold bind, deepcopy_agent, read, alloc, ret in Hclone. cbn in Hclone.
  injection Hclone as <- <-.
  do 4 eexists. split; [exact Hinit|]. cbn.
  repeat (split; [first [reflexivity | exact Hlen | exact Hcopy]|]).
  reflexivity.
Qed.

(** A clone carries the values of the game it copies in every attribute but
    two: [doLogs] and [drawGame] are [False] in the clone, whatever they are
    in the original. *)
Theorem clone_copies_all_but_the_switches self heap new heap' :
  clone permuteCards permuteDests getRoutes getDestinationCards self heap
    = (Returned new, heap') ->
  Game.doLogs new = false /\ Game.drawGame new = false /\
  Game.map new = Game.map self /\
  Game.gameOver new = Game.gameOver self /\
  Game.lastTurn new = Game.lastTurn self /\
  Game.endedGame new = Game.endedGame self /\
  Game.colorPicked new = Game.colorPicked self /\
  Game.turn new = Game.turn self /\
  Game.wildPicked new = Game.wildPicked self /\
  Game.gameLogs new = Game.gameLogs self /\
  Game.trainCarDeck new = Game.trainCarDeck self /\
  Game.destinationDeal new = Game.destinationDeal self /\
  Game.movePerforming new = Game.movePerforming self /\
  Game.board new = Game.board self /\
  Game.faceUpCards new = Game.faceUpCards self /\
  Game.destinationCards new = Game.destinationCards self /\
  Game.destinationsDeck new = Game.destinationsDeck self.
Proof using permuteCards_perm.
  intros Hclone.
  destruct (clone_returns _ _ _ _ Hclone)
    as (g0 & heap1 & players' & ext1 & _ & _ & _ & _ & _ & _ & _ & ->).
  cbn. repeat split.
Qed.

(** The players of a clone are new objects, one for every player of the
    original, and the clone's player to move is one more new object: it is
    none of the clone's players, so what is done to a player of the clone
    does not show through [makingNextMove] of the clone. *)
Theorem clone_players_are_new_objects self heap new heap' :
  clone permuteCards permuteDests getRoutes getDestinationCards self heap
    = (Returned new, heap') ->
  Forall (fun p => (p < length heap)%nat) (Game.players self) ->
  length (Game.players new) = length (Game.players self) /\
  Forall (fun p' => (length heap <= p' < length heap')%nat)
         (Game.players new) /\
  (length heap <= Game.makingNextMove new < length heap')%nat /\
  ~ In (Game.makingNextMove new) (Game.players new).
Proof using permuteCards_perm.
  intros Hclone Hvalid.
  destruct (clone_returns _ _ _ _ Hclone)
    as (g0 & heap1 & players' & ext1 & _ & _ & _ & _ & Hlen & Hcopy & -> & ->).
  destruct (deepcopy_agents_spec heap1 (Game.players self)) with
    (memo := @nil (nat * nat)) (heap := heap1)
    as (ps' & ext & E & Hall).
  - now rewrite Hlen.
  - lia.
  - reflexivity.
  - intros p p' [].
  - rewrite Hcopy in E. injection E as <- Hext.
    apply app_inv_head in Hext as <-.
    cbn [Game.players Game.makingNextMove].
    assert (Hbound : Forall (fun p' => (length heap <= p' <
                                        length (heap1 ++ ext1))%nat) players').
    { clear -Hall Hlen. induction Hall as [|p p' ps ps' [Hb _] _ IH];
        constructor; [lia | exact IH]. }
    split; [symmetry; eapply Forall2_length; exact Hall|].
    split; [|split].
    + eapply Forall_impl; [exact Hbound|]. intros p' Hp'. simpl in *.
      rewrite length_app. simpl. lia.
    + rewrite !length_app in *. simpl. lia.
    + intros Hin. rewrite List.Forall_forall in Hbound.
      apply Hbound in Hin. lia.
Qed.

(** Every player of a clone has the attributes that its original has after
    the call, not those it had before: the copy is taken once the
    constructor has dealt the new hands, so it holds four cards. *)
Theorem clone_players_copy_the_new_hands self heap new heap' :
  clone permuteCards permuteDests getRoutes getDestinationCards self heap
    = (Returned new, heap') ->
  Forall (fun p => (p < length heap)%nat) (Game.players self) ->
  Forall2 (fun p p' =>
             heap' !!! p' = heap' !!! p /\
             length (Agent.trainCards (heap' !!! p')) = 4%nat)
          (Game.players self) (Game.players new).
Proof using permuteCards_perm.
  intros Hclone Hvalid.
  destruct (clone_returns _ _ _ _ Hclone)
    as (g0 & heap1 & players' & ext1 & Hinit & _ & _ & _ & Hlen & Hcopy &
        -> & ->).
  pose proof (Game_init_in_range permuteCards permuteDests getRoutes
                getDestinationCards permuteCards_perm _ _ _ _ _ _ _ Hinit)
    as Hn.
  destruct (Game_init_deals permuteCards permuteDests getRoutes
              getDestinationCards permuteCards_perm
              (Game.map self) (Game.players self) false false heap Hn)
    as (g0' & heap1' & Hinit' & _ & Hfour).
  rewrite Hinit in Hinit'. injection Hinit' as <- <-.
  destruct (deepcopy_agents_spec heap1 (Game.players self)) with
    (memo := @nil (nat * nat)) (heap := heap1)
    as (ps' & ext & E & Hall).
  - now rewrite Hlen.
  - lia.
  - reflexivity.
  - intros p p' [].
  - rewrite Hcopy in E. injection E as <- Hext.
    apply app_inv_head in Hext as <-.
    cbn [Game.players].
    assert (Hgen : forall ps ps',
      Forall2 (fun p p' =>
                 (length heap1 <= p' < length (heap1 ++ ext1))%nat /\
                 (heap1 ++ ext1) !!! p' = heap1 !!! p) ps ps' ->
      (forall p, In p ps ->
         (p < length heap)%nat /\
         length (Agent.trainCards (heap1 !!! p)) = 4%nat) ->
      Forall2 (fun p p' =>
                 ((heap1 ++ ext1) ++
                  [(heap1 ++ ext1) !!! Game.makingNextMove self]) !!! p'
                 = ((heap1 ++ ext1) ++
                    [(heap1 ++ ext1) !!! Game.makingNextMove self]) !!! p /\
                 length (Agent.trainCards
                           (((heap1 ++ ext1) ++
                             [(heap1 ++ ext1) !!! Game.makingNextMove self])
                            !!! p')) = 4%nat) ps ps').
    { intros ps ps' HF. induction HF as [|p p' ps ps' [Hb Hat] _ IH];
        intros Hps; [constructor|].
      destruct (Hps p (or_introl eq_refl)) as [Hp Hfour'].
      constructor; [|apply IH; intros q Hq; apply Hps; now right].
      rewrite length_app in Hb.
      assert (E1 : ((heap1 ++ ext1) ++
                    [(heap1 ++ ext1) !!! Game.makingNextMove self]) !!! p'
                   = heap1 !!! p).
      { rewrite lookup_total_app_l by (rewrite length_app; lia). exact Hat. }
      assert (E2 : ((heap1 ++ ext1) ++
                    [(heap1 ++ ext1) !!! Game.makingNextMove self]) !!! p
                   = heap1 !!! p).
      { rewrite <- app_assoc. now rewrite lookup_total_app_l by lia. }
      rewrite E1, E2. split; [reflexivity | exact Hfour']. }
    apply Hgen; [exact Hall|].
    intros p Hp. rewrite List.Forall_forall in Hvalid.
    split; [now apply Hvalid | apply Hfour; [now apply Hvalid | exact Hp]].
Qed.

(** What [clone] leaves alone on the heap: an agent that is not a player of
    the game is not changed, and of the players only the hand and the turn
    order are written. *)
Theorem clone_frame self heap new heap' :
  clone permuteCards permuteDests getRoutes getDestinationCards self heap
    = (Returned new, heap') ->
  List.NoDup (Game.players self) ->
  Forall (fun p => (p < length heap)%nat) (Game.players self) ->
  forall p, (p < length heap)%nat ->
    (~ In p (Game.players self) -> heap' !!! p = heap !!! p) /\
    Agent.points (heap' !!! p) = Agent.points (heap !!! p) /\
    Agent.name (heap' !!! p) = Agent.name (heap !!! p) /\
    Agent.trainsLeft (heap' !!! p) = Agent.trainsLeft (heap !!! p) /\
    Agent.destinationCards (heap' !!! p)
      = Agent.destinationCards (heap !!! p) /\
    Agent.colorCounts (heap' !!! p) = Agent.colorCounts (heap !!! p).
Proof using permuteCards_perm.
  intros Hclone Hnd Hvalid p Hp.
  destruct (clone_returns _ _ _ _ Hclone)
    as (g0 & heap1 & players' & ext1 & Hinit & _ & _ & _ & Hlen & _ & -> & _).
  destruct (Game_init_writes permuteCards permuteDests getRoutes
              getDestinationCards permuteCards_perm _ _ _ _ _ _ _
              Hinit Hnd Hvalid) as [Hattr Hframe].
  rewrite <- app_assoc, lookup_total_app_l by lia.
  split; [exact (Hframe p) | exact (Hattr p)].
Qed.

End CloneMore.

Lemma clone_copies_all_but_the_switches_witness :
  exists new heap',
    clone (fun l => l) (fun l => l) (fun _ => []) (fun _ => [])
          (withLogs gameOfTwo) heapOfTwo = (Returned new, heap') /\
    Game.doLogs (withLogs gameOfTwo) = true /\
    Game.doLogs new = false /\
    Game.faceUpCards new = ["WHITE"].
Proof.
  destruct (clone (fun l => l) (fun l => l) (fun _ => []) (fun _ => [])
                  (withLogs gameOfTwo) heapOfTwo)
    as [[new|e] heap'] eqn:E; [|discriminate].
  exists new, heap'. split; [reflexivity|]. split; [reflexivity|].
  destruct (clone_copies_all_but_the_switches (fun l => l) (fun l => l)
              (fun _ => []) (fun _ => []) (fun l => Permutation_refl l)
              (withLogs gameOfTwo) heapOfTwo new heap' E)
    as (Hlogs & _ & _ & _ & _ & _ & _ & _ & _ & _ & _ & _ & _ & _ & Hface & _).
  split; [exact Hlogs | exact Hface].
Defined.

Lemma clone_players_are_new_objects_witness :
  exists new heap',
    clone (fun l => l) (fun l => l) (fun _ => []) (fun _ => [])
          gameOfTwo heapOfTwo = (Returned new, heap') /\
    Game.makingNextMove gameOfTwo = 0%nat /\ In 0%nat (Game.players gameOfTwo) /\
    ~ In (Game.makingNextMove new) (Game.players new).
Proof.
  destruct (clone (fun l => l) (fun l => l) (fun _ => []) (fun _ => [])
                  gameOfTwo heapOfTwo)
    as [[new|e] heap'] eqn:E; [|discriminate].
  exists new, heap'. split; [reflexivity|]. split; [reflexivity|].
  split; [now left|].
  apply (clone_players_are_new_objects (fun l => l) (fun l => l)
           (fun _ => []) (fun _ => []) (fun l => Permutation_refl l)
           gameOfTwo heapOfTwo new heap' E).
  repeat constructor.
Defined.

Lemma clone_players_copy_the_new_hands_witness :
  exists new heap',
    clone (fun l => l) (fun l => l) (fun _ => []) (fun _ => [])
          gameOfTwo heapOfTwo = (Returned new, heap') /\
    Forall2 (fun p p' =>
               heap' !!! p' = heap' !!! p /\
               length (Agent.trainCards (heap' !!! p')) = 4%nat)
            (Game.players gameOfTwo) (Game.players new).
Proof.
  destruct (clone (fun l => l) (fun l => l) (fun _ => []) (fun _ => [])
                  gameOfTwo heapOfTwo)
    as [[new|e] heap'] eqn:E; [|discriminate].
  exists new, heap'. split; [reflexivity|].
  apply (clone_players_copy_the_new_hands (fun l => l) (fun l => l)
           (fun _ => []) (fun _ => []) (fun l => Permutation_refl l)
           gameOfTwo heapOfTwo new heap' E).
  repeat constructor.
Defined.

Lemma clone_frame_witness :
  exists new heap',
    clone (fun l => l) (fun l => l) (fun _ => []) (fun _ => [])
          gameOfTwo (heapOfTwo ++ [agentWith 5 ["RED"]])
      = (Returned new, heap') /\
    heap' !!! 2%nat = agentWith 5 ["RED"].
Proof.
  destruct (clone (fun l => l) (fun l => l) (fun _ => []) (fun _ => [])
                  gameOfTwo (heapOfTwo ++ [agentWith 5 ["RED"]]))
    as [[new|e] heap'] eqn:E; [|discriminate].
  exists new, heap'. split; [reflexivity|].
  destruct (clone_frame (fun l => l) (fun l => l)
              (fun _ => []) (fun _ => []) (fun l => Permutation_refl l)
              gameOfTwo (heapOfTwo ++ [agentWith 5 ["RED"]]) new heap' E)
    with (p := 2%nat) as [Hframe _].
  - repeat constructor; simpl; intuition discriminate.
  - repeat constructor.
  - simpl. lia.
  - rewrite Hframe; [reflexivity|]. simpl. intuition discriminate.
Defined.

(** ** The train car deck *)

(** [trainCarDeck()] is the standard deck whatever the shuffle: 110 cards,
    twelve of each of the eight colours and fourteen wild cards. *)
Theorem trainCarDeck_composition (permuteCards : list string -> list string) :
  (forall l, Permutation (permuteCards l) l) ->
  count (trainCarDeck permuteCards) = 110 /\
  list_count (cards (trainCarDeck permuteCards)) "WILD" = 14 /\
  Forall (fun c => list_count (cards (trainCarDeck permuteCards)) c = 12)
         ["PINK"; "WHITE"; "BLUE"; "YELLOW"; "ORANGE"; "BLACK"; "RED";
          "GREEN"].
Proof.
  intros Hperm. split; [now apply trainCarDeck_count|].
  assert (Hc : forall c,
    list_count (cards (trainCarDeck permuteCards)) c =
    list_count (repeat "PINK" 12 ++ repeat "WHITE" 12 ++ repeat "BLUE" 12 ++
                repeat "YELLOW" 12 ++ repeat "ORANGE" 12 ++
                repeat "BLACK" 12 ++ repeat "RED" 12 ++ repeat "GREEN" 12 ++
                repeat "WILD" 14) c).
  { intros c. unfold list_count. f_equal.
    apply Permutation_count_occ.
    unfold trainCarDeck, Deck_init, random_shuffle. cbn [fst snd cards].
    apply Hperm. }
  split; [rewrite Hc; reflexivity|].
  repeat constructor; rewrite Hc; reflexivity.
Qed.

Lemma trainCarDeck_composition_witness :
  count (trainCarDeck (@rev string)) = 110 /\
  list_count (cards (trainCarDeck (@rev string))) "WILD" = 14.
Proof.
  destruct (trainCarDeck_composition (@rev string)) as (Hc & Hw & _).
  - intros l. symmetry. apply Permutation_rev.
  - split; [exact Hc | exact Hw].
Defined.
